(** * pyrfc6266: parsing of the Content-Disposition header (RFC 6266)

    A shallow embedding of [src/pyrfc6266/_main.py].  A Python [str] is a
    sequence of Unicode code points and is modelled as [list N]; raised
    exceptions are modelled by the [Raise] constructor of [result].  The
    grammar of the module is written with pyparsing combinators; the part of
    pyparsing the grammar uses is embedded in [Module PP] with the
    behaviour of pyparsing 3 (whitespace skipping before every element,
    no whitespace skipping inside [Combine], named results). *)

From Stdlib Require Import Ascii String DecimalString.
From Stdlib Require Import List NArith ZArith Bool Lia Arith.
Import ListNotations.

Local Open Scope N_scope.
Local Open Scope list_scope.

(** ** Python strings *)

Definition pystr := list N.

(** An ASCII literal as a Python string. *)
Definition s2u (s : string) : pystr := map N_of_ascii (list_ascii_of_string s).

(** The double quote and the backslash, which the literals of this file
    never contain. *)
Definition DQUOTE : N := 34.
Definition BACKSLASH : N := 92.

(** A double-quoted literal: [q "foo"] is the five characters ["foo"]. *)
Definition q (s : string) : pystr := DQUOTE :: s2u s ++ [DQUOTE].

Fixpoint str_eqb (a b : pystr) : bool :=
  match a, b with
  | [], [] => true
  | x :: a', y :: b' => (x =? y) && str_eqb a' b'
  | _, _ => false
  end.

(** [c in chars] for a character and a string of characters. *)
Definition char_in (chars : pystr) (c : N) : bool := existsb (N.eqb c) chars.

(** [s in l] for a string and a list or set of strings. *)
Definition str_in (s : pystr) (l : list pystr) : bool := existsb (str_eqb s) l.

Definition is_upper_ascii (c : N) : bool := (65 <=? c) && (c <=? 90).
Definition is_lower_ascii (c : N) : bool := (97 <=? c) && (c <=? 122).

(** [str.lower()].  The module only lowers disposition types, parameter
    names and charset names, all of which are ASCII (token characters), where
    lowering replaces [A-Z] by [a-z]. *)
Definition lower_char (c : N) : N := if is_upper_ascii c then c + 32 else c.
Definition lower (s : pystr) : pystr := map lower_char s.

(** The characters whose [str.upper()] is the given upper-case ASCII
    character: the character itself, its lower-case letter, and for [I] and
    [S] the two non-ASCII letters U+0131 (dotless i) and U+017F (long s). *)
Definition upper_is (c m : N) : bool :=
  (c =? m) || (is_upper_ascii m && (c =? m + 32))
  || ((m =? 73) && (c =? 305)) || ((m =? 83) && (c =? 383)).

Definition upper_ascii_char (c : N) : N := if is_lower_ascii c then c - 32 else c.

(** [s.endswith(suffix)] *)
Definition endswith (s suffix : pystr) : bool :=
  str_eqb (skipn (length s - length suffix) s) suffix.

(** [s.startswith(prefix)] *)
Fixpoint startswith (s prefix : pystr) : bool :=
  match prefix, s with
  | [], _ => true
  | p :: prefix', c :: s' => (c =? p) && startswith s' prefix'
  | _ :: _, [] => false
  end.

(** [s[:-1]] *)
Definition drop_last (s : pystr) : pystr := removelast s.

(** [str(i)] for a non-negative integer, as used by the f-strings. *)
Definition str_of_nat (i : nat) : pystr :=
  s2u (NilEmpty.string_of_uint (Nat.to_uint i)).

(** [s.replace(old, new)] for a one-character [old]. *)
Definition replace_char (old new : N) (s : pystr) : pystr :=
  map (fun c => if c =? old then new else c) s.

(** [span p s]: the longest prefix of [s] whose characters satisfy [p], and
    the rest. *)
Fixpoint span (p : N -> bool) (s : pystr) : pystr * pystr :=
  match s with
  | [] => ([], [])
  | c :: t => if p c then let (a, b) := span p t in (c :: a, b) else ([], s)
  end.

(** [str.expandtabs()] with the default tab size of 8: the column restarts
    after a line feed or carriage return. *)
Fixpoint expandtabs_from (col : nat) (s : pystr) : pystr :=
  match s with
  | [] => []
  | c :: t =>
      if c =? 9 then
        let n := (8 - col mod 8)%nat in
        repeat 32 n ++ expandtabs_from (col + n) t
      else if (c =? 10) || (c =? 13) then c :: expandtabs_from 0 t
      else c :: expandtabs_from (S col) t
  end.

Definition expandtabs (s : pystr) : pystr := expandtabs_from 0 s.

(** ** Results and exceptions *)

(** The exceptions the module can raise.  The three [ParseException]s are
    the grammar failure raised by [parse_string], and the two raised by
    [parse] itself; [LookupError] is what [bytes.decode] raises for a codec
    it does not know, [KeyError] what a missing results name raises. *)
Inductive exn :=
| SyntaxError
| MultipleParms (parm_str : pystr)
| InvalidEncoding
| LookupError (encoding : pystr)
| KeyError (name : string).

Definition is_ParseException (e : exn) : bool :=
  match e with
  | SyntaxError | MultipleParms _ | InvalidEncoding => true
  | LookupError _ | KeyError _ => false
  end.

Inductive result (A : Type) :=
| Ok (a : A)
| Raise (e : exn).
Arguments Ok {A} a.
Arguments Raise {A} e.

(** ** The pyparsing combinators used by the grammar *)

Module PP.

(** [ParseResults]: the list of tokens, and the named results in the
    order they were added.  A named result is the list of tokens recorded
    under the name: one token where pyparsing stores a string. *)
Record ParseResults := mkPR {
  toklist : list pystr;
  tokdict : list (string * list pystr)
}.

Definition empty : ParseResults := mkPR [] [].

(** [a += b] *)
Definition add (a b : ParseResults) : ParseResults :=
  mkPR (toklist a ++ toklist b) (tokdict a ++ tokdict b).

(** [name in results] *)
Definition contains (r : ParseResults) (name : string) : bool :=
  existsb (fun kv => String.eqb (fst kv) name) (tokdict r).

(** [results[name]] for a name declared with a trailing star (list all
    matches): every value recorded under the name, in order. *)
Definition get_all (r : ParseResults) (name : string) : list (list pystr) :=
  map snd (filter (fun kv => String.eqb (fst kv) name) (tokdict r)).

(** [results[name]] for a plain name: the value recorded last. *)
Definition get_last (r : ParseResults) (name : string) : option (list pystr) :=
  match rev (get_all r name) with
  | v :: _ => Some v
  | [] => None
  end.

(** A parser consumes a prefix of the remaining input and returns its
    results and the rest of the input, or fails. *)
Definition parser := pystr -> option (ParseResults * pystr).

(** The default whitespace characters: space, line feed, tab, carriage
    return. *)
Definition is_white (c : N) : bool :=
  (c =? 32) || (c =? 10) || (c =? 9) || (c =? 13).

(** [preParse]: skip leading whitespace. *)
Fixpoint skip_white (s : pystr) : pystr :=
  match s with
  | c :: t => if is_white c then skip_white t else s
  | [] => []
  end.

(** An element built outside [Combine] skips whitespace first ([ws] is
    true); inside [Combine] it does not. *)
Definition preParse (ws : bool) (s : pystr) : pystr :=
  if ws then skip_white s else s.

Definition tok (t : pystr) : ParseResults := mkPR [t] [].

Definition Literal (ws : bool) (m : pystr) : parser := fun s =>
  let s := preParse ws s in
  if startswith s m then Some (tok m, skipn (length m) s) else None.

(** [instring[loc:loc+n].upper() == match] for an upper-case ASCII
    [match] of length [n]. *)
Fixpoint caseless_prefix (s m : pystr) : bool :=
  match m, s with
  | [], _ => true
  | p :: m', c :: s' => upper_is c (upper_ascii_char p) && caseless_prefix s' m'
  | _ :: _, [] => false
  end.

(** [CaselessLiteral]: the token is the literal as it was declared. *)
Definition CaselessLiteral (ws : bool) (m : pystr) : parser := fun s =>
  let s := preParse ws s in
  if caseless_prefix s m then Some (tok m, skipn (length m) s) else None.

Definition Empty : parser := fun s => Some (empty, s).

(** [Word(chars)]: one or more characters of [chars]. *)
Definition Word (ws : bool) (chars : pystr) : parser := fun s =>
  let s := preParse ws s in
  match span (char_in chars) s with
  | ([], _) => None
  | (w, rest) => Some (tok w, rest)
  end.

(** [Word(chars, min=1, max=n)] for a set of characters that contains the
    space: at most [n] characters are taken, and the match fails when the
    next character is one of [chars] too. *)
Definition Word_max (ws : bool) (chars : pystr) (n : nat) : parser := fun s =>
  let s := preParse ws s in
  match span (char_in chars) s with
  | ([], _) => None
  | (w, rest) => if (length w <=? n)%nat then Some (tok w, rest) else None
  end.

(** [Word(chars, exact=n)]: exactly [n] characters of [chars]; what
    follows is not looked at. *)
Definition Word_exact (ws : bool) (chars : pystr) (n : nat) : parser := fun s =>
  let s := preParse ws s in
  let w := firstn n s in
  if (length w =? n)%nat && forallb (char_in chars) w
  then Some (tok w, skipn n s) else None.

(** [a + b] *)
Definition And (a b : parser) : parser := fun s =>
  match a s with
  | Some (ra, s1) =>
      match b s1 with
      | Some (rb, s2) => Some (add ra rb, s2)
      | None => None
      end
  | None => None
  end.

(** [a | b] *)
Definition MatchFirst (a b : parser) : parser := fun s =>
  match a s with
  | Some r => Some r
  | None => b s
  end.

(** [Optional(e)]: the whitespace skipped by the element stays skipped
    when [e] does not match. *)
Definition Optional (ws : bool) (e : parser) : parser := fun s =>
  let s := preParse ws s in
  match e s with
  | Some r => Some r
  | None => Some (empty, s)
  end.

(** The repetition loop of [OneOrMore] and [ZeroOrMore]: [e] is matched
    until it fails.  The loop stops when [e] fails or consumes nothing;
    every element repeated by the grammar consumes at least one character,
    so [fuel] above the length of the input is never exhausted. *)
Fixpoint many (fuel : nat) (e : parser) (acc : ParseResults) (s : pystr)
  : ParseResults * pystr :=
  match fuel with
  | O => (acc, s)
  | S fuel' =>
      match e s with
      | Some (r, s') =>
          if (length s' <? length s)%nat then many fuel' e (add acc r) s'
          else (acc, s)
      | None => (acc, s)
      end
  end.

Definition OneOrMore (e : parser) : parser := fun s =>
  match e s with
  | Some (r, s') => Some (many (length s') e r s')
  | None => None
  end.

Definition ZeroOrMore (ws : bool) (e : parser) : parser := fun s =>
  let s := preParse ws s in
  match e s with
  | Some (r, s') => Some (many (length s') e r s')
  | None => Some (empty, s)
  end.

(** [e.set_results_name(name)].  An element that saves its tokens as a
    list ([And], and the repetitions) records all of them under the name;
    any other element records its first token, and records nothing when it
    matched no token. *)
Definition set_results_name (as_list : bool) (name : string) (e : parser)
  : parser := fun s =>
  match e s with
  | Some (r, s') =>
      let entry :=
        if as_list then [(name, toklist r)]
        else match toklist r with
             | t :: _ => [(name, [t])]
             | [] => []
             end in
      Some (mkPR (toklist r) (tokdict r ++ entry), s')
  | None => None
  end.

(** [Combine(e)]: the tokens of [e] are joined into one token, the named
    results are kept.  [Combine] skips whitespace before [e]; [e] itself
    is built with [ws := false]. *)
Definition Combine (e : parser) : parser := fun s =>
  match e (skip_white s) with
  | Some (r, s') => Some (mkPR [concat (toklist r)] (tokdict r), s')
  | None => None
  end.

(** The match of the regular expression [[A]*[B]] at the start of the
    input, as its length: the star is greedy and gives characters back
    until a character of [B] follows. *)
Fixpoint star_then (A B : N -> bool) (s : pystr) : option nat :=
  match s with
  | [] => None
  | c :: t =>
      match (if A c then star_then A B t else None) with
      | Some n => Some (S n)
      | None => if B c then Some 1%nat else None
      end
  end.

(** [Regex] with a pattern of the shape [[A]*[B]]. *)
Definition Regex_star_then (ws : bool) (A B : pystr) : parser := fun s =>
  let s := preParse ws s in
  match star_then (char_in A) (char_in B) s with
  | Some n => Some (tok (firstn n s), skipn n s)
  | None => None
  end.

(** The body of a quoted string, after the opening quote: items are a
    backslash with the character after it (any but a line feed) or one
    character other than the quote, the backslash, a line feed and a
    carriage return; the closing quote ends it.  Returns the raw body and
    what follows the closing quote. *)
Fixpoint quoted_body (s : pystr) : option (pystr * pystr) :=
  match s with
  | [] => None
  | c :: t =>
      if c =? DQUOTE then Some ([], t)
      else if c =? BACKSLASH then
        match t with
        | d :: t' =>
            if d =? 10 then None
            else match quoted_body t' with
                 | Some (b, r) => Some (c :: d :: b, r)
                 | None => None
                 end
        | [] => None
        end
      else if (c =? 10) || (c =? 13) then None
      else match quoted_body t with
           | Some (b, r) => Some (c :: b, r)
           | None => None
           end
  end.

(** Removal of the escape character: a backslash and the character after
    it are replaced by that character. *)
Fixpoint unescape (s : pystr) : pystr :=
  match s with
  | [] => []
  | c :: t =>
      if c =? BACKSLASH then
        match t with
        | d :: t' => if d =? 10 then c :: unescape t else d :: unescape t'
        | [] => [c]
        end
      else c :: unescape t
  end.

(** [ret.replace(esc_quote, quote_char)] for the two-character escaped
    quote. *)
Fixpoint replace_esc_quote (s : pystr) : pystr :=
  match s with
  | [] => []
  | c :: t =>
      match t with
      | d :: t' =>
          if (c =? BACKSLASH) && (d =? DQUOTE)
          then DQUOTE :: replace_esc_quote t'
          else c :: replace_esc_quote t
      | [] => [c]
      end
  end.

(** [QuotedString(quote_char=DQUOTE, esc_quote=BACKSLASH DQUOTE,
    esc_char=BACKSLASH, convert_whitespace_escapes=False)]: the token is
    the body without its quotes, escapes removed. *)
Definition QuotedString (ws : bool) : parser := fun s =>
  match preParse ws s with
  | c :: t =>
      if c =? DQUOTE then
        match quoted_body t with
        | Some (b, r) => Some (tok (replace_esc_quote (unescape b)), r)
        | None => None
        end
      else None
  | [] => None
  end.

(** [e.parse_string(instring, parse_all=True)]: tabs are expanded, [e] is
    matched at the start, and only whitespace may follow. *)
Definition parse_string (e : parser) (instring : pystr) : option ParseResults :=
  match e (expandtabs instring) with
  | Some (r, rest) =>
      match skip_white rest with
      | [] => Some r
      | _ :: _ => None
      end
  | None => None
  end.

Declare Scope pp_scope.
Delimit Scope pp_scope with pp.
Bind Scope pp_scope with parser.
Notation "a +> b" := (And a b) (at level 50, left associativity) : pp_scope.
Notation "a <|> b" := (MatchFirst a b) (at level 60, right associativity) : pp_scope.

End PP.

(** ** Decoding of percent-encoded values *)

Definition hexdigits : pystr := s2u "0123456789ABCDEFabcdef".

(** [int(c, 16)] for a hexadecimal digit. *)
Definition hexval (c : N) : N :=
  if (48 <=? c) && (c <=? 57) then c - 48
  else if (65 <=? c) && (c <=? 70) then c - 55
  else c - 87.

(** [unquote_to_bytes] on an ASCII string: a percent sign followed by two
    hexadecimal digits is the byte they encode, every other character is
    its own byte. *)
Fixpoint unquote_to_bytes (s : pystr) : list N :=
  match s with
  | [] => []
  | c :: t =>
      match t with
      | h :: l :: t' =>
          if (c =? 37) && char_in hexdigits h && char_in hexdigits l
          then (16 * hexval h + hexval l) :: unquote_to_bytes t'
          else c :: unquote_to_bytes t
      | _ => c :: unquote_to_bytes t
      end
  end.

Definition is_cont (b : N) : bool := (128 <=? b) && (b <=? 191).
Definition between (lo b hi : N) : bool := (lo <=? b) && (b <=? hi).

(** [bytes.decode("utf-8", "strict")]: [None] is [UnicodeDecodeError].
    Overlong forms, surrogates and code points above U+10FFFF are invalid. *)
Fixpoint utf8_decode (bs : list N) : option pystr :=
  match bs with
  | [] => Some []
  | b0 :: t0 =>
      if b0 <? 128 then option_map (cons b0) (utf8_decode t0)
      else
        match t0 with
        | [] => None
        | b1 :: t1 =>
            if between 194 b0 223 then
              if is_cont b1
              then option_map (cons ((b0 - 192) * 64 + (b1 - 128))) (utf8_decode t1)
              else None
            else
              match t1 with
              | [] => None
              | b2 :: t2 =>
                  if between 224 b0 239 then
                    if between (if b0 =? 224 then 160 else 128) b1
                               (if b0 =? 237 then 159 else 191)
                       && is_cont b2
                    then option_map
                           (cons ((b0 - 224) * 4096 + (b1 - 128) * 64 + (b2 - 128)))
                           (utf8_decode t2)
                    else None
                  else
                    match t2 with
                    | [] => None
                    | b3 :: t3 =>
                        if between 240 b0 244
                           && between (if b0 =? 240 then 144 else 128) b1
                                      (if b0 =? 244 then 143 else 191)
                           && is_cont b2 && is_cont b3
                        then option_map
                               (cons ((b0 - 240) * 262144 + (b1 - 128) * 4096
                                      + (b2 - 128) * 64 + (b3 - 128)))
                               (utf8_decode t3)
                        else None
                    end
              end
        end
  end.

(** [bytes.decode(encoding, "strict")] for the two codecs of the grammar;
    ISO-8859-1 maps every byte to the code point of the same number. *)
Definition decode (encoding : pystr) (bs : list N) : result pystr :=
  if str_eqb encoding (s2u "utf-8") then
    match utf8_decode bs with
    | Some s => Ok s
    | None => Raise InvalidEncoding
    end
  else if str_eqb encoding (s2u "iso-8859-1") then Ok bs
  else Raise (LookupError encoding).

(** The maximal runs of ASCII and of non-ASCII characters of a string. *)
Fixpoint runs (s : pystr) : list (bool * pystr) :=
  match s with
  | [] => []
  | c :: t =>
      let b := c <=? 127 in
      match runs t with
      | (b', r) :: rs =>
          if Bool.eqb b b' then (b, c :: r) :: rs else (b, [c]) :: (b', r) :: rs
      | [] => [(b, [c])]
      end
  end.

Fixpoint unquote_parts (encoding : pystr) (parts : list (bool * pystr))
  : result pystr :=
  match parts with
  | [] => Ok []
  | (ascii, r) :: rest =>
      match (if ascii then decode encoding (unquote_to_bytes r) else Ok r) with
      | Ok a =>
          match unquote_parts encoding rest with
          | Ok b => Ok (a ++ b)
          | Raise e => Raise e
          end
      | Raise e => Raise e
      end
  end.

(** [urllib.parse.unquote(string, encoding=encoding, errors="strict")]: a
    string without percent sign is returned as it is; otherwise every run of
    ASCII characters is unquoted to bytes and decoded, and the non-ASCII
    characters are kept.  [UnicodeDecodeError] is [Raise InvalidEncoding],
    the exception [parse] turns it into. *)
Definition unquote (s : pystr) (encoding : pystr) : result pystr :=
  if negb (char_in s 37) then Ok s
  else unquote_parts encoding (runs s).

(** ** The grammar *)

Record ContentDisposition := mkCD { name : pystr; value : pystr }.

Definition token_chars : pystr :=
  s2u "!#$%&'*+-.0123456789ABCDEFGHIJKLMNOPQRSTUVWXYZ^_`abcdefghijklmnopqrstuvwxyz|~".
Definition token_chars_without_wildcard : pystr :=
  s2u "!#$%&'+-.0123456789ABCDEFGHIJKLMNOPQRSTUVWXYZ^_`abcdefghijklmnopqrstuvwxyz|~".
Definition alphas : pystr :=
  s2u "ABCDEFGHIJKLMNOPQRSTUVWXYZabcdefghijklmnopqrstuvwxyz".

Module Grammar.
Import PP.
Local Open Scope pp_scope.

Definition token : parser := Word true token_chars.

(** [unencoded_token] is used once on its own and once inside [Combine],
    where it does not skip whitespace. *)
Definition unencoded_token (ws : bool) : parser :=
  Regex_star_then ws token_chars token_chars_without_wildcard.

Definition value : parser := token <|> QuotedString true.

Definition ext_value : parser :=
  Combine
    (set_results_name false "encoding"
       (CaselessLiteral false (s2u "UTF-8")
        <|> CaselessLiteral false (s2u "ISO-8859-1")
        <|> Empty)
     +> Literal false (s2u "'")
     +> set_results_name false "language"
          (Optional false (Word_max false (alphas ++ s2u " ") 3))
     +> Literal false (s2u "'")
     +> set_results_name true "value"
          (OneOrMore
             (Word false
                (s2u "!#$&+-.0123456789ABCDEFGHIJKLMNOPQRSTUVWXYZ^_`abcdefghijklmnopqrstuvwxyz|~")
              <|> (Literal false (s2u "%")
                   +> Word_exact false (s2u "abcdefABCDEF0123456789") 2)))).

Definition disp_ext_parm : parser :=
  (set_results_name true "parm"
     (unencoded_token true +> Literal true (s2u "="))
   +> set_results_name false "value" value)
  <|> (set_results_name true "parm"
         (Combine (unencoded_token false +> Literal false (s2u "*"))
          +> Literal true (s2u "="))
       +> set_results_name false "value" value).

Definition disp_ext_type : parser := token.
Definition disposition_parm : parser := disp_ext_parm.
Definition disposition_type : parser :=
  CaselessLiteral true (s2u "inline")
  <|> CaselessLiteral true (s2u "attachment")
  <|> disp_ext_type.

(** The top-level grammar, named [parser] in the source. *)
Definition header_parser : parser :=
  set_results_name false "type" disposition_type
  +> ZeroOrMore true (Literal true (s2u ";") +> disposition_parm)
  +> Optional true (Literal true (s2u ";")).

End Grammar.

(** [set(bytes(list(range(32)) + list(range(127, 160))).decode("iso-8859-1"))] *)
Definition INVALID_ISO8859_1_CHARACTERS : list N :=
  map N.of_nat (seq 0 32 ++ seq 127 33).

(** ** [parse] *)

(** The loop of [parse] over the pairs of a parameter and its value, with
    the set [seen_parms] and the list [all_content_disposition] built so
    far. *)
Fixpoint parse_parms (pairs : list (list pystr * list pystr))
    (seen_parms : list pystr) (all_content_disposition : list ContentDisposition)
  : result (list ContentDisposition) :=
  match pairs with
  | [] => Ok all_content_disposition
  | (parm, value) :: pairs' =>
      let parm_str := concat parm in
      if str_in parm_str seen_parms then Raise (MultipleParms parm_str)
      else
        let seen_parms := parm_str :: seen_parms in
        let parm_str := lower (drop_last parm_str) in
        let value_str := concat value in
        if endswith parm_str (s2u "*") then
          match PP.parse_string Grammar.ext_value value_str with
          | None => Raise SyntaxError
          | Some parse_result_value =>
              if negb (PP.contains parse_result_value "encoding")
              then parse_parms pairs' seen_parms all_content_disposition
              else
                match PP.get_last parse_result_value "encoding",
                      PP.get_last parse_result_value "value" with
                | Some enc, Some v =>
                    let encoding := lower (concat enc) in
                    match unquote (concat v) encoding with
                    | Raise e => Raise e
                    | Ok value_str =>
                        if str_eqb encoding (s2u "iso-8859-1")
                           && existsb (char_in INVALID_ISO8859_1_CHARACTERS) value_str
                        then Raise InvalidEncoding
                        else parse_parms pairs' seen_parms
                               (all_content_disposition ++ [mkCD parm_str value_str])
                    end
                | None, _ => Raise (KeyError "encoding")
                | _, None => Raise (KeyError "value")
                end
          end
        else parse_parms pairs' seen_parms
               (all_content_disposition ++ [mkCD parm_str value_str])
  end.

Definition parse (header : pystr) : result (pystr * list ContentDisposition) :=
  match PP.parse_string Grammar.header_parser header with
  | None => Raise SyntaxError
  | Some parse_result =>
      match PP.get_last parse_result "type" with
      | None => Raise (KeyError "type")
      | Some ty =>
          let content_disposition_type := lower (concat ty) in
          match parse_parms
                  (combine (PP.get_all parse_result "parm")
                           (PP.get_all parse_result "value")) [] [] with
          | Ok all_content_disposition =>
              Ok (content_disposition_type, all_content_disposition)
          | Raise e => Raise e
          end
      end
  end.


(** ** [secure_filename] and [parse_filename] *)

Definition secure_filename (filename : pystr) : pystr :=
  replace_char 47 95 (replace_char BACKSLASH 95 filename).

(** The truth value of a string: it is not empty. *)
Definition truthy (s : pystr) : bool :=
  match s with
  | [] => false
  | _ :: _ => true
  end.

(** The truth value of [filename], which is [None] or a string. *)
Definition truthy_opt (filename : option pystr) : bool :=
  match filename with
  | Some s => truthy s
  | None => false
  end.

(** The first parameter of the list with the given name: the inner loops
    of the form [for content_disposition in all_content_disposition] stop at
    it. *)
Definition find_name (all_content_disposition : list ContentDisposition)
    (n : pystr) : option ContentDisposition :=
  find (fun content_disposition => str_eqb (name content_disposition) n)
       all_content_disposition.

Definition normal_filename (content_disposition : ContentDisposition) : pystr :=
  value content_disposition.

(** The loop [for i in range(1, 99999)] of [combine_filename], with [n]
    iterations left. *)
Fixpoint combine_loop (all_content_disposition : list ContentDisposition)
    (n i : nat) (filename : pystr) : pystr :=
  match n with
  | O => filename
  | S n' =>
      match find_name all_content_disposition
              (s2u "filename*" ++ str_of_nat i ++ s2u "*") with
      | Some content_disposition =>
          combine_loop all_content_disposition n' (S i)
            (filename ++ value content_disposition)
      | None =>
          match find_name all_content_disposition
                  (s2u "filename*" ++ str_of_nat i) with
          | Some content_disposition =>
              combine_loop all_content_disposition n' (S i)
                (filename ++ value content_disposition)
          | None => filename
          end
      end
  end.

Definition combine_filename (all_content_disposition : list ContentDisposition)
    (content_disposition : ContentDisposition) : pystr :=
  combine_loop all_content_disposition (N.to_nat 99998) 1
    (value content_disposition).

Definition header_handlers (all_content_disposition : list ContentDisposition)
  : list (pystr * (ContentDisposition -> pystr)) :=
  [ (s2u "filename*", normal_filename);
    (s2u "filename", normal_filename);
    (s2u "filename*0*", combine_filename all_content_disposition);
    (s2u "filename*0", combine_filename all_content_disposition) ].

(** The inner loop of the resolution: every parameter named [n] sets
    [filename] to what the handler returns, and the first non-empty one ends
    the loop. *)
Fixpoint scan_parameters (n : pystr) (handler_func : ContentDisposition -> pystr)
    (all_content_disposition : list ContentDisposition) (filename : option pystr)
  : option pystr :=
  match all_content_disposition with
  | [] => filename
  | content_disposition :: rest =>
      if str_eqb (name content_disposition) n then
        let filename := handler_func content_disposition in
        if truthy filename then Some filename
        else scan_parameters n handler_func rest (Some filename)
      else scan_parameters n handler_func rest filename
  end.

(** The outer loop over [header_handlers]. *)
Fixpoint run_handlers (handlers : list (pystr * (ContentDisposition -> pystr)))
    (all_content_disposition : list ContentDisposition) (filename : option pystr)
  : option pystr :=
  match handlers with
  | [] => filename
  | (n, handler_func) :: handlers' =>
      let filename :=
        scan_parameters n handler_func all_content_disposition filename in
      if truthy_opt filename then filename
      else run_handlers handlers' all_content_disposition filename
  end.

Definition allowed_content_dispositions : list pystr :=
  [s2u "attachment"; s2u "inline"].

Definition parse_filename (header : pystr)
    (enforce_content_disposition_type : bool) : result (option pystr) :=
  match parse header with
  | Raise e => Raise e
  | Ok (content_disposition_type, all_content_disposition) =>
      if enforce_content_disposition_type
         && negb (str_in content_disposition_type allowed_content_dispositions)
      then Ok None
      else
        let filename :=
          run_handlers (header_handlers all_content_disposition)
            all_content_disposition None in
        if truthy_opt filename then Ok (option_map secure_filename filename)
        else Ok filename
  end.

(** ** [requests_response_to_filename] *)

(** [s.lstrip(c)] for one character. *)
Fixpoint lstrip_char (c : N) (s : pystr) : pystr :=
  match s with
  | x :: t => if x =? c then lstrip_char c t else s
  | [] => []
  end.

(** [s.split(sep)] for a one-character separator: the pieces between the
    separators, of which there is at least one. *)
Fixpoint split_char (sep : N) (s : pystr) : list pystr :=
  match s with
  | [] => [[]]
  | c :: t =>
      if c =? sep then [] :: split_char sep t
      else match split_char sep t with
           | p :: ps => (c :: p) :: ps
           | [] => [[c]]
           end
  end.

(** What the function reads of a [requests.Response]: the result of
    [response.headers.get("Content-Disposition")], which is [None] or a
    string, and [response.url]. *)
Record Response := mkResponse {
  headers_get_Content_Disposition : option pystr;
  url : pystr
}.

(** What [requests_response_to_filename] raises: the exception of
    [parse_filename], or the [ValueError] that [urlparse] raises for a URL
    it rejects (an unbalanced bracket in the host, as in [http://[]). *)
Inductive response_exn :=
| ParseFilenameError (e : exn)
| ValueError.

Inductive response_result :=
| Returns (filename : pystr)
| Raises (e : response_exn).

Section RequestsResponse.

(** [urlparse(url).path] of [urllib.parse], [None] when [urlparse] raises
    [ValueError], and the text of the UUID that [uuid.uuid4()] draws in
    this call. *)
Variable urlparse_path : pystr -> option pystr.
Variable uuid4 : pystr.

Definition requests_response_to_filename (response : Response)
    (enforce_content_disposition_type : bool) : response_result :=
  let content_disposition := headers_get_Content_Disposition response in
  let parsed :=
    match content_disposition with
    | Some header =>
        if truthy header
        then parse_filename header enforce_content_disposition_type
        else Ok None
    | None => Ok None
    end in
  let unknown (filename : option pystr) :=
    Returns (match filename with
             | Some (c :: f) => c :: f
             | _ => s2u "unknown-" ++ uuid4
             end) in
  match parsed with
  | Raise e => Raises (ParseFilenameError e)
  | Ok filename =>
      if negb (truthy_opt filename) then
        match urlparse_path (url response) with
        | None => Raises ValueError
        | Some path =>
            let url_path := lstrip_char 47 path in
            if truthy url_path then
              let url_path := last (split_char 47 url_path) [] in
              if truthy url_path then unknown (Some (secure_filename url_path))
              else unknown filename
            else unknown filename
        end
      else unknown filename
  end.

End RequestsResponse.

(** * Definitions used by the statements *)

(** What [ext_value] records: the charset when one of the two literals
    matched, the language when there is one, and the tokens of the encoded
    value, of which there is at least one character. *)
Inductive ext_shape (s : pystr) (r : PP.ParseResults) : Prop :=
| ext_shape_intro (enc lang : list (string * list pystr)) (toks : list pystr)
    (shape_dict : PP.tokdict r = enc ++ lang ++ [("value"%string, toks)])
    (shape_enc :
       (enc = [("encoding"%string, [s2u "UTF-8"])]
        /\ PP.caseless_prefix (PP.skip_white s) (s2u "UTF-8") = true)
       \/ (enc = [("encoding"%string, [s2u "ISO-8859-1"])]
           /\ PP.caseless_prefix (PP.skip_white s) (s2u "ISO-8859-1") = true)
       \/ (enc = []
           /\ PP.caseless_prefix (PP.skip_white s) (s2u "UTF-8") = false))
    (shape_lang : lang = [] \/ exists w, lang = [("language"%string, [w])])
    (shape_toks : concat toks <> []).

Definition plain (r : PP.ParseResults) : Prop := PP.tokdict r = [].

Definition starts_nonempty (r : PP.ParseResults) : Prop :=
  exists c w ts, PP.toklist r = (c :: w) :: ts.

(** What one iteration of the loop does with a parameter that was not seen
    before: it raises, skips the parameter ([Ok None]) or appends one
    entry. *)
Definition entry (parm value : list pystr) : result (option ContentDisposition) :=
  let parm_str := lower (drop_last (concat parm)) in
  if endswith parm_str (s2u "*") then
    match PP.parse_string Grammar.ext_value (concat value) with
    | None => Raise SyntaxError
    | Some parse_result_value =>
        if negb (PP.contains parse_result_value "encoding") then Ok None
        else
          match PP.get_last parse_result_value "encoding",
                PP.get_last parse_result_value "value" with
          | Some enc, Some v =>
              match unquote (concat v) (lower (concat enc)) with
              | Raise e => Raise e
              | Ok value_str =>
                  if str_eqb (lower (concat enc)) (s2u "iso-8859-1")
                     && existsb (char_in INVALID_ISO8859_1_CHARACTERS) value_str
                  then Raise InvalidEncoding
                  else Ok (Some (mkCD parm_str value_str))
              end
          | None, _ => Raise (KeyError "encoding")
          | _, None => Raise (KeyError "value")
          end
    end
  else Ok (Some (mkCD parm_str (concat value))).

(** The entries the loop appends for a list of pairs. *)
Definition contributions (pairs : list (list pystr * list pystr))
  : list ContentDisposition :=
  flat_map (fun pv => match entry (fst pv) (snd pv) with
                      | Ok (Some cd) => [cd]
                      | _ => []
                      end) pairs.

Definition euro_rates : pystr := 8364 :: s2u " rates.txt".

(** The names the resolution of the filename looks for first. *)
Definition filename_names : list pystr :=
  [s2u "filename*"; s2u "filename"; s2u "filename*0*"; s2u "filename*0"].

(** The first parameter named [n] for which the handler returns a
    non-empty string. *)
Definition first_nonempty (n : pystr) (handler_func : ContentDisposition -> pystr)
    (l : list ContentDisposition) : option ContentDisposition :=
  find (fun cd => str_eqb (name cd) n && truthy (handler_func cd)) l.

(** What the loops of [parse_filename] leave in [filename]. *)
Definition resolved (l : list ContentDisposition) : option pystr :=
  run_handlers (header_handlers l) l None.

(** The value of the segment with index [i]: the parameter [filename*i*]
    when there is one, the parameter [filename*i] otherwise. *)
Definition segment (l : list ContentDisposition) (i : nat) : option pystr :=
  match find_name l (s2u "filename*" ++ str_of_nat i ++ s2u "*") with
  | Some cd => Some (value cd)
  | None => option_map value (find_name l (s2u "filename*" ++ str_of_nat i))
  end.

Definition allwhite (w : pystr) : Prop := forallb PP.is_white w = true.

(** Two results of a parser, on an input and on the input followed by the
    whitespace [w]: the same tokens, and what is left is the same up to
    the whitespace. *)
Definition rel_w (w : pystr) (x y : option (PP.ParseResults * pystr)) : Prop :=
  match x with
  | Some (r, rest) =>
      exists rest', y = Some (r, rest')
                    /\ PP.skip_white rest' = PP.skip_white (rest ++ w)
  | None => y = None
  end.

(** A parser whose result does not change, up to [rel_w], when whitespace
    is appended to the input. *)
Definition stable (p : PP.parser) : Prop :=
  forall s w, allwhite w -> rel_w w (p s) (p (s ++ w)).

(** A parser that skips leading whitespace. *)
Definition skips (p : PP.parser) : Prop :=
  forall s, p s = p (PP.skip_white s).

(** A parser that does not skip whitespace and leaves appended whitespace
    where it is. *)
Definition exact (c : PP.parser) : Prop :=
  forall s w, allwhite w ->
    c (s ++ w) = match c s with
                 | Some (r, rest) => Some (r, rest ++ w)
                 | None => None
                 end.

Definition noninc (p : PP.parser) : Prop :=
  forall s r rest, p s = Some (r, rest) -> (length rest <= length s)%nat.

Definition shrinks (p : PP.parser) : Prop :=
  forall s r rest, p s = Some (r, rest) -> (length rest < length s)%nat.

(** No whitespace character is one of [chars]. *)
Definition white_free (chars : pystr) : Prop :=
  forall x, PP.is_white x = true -> char_in chars x = false.

(** A non-empty string of token characters. *)
Definition is_token (s : pystr) : Prop :=
  s <> [] /\ forallb (char_in token_chars) s = true.

(** The named results of a header with the disposition type [t] and the
    parameters [pvs], each a name and a value, in the order the grammar
    records them. *)
Definition header_dict (t : pystr) (pvs : list (pystr * pystr))
  : list (string * list pystr) :=
  ("type"%string, [t])
  :: flat_map (fun nv => [("parm"%string, [fst nv; s2u "="]);
                          ("value"%string, [snd nv])]) pvs.

(** The named results of one parameter. *)
Definition parm_shape (r : PP.ParseResults) : Prop :=
  exists n v, PP.tokdict r = [("parm"%string, [n; s2u "="]); ("value"%string, [v])]
              /\ is_token n.

(** The response gives no filename through its header: there is no
    header, or it is empty, or [parse_filename] finds no filename in it. *)
Definition no_header_filename (response : Response) (enforce : bool) : Prop :=
  match headers_get_Content_Disposition response with
  | None => True
  | Some header =>
      header = [] \/ parse_filename header enforce = Ok None
      \/ parse_filename header enforce = Ok (Some [])
  end.

(** The upper-case hexadecimal digit of a number below 16. *)
Definition hexdigit (n : N) : N := nth (N.to_nat n) (s2u "0123456789ABCDEF") 48.

(** The percent-encoding of a list of bytes: every byte as a percent sign
    and its two hexadecimal digits. *)
Definition pct_encode (bs : list N) : pystr :=
  flat_map (fun b => [37; hexdigit (b / 16); hexdigit (b mod 16)]) bs.

(** The tokens [ext_value] makes of a percent-encoded value. *)
Definition pct_tokens (bs : list N) : list pystr :=
  flat_map (fun b => [[37]; [hexdigit (b / 16); hexdigit (b mod 16)]]) bs.

(** A character that a quoted string holds as it is: any but the quote,
    the backslash, line feed, carriage return and tab. *)
Definition quotable (c : N) : bool :=
  negb (char_in [DQUOTE; BACKSLASH; 10; 13; 9] c).

(** The UTF-8 encoding of a code point, and of a string. *)
Definition utf8_encode_char (c : N) : list N :=
  if c <? 128 then [c]
  else if c <? 2048 then [192 + c / 64; 128 + c mod 64]
  else if c <? 65536 then
    [224 + c / 4096; 128 + (c / 64) mod 64; 128 + c mod 64]
  else
    [240 + c / 262144; 128 + (c / 4096) mod 64; 128 + (c / 64) mod 64;
     128 + c mod 64].

Definition utf8_encode (s : pystr) : list N := flat_map utf8_encode_char s.

(** A Unicode scalar value: a code point up to U+10FFFF that is not a
    surrogate. *)
Definition scalar_value (c : N) : Prop :=
  c < 55296 \/ (57343 < c /\ c <= 1114111).

(** A string with every double quote escaped by a backslash. *)
Definition escape_quotes (s : pystr) : pystr :=
  flat_map (fun c => if c =? DQUOTE then [BACKSLASH; DQUOTE] else [c]) s.

(** ** The tokens of a header and the whitespace between them *)

(** The characters that end a token of the header: whitespace, the
    semicolon and the equals sign. *)
Definition is_sep (c : N) : bool := PP.is_white c || (c =? 59) || (c =? 61).

(** A string that is empty or starts with one of them. *)
Definition sep_start (s : pystr) : Prop :=
  match s with
  | [] => True
  | c :: _ => is_sep c = true
  end.

(** The tokens of the parameters, each a name and the text of a value:
    the semicolon, the name, the equals sign and the value. *)
Definition parm_tokens (ps : list (pystr * pystr)) : list pystr :=
  flat_map (fun nV => [s2u ";"; fst nV; s2u "="; snd nV]) ps.

(** The tokens of a header: the disposition type, the parameters, and the
    final semicolon when there is one. *)
Definition header_tokens (t : pystr) (ps : list (pystr * pystr)) (final : bool)
  : list pystr :=
  t :: parm_tokens ps ++ (if final then [s2u ";"] else []).

(** The tokens [toks], numbered from [i], with the string [gap j] before
    the token of number [j], and [tail] after the last token. *)
Fixpoint spaced (gap : nat -> pystr) (i : nat) (toks : list pystr)
    (tail : pystr) : pystr :=
  match toks with
  | [] => tail
  | tk :: toks' => gap i ++ tk ++ spaced gap (S i) toks' tail
  end.

(** A parameter name: token characters of which the last is not the
    star, with or without one star after them. *)
Definition is_name (n : pystr) : Prop :=
  exists b c,
    forallb (char_in token_chars) b = true
    /\ char_in token_chars_without_wildcard c = true
    /\ (n = b ++ [c] \/ n = b ++ [c; 42]).

(** A text without tab that the grammar reads to its end as a disposition
    type. *)
Definition type_text (t : pystr) : Prop :=
  char_in t 9 = false
  /\ exists t', Grammar.disposition_type t = Some (PP.tok t', []).

(** A text without tab that the grammar reads to its end as a value: a
    token or a quoted string. *)
Definition value_text (V : pystr) : Prop :=
  char_in V 9 = false
  /\ exists v, Grammar.value V = Some (PP.tok v, []).

(** What is left of a text after the final semicolon, when it starts with
    one. *)
Definition after_semicolon (X : pystr) : pystr :=
  match PP.Literal true (s2u ";") X with
  | Some (_, s) => s
  | None => X
  end.

(** * Properties *)

(** ** Strings *)

Lemma str_eqb_refl (a : pystr) : str_eqb a a = true.
Proof.
  induction a as [|x a IH]; simpl; [reflexivity|].
  now rewrite N.eqb_refl, IH.
Qed.

Lemma str_eqb_eq (a b : pystr) : str_eqb a b = true <-> a = b.
Proof.
  split; [|intros ->; apply str_eqb_refl].
  revert b; induction a as [|x a IH]; intros [|y b]; simpl; try discriminate; auto.
  intros H; apply andb_true_iff in H as [H1 H2].
  apply N.eqb_eq in H1; subst; f_equal; auto.
Qed.

Lemma str_in_In (s : pystr) (l : list pystr) : str_in s l = true <-> In s l.
Proof.
  unfold str_in; rewrite existsb_exists; split.
  - intros (x & Hx & E); apply str_eqb_eq in E; now subst.
  - intros H; exists s; split; [assumption|apply str_eqb_refl].
Qed.

Lemma str_in_cons (s x : pystr) (l : list pystr) :
  str_in s l = true -> str_in s (x :: l) = true.
Proof. unfold str_in; simpl; intros ->; apply orb_true_r. Qed.

Lemma truthy_nonempty (s : pystr) : truthy s = true <-> s <> [].
Proof. destruct s; simpl; split; congruence. Qed.

(** ** Whitespace *)

Lemma skip_white_app (w s : pystr) :
  forallb PP.is_white w = true -> PP.skip_white (w ++ s) = PP.skip_white s.
Proof.
  induction w as [|c w IH]; simpl; [reflexivity|].
  intros H; apply andb_true_iff in H as [Hc Hw]; rewrite Hc; auto.
Qed.

Lemma skip_white_idem (s : pystr) :
  PP.skip_white (PP.skip_white s) = PP.skip_white s.
Proof.
  induction s as [|c s IH]; simpl; [reflexivity|].
  destruct (PP.is_white c) eqn:E; [assumption|]; simpl; now rewrite E.
Qed.

Lemma skip_white_nonwhite (c : N) (s : pystr) :
  PP.is_white c = false -> PP.skip_white (c :: s) = c :: s.
Proof. simpl; now intros ->. Qed.

(** ** Inversion of the combinators *)

Section Inversion.
Import PP.
Variables a b : parser.

Lemma And_inv s r s' :
  And a b s = Some (r, s') ->
  exists ra s1 rb, a s = Some (ra, s1) /\ b s1 = Some (rb, s') /\ r = add ra rb.
Proof.
  unfold And; destruct (a s) as [[ra s1]|]; [|discriminate].
  destruct (b s1) as [[rb s2]|] eqn:Eb; [|discriminate].
  intros H; inversion H; subst; eauto 6.
Qed.

Lemma MatchFirst_inv s x :
  MatchFirst a b s = Some x -> a s = Some x \/ (a s = None /\ b s = Some x).
Proof. unfold MatchFirst; destruct (a s); intros H; [left|right]; auto. Qed.

Lemma set_results_name_inv as_list n s r s' :
  set_results_name as_list n a s = Some (r, s') ->
  exists r0, a s = Some (r0, s') /\ toklist r = toklist r0 /\
    tokdict r = tokdict r0 ++
      (if as_list then [(n, toklist r0)]
       else match toklist r0 with t :: _ => [(n, [t])] | [] => [] end).
Proof.
  unfold set_results_name; destruct (a s) as [[r0 s0]|]; [|discriminate].
  intros H; inversion H; subst; simpl; eauto.
Qed.

Lemma Combine_inv s r s' :
  Combine a s = Some (r, s') ->
  exists r0, a (skip_white s) = Some (r0, s') /\
    toklist r = [concat (toklist r0)] /\ tokdict r = tokdict r0.
Proof.
  unfold Combine; destruct (a (skip_white s)) as [[r0 s0]|]; [|discriminate].
  intros H; inversion H; subst; simpl; eauto.
Qed.

Lemma Optional_inv ws s r s' :
  Optional ws a s = Some (r, s') ->
  a (preParse ws s) = Some (r, s') \/
  (a (preParse ws s) = None /\ r = empty /\ s' = preParse ws s).
Proof.
  unfold Optional; destruct (a (preParse ws s)) as [x|]; intros H.
  - left; congruence.
  - right; inversion H; auto.
Qed.

End Inversion.

Lemma Literal_inv ws m s r s' :
  PP.Literal ws m s = Some (r, s') -> r = PP.tok m.
Proof.
  unfold PP.Literal; destruct (startswith _ _); [|discriminate].
  intros H; now inversion H.
Qed.

Lemma CaselessLiteral_inv ws m s r s' :
  PP.CaselessLiteral ws m s = Some (r, s') ->
  r = PP.tok m /\ PP.caseless_prefix (PP.preParse ws s) m = true.
Proof.
  unfold PP.CaselessLiteral; destruct (PP.caseless_prefix _ _); [|discriminate].
  intros H; now inversion H.
Qed.

Lemma Word_inv ws chars s r s' :
  PP.Word ws chars s = Some (r, s') -> exists c w, r = PP.tok (c :: w).
Proof.
  unfold PP.Word; destruct (span _ _) as [[|c w] rest]; [discriminate|].
  intros H; inversion H; eauto.
Qed.

Lemma Word_max_inv ws chars n s r s' :
  PP.Word_max ws chars n s = Some (r, s') -> exists c w, r = PP.tok (c :: w).
Proof.
  unfold PP.Word_max; destruct (span _ _) as [[|c w] rest]; [discriminate|].
  destruct (_ <=? _)%nat; [|discriminate].
  intros H; inversion H; eauto.
Qed.

Lemma Word_exact_inv ws chars n s r s' :
  PP.Word_exact ws chars n s = Some (r, s') -> exists w, r = PP.tok w.
Proof.
  unfold PP.Word_exact; destruct (_ && _); [|discriminate].
  intros H; inversion H; eauto.
Qed.

(** The repetition loop keeps what it has accumulated and only adds the
    results of its element. *)
Lemma many_keeps (P : PP.ParseResults -> Prop) (e : PP.parser) :
  (forall s r s', e s = Some (r, s') -> P r) ->
  forall fuel acc s,
    exists rs, Forall P rs /\
      fst (PP.many fuel e acc s) = fold_left PP.add rs acc.
Proof.
  intros He; induction fuel as [|fuel IH]; intros acc s; simpl.
  - exists []; split; [constructor|reflexivity].
  - destruct (e s) as [[r s']|] eqn:E.
    + destruct (_ <? _)%nat.
      * destruct (IH (PP.add acc r) s') as (rs & HF & Hrs).
        exists (r :: rs); split; [constructor; eauto|exact Hrs].
      * exists []; split; [constructor|reflexivity].
    + exists []; split; [constructor|reflexivity].
Qed.

(** More fuel than the length of the input changes nothing: the loop ends
    by a failure of its element, never by lack of fuel. *)
Lemma many_fuel (e : PP.parser) (fuel : nat) (acc : PP.ParseResults) (s : pystr) :
  (length s <= fuel)%nat -> PP.many fuel e acc s = PP.many (length s) e acc s.
Proof.
  revert fuel acc; induction s as [s IH] using (induction_ltof1 _ (@length N)).
  unfold ltof in IH; intros fuel acc Hle.
  destruct fuel as [|fuel]; destruct s as [|c s]; simpl in *; try lia; try reflexivity.
  - destruct (e []) as [[r s']|]; [|reflexivity].
    destruct (Nat.ltb_spec (length s') 0); [lia|reflexivity].
  - destruct (e (c :: s)) as [[r s']|]; [|reflexivity].
    destruct (Nat.ltb_spec (length s') (S (length s))); [|reflexivity].
    rewrite (IH s') by (simpl; lia).
    symmetry; apply IH; simpl; lia.
Qed.

(** ** The shape of a parsed extended value *)

Lemma fold_add_plain rs : Forall plain rs ->
  forall acc, PP.tokdict (fold_left PP.add rs acc) = PP.tokdict acc.
Proof.
  induction 1 as [|r rs Hr _ IH]; intros acc; simpl; [reflexivity|].
  rewrite IH; simpl; rewrite Hr; apply app_nil_r.
Qed.

Lemma fold_add_toklist rs :
  forall acc, exists ts, PP.toklist (fold_left PP.add rs acc) = PP.toklist acc ++ ts.
Proof.
  induction rs as [|r rs IH]; intros acc; simpl.
  - exists []; now rewrite app_nil_r.
  - destruct (IH (PP.add acc r)) as (ts & ->); simpl.
    exists (PP.toklist r ++ ts); now rewrite app_assoc.
Qed.

Lemma ext_value_shape (s : pystr) (r : PP.ParseResults) (rest : pystr) :
  Grammar.ext_value s = Some (r, rest) -> ext_shape s r.
Proof.
  unfold Grammar.ext_value; intros H.
  apply Combine_inv in H as (r0 & H & _ & Hd).
  apply And_inv in H as (r1 & s1 & rv & H & Hv & ->).
  apply And_inv in H as (r2 & s2 & rq2 & H & Hq2 & ->).
  apply And_inv in H as (r3 & s3 & rl & H & Hl & ->).
  apply And_inv in H as (re & s4 & rq1 & He & Hq1 & ->).
  apply Literal_inv in Hq1, Hq2; subst rq1 rq2.
  (* the value *)
  apply set_results_name_inv in Hv as (v0 & Hv & _ & Hvd).
  unfold PP.OneOrMore in Hv.
  match type of Hv with
  | match ?e ?x with _ => _ end = _ =>
      set (elt := e) in *; destruct (elt x) as [[rf sf]|] eqn:Ef; [|discriminate]
  end.
  assert (Helt : forall x y z, elt x = Some (y, z) -> plain y /\ starts_nonempty y).
  { intros x y z E; apply MatchFirst_inv in E as [E|[_ E]].
    - apply Word_inv in E as (c & w & ->); split; [reflexivity|].
      now exists c, w, [].
    - apply And_inv in E as (ra & sa & rb & Ea & Eb & ->).
      apply Literal_inv in Ea; apply Word_exact_inv in Eb as (w & ->); subst ra.
      split; [reflexivity|]. now exists 37, [], [w]. }
  destruct (many_keeps plain elt (fun x y z E => proj1 (Helt x y z E))
              (length sf) rf sf) as (rs & Hrs & Hfold).
  assert (v0 = fold_left PP.add rs rf)
    by (inversion Hv as [Hm]; rewrite Hm in Hfold; exact Hfold).
  subst v0; clear Hv Hfold.
  destruct (Helt _ _ _ Ef) as [Hpf (c & w & ts & Htf)].
  rewrite (fold_add_plain rs Hrs), Hpf in Hvd; simpl in Hvd.
  destruct (fold_add_toklist rs rf) as (ts' & Hts); rewrite Hts, Htf in Hvd.
  (* the language *)
  apply set_results_name_inv in Hl as (l0 & Hl & _ & Hld).
  apply Optional_inv in Hl as [Hl|(_ & -> & _)].
  2: simpl in Hld.
  1: apply Word_max_inv in Hl as (lc & lw & ->); simpl in Hld.
  (* the charset *)
  all: apply set_results_name_inv in He as (e0 & He & _ & Hed).
  all: apply MatchFirst_inv in He as [He|[Hn1 He]];
    [apply CaselessLiteral_inv in He as [-> Hc1]
    |apply MatchFirst_inv in He as [He|[Hn2 He]];
     [apply CaselessLiteral_inv in He as [-> Hc2]
     |inversion He; subst e0; clear He]].
  all: simpl in Hed; simpl PP.tokdict in Hd; rewrite Hed, Hld, Hvd in Hd.
  all: unfold PP.CaselessLiteral, PP.preParse in *.
  all: try (destruct (PP.caseless_prefix (PP.skip_white s) (s2u "UTF-8")) eqn:U;
            [discriminate|]).
  all: rewrite ?app_nil_r in Hd; simpl in Hd.
  all: match type of Hd with
       | _ = [?e; ?l; (_, ?t)] => apply (ext_shape_intro s r [e] [l] t Hd)
       | _ = [("encoding"%string, ?x); (_, ?t)] =>
           apply (ext_shape_intro s r [("encoding"%string, x)] [] t Hd)
       | _ = [("language"%string, ?x); (_, ?t)] =>
           apply (ext_shape_intro s r [] [("language"%string, x)] t Hd)
       | _ = [(_, ?t)] => apply (ext_shape_intro s r [] [] t Hd)
       end.
  all: eauto 8; try discriminate.
Qed.

Lemma parse_string_inv (e : PP.parser) (s : pystr) (r : PP.ParseResults) :
  PP.parse_string e s = Some r ->
  exists rest, e (expandtabs s) = Some (r, rest) /\ PP.skip_white rest = [].
Proof.
  unfold PP.parse_string; destruct (e (expandtabs s)) as [[r0 rest]|]; [|discriminate].
  destruct (PP.skip_white rest) eqn:E; [|discriminate].
  intros H; inversion H; subst; eauto.
Qed.

(** A parsed extended value that names its charset names one of the two
    literals, and its encoded value is not empty. *)
Lemma ext_shape_encoding (s : pystr) (r : PP.ParseResults) :
  ext_shape s r -> PP.contains r "encoding" = true ->
  exists lit toks,
    (lit = s2u "UTF-8" \/ lit = s2u "ISO-8859-1") /\
    PP.get_last r "encoding" = Some [lit] /\
    PP.get_last r "value" = Some toks /\ concat toks <> [].
Proof.
  intros [enc lang toks Hd He Hl Ht] Hc.
  unfold PP.contains, PP.get_last, PP.get_all in *; rewrite Hd in *; clear Hd.
  destruct He as [[-> _]|[[-> _]|[-> _]]], Hl as [->|(w & ->)];
    simpl in *; try discriminate; eauto 8.
Qed.

(** With neither charset literal at its start, a parsed extended value has
    no charset. *)
Lemma ext_shape_no_encoding (s : pystr) (r : PP.ParseResults) :
  ext_shape s r ->
  PP.caseless_prefix (PP.skip_white s) (s2u "UTF-8") = false ->
  PP.caseless_prefix (PP.skip_white s) (s2u "ISO-8859-1") = false ->
  PP.contains r "encoding" = false.
Proof.
  intros [enc lang toks Hd He Hl Ht] H1 H2.
  unfold PP.contains; rewrite Hd; clear Hd.
  destruct He as [[_ E]|[[_ E]|[-> _]]]; try congruence.
  destruct Hl as [->|(w & ->)]; reflexivity.
Qed.

(** ** Decoding never yields an empty string from a non-empty one *)

Lemma unquote_to_bytes_nonempty (s : pystr) : s <> [] -> unquote_to_bytes s <> [].
Proof.
  destruct s as [|c [|h [|l t]]]; simpl; try congruence.
  destruct (_ && _); discriminate.
Qed.

Lemma utf8_decode_nonempty (bs : list N) (s : pystr) :
  utf8_decode bs = Some s -> bs <> [] -> s <> [].
Proof.
  destruct bs as [|b0 t0]; [congruence|]; intros H _; simpl in H.
  repeat match type of H with
         | (if ?c then _ else _) = _ => destruct c
         | match ?t with [] => _ | _ :: _ => _ end = _ => destruct t
         | option_map _ ?o = _ => destruct o; simpl in H
         | None = Some _ => discriminate H
         | Some _ = Some _ => inversion H; discriminate
         end.
Qed.

Lemma decode_nonempty (encoding : pystr) (bs : list N) (s : pystr) :
  decode encoding bs = Ok s -> bs <> [] -> s <> [].
Proof.
  unfold decode; destruct (str_eqb encoding (s2u "utf-8")).
  - destruct (utf8_decode bs) eqn:E; [|discriminate].
    intros H; inversion H; subst; eapply utf8_decode_nonempty; eauto.
  - destruct (str_eqb encoding (s2u "iso-8859-1")); [|discriminate].
    intros H; inversion H; subst; auto.
Qed.

Lemma runs_head (c : N) (t : pystr) :
  exists b r rs, runs (c :: t) = (b, c :: r) :: rs.
Proof.
  simpl; destruct (runs t) as [|[b' r] rs]; [eauto|].
  destruct (Bool.eqb _ _); eauto.
Qed.

Lemma unquote_nonempty (s encoding v : pystr) :
  unquote s encoding = Ok v -> s <> [] -> v <> [].
Proof.
  unfold unquote; destruct (negb (char_in s 37)).
  - intros H; inversion H; subst; auto.
  - destruct s as [|c t]; [congruence|]; intros H _.
    destruct (runs_head c t) as (b & r & rs & E); rewrite E in H; cbn [unquote_parts] in H.
    destruct b.
    + destruct (decode _ _) as [a|] eqn:D; [|discriminate].
      apply decode_nonempty in D; [|apply unquote_to_bytes_nonempty; discriminate].
      destruct (unquote_parts _ _); [|discriminate].
      inversion H; subst; destruct a; [congruence|discriminate].
    + destruct (unquote_parts _ _); [|discriminate].
      inversion H; discriminate.
Qed.

(** [unquote] raises for an unknown codec or an invalid byte sequence, and
    knows the two codecs of the grammar. *)
Lemma unquote_raises (s encoding : pystr) (e : exn) :
  unquote s encoding = Raise e ->
  encoding = s2u "utf-8" \/ encoding = s2u "iso-8859-1" ->
  e = InvalidEncoding.
Proof.
  unfold unquote; destruct (negb _); [discriminate|].
  intros H Henc; revert H; generalize (runs s); intros parts.
  induction parts as [|[b r] parts IH]; cbn [unquote_parts]; [discriminate|].
  destruct b.
  - unfold decode at 1.
    destruct Henc as [-> | ->]; cbn [str_eqb s2u map list_ascii_of_string
      N_of_ascii N_of_digits N.eqb Pos.eqb andb N.add N.mul Pos.add Pos.mul].
    + destruct (utf8_decode _).
      * destruct (unquote_parts _ _); [discriminate|]. intros H; inversion H; subst; auto.
      * intros H; now inversion H.
    + destruct (unquote_parts _ _); [discriminate|]. intros H; inversion H; subst; auto.
  - destruct (unquote_parts _ _); [discriminate|]. intros H; inversion H; subst; auto.
Qed.

(** ** The loop of [parse] *)

Lemma parse_parms_cons parm value pairs seen acc :
  parse_parms ((parm, value) :: pairs) seen acc =
  if str_in (concat parm) seen then Raise (MultipleParms (concat parm))
  else match entry parm value with
       | Raise e => Raise e
       | Ok None => parse_parms pairs (concat parm :: seen) acc
       | Ok (Some cd) => parse_parms pairs (concat parm :: seen) (acc ++ [cd])
       end.
Proof.
  cbn [parse_parms]; unfold entry.
  destruct (str_in _ _); [reflexivity|].
  destruct (endswith _ _); [|reflexivity].
  destruct (PP.parse_string _ _) as [r|]; [|reflexivity].
  destruct (negb _); [reflexivity|].
  destruct (PP.get_last r "encoding"); [|reflexivity].
  destruct (PP.get_last r "value"); [|reflexivity].
  destruct (unquote _ _); [|reflexivity].
  destruct (_ && _); reflexivity.
Qed.

Lemma contributions_app a b :
  contributions (a ++ b) = contributions a ++ contributions b.
Proof. apply flat_map_app. Qed.

Lemma parse_parms_contributions pairs :
  forall seen acc l,
    parse_parms pairs seen acc = Ok l -> l = acc ++ contributions pairs.
Proof.
  induction pairs as [|[parm v] pairs IH]; intros seen acc l.
  - simpl; intros H; inversion H; now rewrite app_nil_r.
  - rewrite parse_parms_cons; unfold contributions; cbn [flat_map fst snd].
    destruct (str_in _ _); [discriminate|].
    destruct (entry parm v) as [[cd|]|]; [| |discriminate]; intros H;
      apply IH in H; subst; [now rewrite <- app_assoc|reflexivity].
Qed.

(** A parameter spelled like one that was seen makes the loop raise. *)
Lemma parse_parms_seen pairs :
  forall seen acc parm v l,
    In (parm, v) pairs -> str_in (concat parm) seen = true ->
    parse_parms pairs seen acc <> Ok l.
Proof.
  induction pairs as [|[parm0 v0] pairs IH]; intros seen acc parm v l Hin Hseen;
    [destruct Hin|].
  rewrite parse_parms_cons.
  destruct Hin as [E|Hin].
  - inversion E; subst; rewrite Hseen; discriminate.
  - destruct (str_in (concat parm0) seen); [discriminate|].
    destruct (entry parm0 v0) as [[cd|]|]; [| |discriminate];
      eapply IH; eauto using str_in_cons.
Qed.

Lemma entry_raises parm v e :
  entry parm v = Raise e -> is_ParseException e = true.
Proof.
  unfold entry; destruct (endswith _ _); [|discriminate].
  destruct (PP.parse_string _ _) as [r|] eqn:P; [|intros H; now inversion H].
  apply parse_string_inv in P as (rest & P & _); apply ext_value_shape in P.
  destruct (PP.contains r "encoding") eqn:C; [|discriminate]; cbn [negb].
  destruct (ext_shape_encoding _ _ P C) as (lit & toks & Hlit & -> & -> & _).
  destruct (unquote _ _) eqn:U.
  - destruct (_ && _); [|discriminate]. intros H; now inversion H.
  - intros H; inversion H; subst.
    erewrite (unquote_raises _ _ _ U); [reflexivity|].
    destruct Hlit as [-> | ->]; [left|right]; reflexivity.
Qed.

(** The loop of [parse] raises [ParseException] only. *)
Lemma parse_parms_raises pairs :
  forall seen acc e,
    parse_parms pairs seen acc = Raise e -> is_ParseException e = true.
Proof.
  induction pairs as [|[parm v] pairs IH]; intros seen acc e; [discriminate|].
  rewrite parse_parms_cons.
  destruct (str_in _ _); [intros H; now inversion H|].
  destruct (entry parm v) as [[cd|]|] eqn:E; eauto.
  intros H; inversion H; subst; eauto using entry_raises.
Qed.

Lemma entry_name parm v cd :
  entry parm v = Ok (Some cd) -> name cd = lower (drop_last (concat parm)).
Proof.
  unfold entry; destruct (endswith _ _).
  - destruct (PP.parse_string _ _) as [r|]; [|discriminate].
    destruct (negb _); [discriminate|].
    destruct (PP.get_last r "encoding"); [|discriminate].
    destruct (PP.get_last r "value"); [|discriminate].
    destruct (unquote _ _); [|discriminate].
    destruct (_ && _); [discriminate|].
    intros H; now inversion H.
  - intros H; now inversion H.
Qed.

(** The value of an extended parameter is never empty. *)
Lemma entry_ext_nonempty parm v cd :
  entry parm v = Ok (Some cd) ->
  endswith (name cd) (s2u "*") = true -> value cd <> [].
Proof.
  intros E; rewrite (entry_name _ _ _ E); revert E.
  unfold entry; intros E Hext; rewrite Hext in E.
  destruct (PP.parse_string _ _) as [r|] eqn:P; [|discriminate].
  apply parse_string_inv in P as (rest & P & _); apply ext_value_shape in P.
  destruct (PP.contains r "encoding") eqn:C; [|discriminate]; cbn [negb] in E.
  destruct (ext_shape_encoding _ _ P C) as (lit & toks & Hlit & E1 & E2 & Hne).
  rewrite E1, E2 in E.
  destruct (unquote _ _) as [s|] eqn:U; [|discriminate].
  destruct (_ && _); [discriminate|].
  inversion E; subst; simpl; eapply unquote_nonempty; eauto.
Qed.

Lemma contributions_ext_nonempty pairs cd :
  In cd (contributions pairs) ->
  endswith (name cd) (s2u "*") = true -> value cd <> [].
Proof.
  unfold contributions; rewrite in_flat_map; intros ([parm v] & _ & Hin).
  cbn [fst snd] in Hin.
  destruct (entry parm v) as [[cd'|]|] eqn:E; try destruct Hin as [<-|[]]; try easy.
  eauto using entry_ext_nonempty.
Qed.

(** [parse] raises [ParseException] only. *)
Lemma parse_raises header e :
  parse header = Raise e -> is_ParseException e = true.
Proof.
  unfold parse; destruct (PP.parse_string _ _) as [r|] eqn:P;
    [|intros H; now inversion H].
  destruct (PP.get_last r "type") eqn:T.
  - destruct (parse_parms _ _ _) eqn:L; [discriminate|].
    intros H; inversion H; subst; eauto using parse_parms_raises.
  - exfalso.
    apply parse_string_inv in P as (rest & P & _).
    unfold Grammar.header_parser in P.
    apply And_inv in P as (r1 & s1 & r2 & P & _ & ->).
    apply And_inv in P as (r3 & s3 & r4 & P & _ & ->).
    apply set_results_name_inv in P as (r0 & P & _ & Hd).
    assert (exists t, PP.toklist r0 = [t]) as (t & Ht).
    { apply MatchFirst_inv in P as [P|[_ P]];
        [apply CaselessLiteral_inv in P as [-> _]; eexists; reflexivity|].
      apply MatchFirst_inv in P as [P|[_ P]];
        [apply CaselessLiteral_inv in P as [-> _]; eexists; reflexivity|].
      apply Word_inv in P as (c & w & ->); eexists; reflexivity. }
    rewrite Ht in Hd.
    unfold PP.get_last, PP.get_all in T; simpl in T; rewrite Hd in T.
    rewrite !filter_app, !map_app, !rev_app_distr in T; simpl in T.
    repeat match type of T with
           | context [rev ?l ++ _] => destruct (rev l); simpl in T
           end; discriminate.
Qed.

Lemma get_last_contains (r : PP.ParseResults) (n : string) (x : list pystr) :
  PP.get_last r n = Some x -> PP.contains r n = true.
Proof.
  unfold PP.get_last, PP.get_all, PP.contains.
  induction (PP.tokdict r) as [|[k v] d IH]; simpl; [discriminate|].
  destruct (String.eqb k n); [reflexivity|]; exact IH.
Qed.

Lemma parse_parms_app a :
  forall b seen acc l,
    parse_parms (a ++ b) seen acc = Ok l ->
    exists la seen', parse_parms a seen acc = Ok la
                     /\ parse_parms b seen' la = Ok l
                     /\ (forall p, str_in p seen = true -> str_in p seen' = true)
                     /\ (forall parm v, In (parm, v) a -> str_in (concat parm) seen' = true).
Proof.
  induction a as [|[parm v] a IH]; intros b seen acc l H.
  - exists acc, seen; simpl in *; repeat split; auto.
  - rewrite <- app_comm_cons, parse_parms_cons in H; rewrite parse_parms_cons.
    destruct (str_in (concat parm) seen); [discriminate|].
    destruct (entry parm v) as [[cd|]|]; [| |discriminate];
      apply IH in H as (la & seen' & H1 & H2 & H3 & H4); exists la, seen';
      (repeat split; auto; [intros p Hp; apply H3; now apply str_in_cons|]);
      intros parm' v' [E|Hin]; eauto;
      inversion E; subst; apply H3; unfold str_in; simpl;
      now rewrite str_eqb_refl.
Qed.



(** A parameter whose iteration raises makes the loop raise. *)
Lemma parse_parms_bad pairs :
  forall seen acc parm v e l,
    In (parm, v) pairs -> entry parm v = Raise e ->
    parse_parms pairs seen acc <> Ok l.
Proof.
  induction pairs as [|[parm0 v0] pairs IH]; intros seen acc parm v e l Hin He;
    [destruct Hin|].
  rewrite parse_parms_cons.
  destruct (str_in (concat parm0) seen); [discriminate|].
  destruct Hin as [E|Hin].
  - inversion E; subst; rewrite He; discriminate.
  - destruct (entry parm0 v0) as [[cd|]|]; [| |discriminate]; eapply IH; eauto.
Qed.

(** [parse] succeeds exactly when the header is in the grammar and the loop
    over its parameters succeeds. *)
Lemma parse_Ok_inv header ty l :
  parse header = Ok (ty, l) ->
  exists r, PP.parse_string Grammar.header_parser header = Some r
    /\ parse_parms (combine (PP.get_all r "parm") (PP.get_all r "value")) [] []
       = Ok l.
Proof.
  unfold parse; destruct (PP.parse_string _ _) as [r|]; [|discriminate].
  destruct (PP.get_last r "type"); [|discriminate].
  destruct (parse_parms _ _ _) eqn:E; [|discriminate].
  intros H; inversion H; subst; eauto.
Qed.

Lemma parse_not_Ok_raises header :
  (forall x, parse header <> Ok x) ->
  exists e, parse header = Raise e /\ is_ParseException e = true.
Proof.
  intros H; destruct (parse header) as [x|e] eqn:E; [now destruct (H x)|].
  exists e; split; [reflexivity|]; eauto using parse_raises.
Qed.

(** An extended parameter whose value begins with the apostrophe has an
    empty charset: its iteration skips it, or raises when the value is not
    in the grammar. *)
Lemma entry_empty_charset parm v :
  endswith (lower (drop_last (concat parm))) (s2u "*") = true ->
  startswith (concat v) (s2u "'") = true ->
  entry parm v =
  match PP.parse_string Grammar.ext_value (concat v) with
  | Some _ => Ok None
  | None => Raise SyntaxError
  end.
Proof.
  intros Hext Hq; unfold entry; rewrite Hext.
  destruct (PP.parse_string _ _) as [r|] eqn:P; [|reflexivity].
  apply parse_string_inv in P as (rest & P & _); apply ext_value_shape in P.
  destruct (concat v) as [|c t]; [discriminate|].
  simpl in Hq; apply andb_true_iff in Hq as [Hc _]; apply N.eqb_eq in Hc; subst c.
  rewrite (ext_shape_no_encoding _ _ P); reflexivity.
Qed.

Lemma char_in_range (a n : nat) (c : N) :
  (a <= N.to_nat c < a + n)%nat -> char_in (map N.of_nat (seq a n)) c = true.
Proof.
  intros H; unfold char_in; apply existsb_exists.
  exists c; split; [|apply N.eqb_refl].
  apply in_map_iff; exists (N.to_nat c); split; [apply N2Nat.id|].
  apply in_seq; exact H.
Qed.

Lemma invalid_iso8859_1 (c : N) :
  c <= 31 \/ (127 <= c /\ c <= 159) ->
  char_in INVALID_ISO8859_1_CHARACTERS c = true.
Proof.
  intros H; unfold INVALID_ISO8859_1_CHARACTERS, char_in.
  rewrite map_app, existsb_app; apply orb_true_iff.
  destruct H as [H|H]; [left|right]; apply char_in_range; lia.
Qed.

(** ** The claims about [parse] *)

(** C7: [parse_filename] on the header
    [attachment; filename*=UTF-8''%e2%82%ac%20rates.txt] returns the string
    made of the euro sign U+20AC and [ rates.txt]: the percent-encoded
    octets are the bytes E2 82 AC 20 ..., decoded as UTF-8; [parse] on the
    same header gives the type [attachment] and the single parameter
    [filename*] with that value. *)
Theorem C7_euro_rates :
  let header := s2u "attachment; filename*=UTF-8''%e2%82%ac%20rates.txt" in
  parse_filename header false = Ok (Some euro_rates)
  /\ parse header = Ok (s2u "attachment", [mkCD (s2u "filename*") euro_rates])
  /\ unquote_to_bytes (s2u "%e2%82%ac%20rates.txt")
     = [226; 130; 172; 32] ++ s2u "rates.txt"
  /\ utf8_decode ([226; 130; 172; 32] ++ s2u "rates.txt") = Some euro_rates.
Proof. vm_compute; repeat split; reflexivity. Qed.

(** C2: a parameter name repeated with the same spelling makes [parse]
    raise [ParseException] (multiple parms with same name), but the set of
    seen names holds the raw spelling, so the same name in another letter
    case is accepted and [parse] returns two parameters named
    [filename]. *)
Theorem C2_duplicate_check_is_case_sensitive :
  (forall header r pre parm v mid parm' v' post,
      PP.parse_string Grammar.header_parser header = Some r ->
      combine (PP.get_all r "parm") (PP.get_all r "value")
      = pre ++ (parm, v) :: mid ++ (parm', v') :: post ->
      concat parm' = concat parm ->
      exists e, parse header = Raise e /\ is_ParseException e = true)
  /\ parse (s2u "attachment; filename=" ++ q "a" ++ s2u "; filename=" ++ q "b")
     = Raise (MultipleParms (s2u "filename="))
  /\ parse (s2u "attachment; filename=" ++ q "a" ++ s2u "; FILENAME=" ++ q "b")
     = Ok (s2u "attachment",
           [mkCD (s2u "filename") (s2u "a"); mkCD (s2u "filename") (s2u "b")]).
Proof.
  split; [|vm_compute; split; reflexivity].
  intros header r pre parm v mid parm' v' post Hr Hpairs Heq.
  apply parse_not_Ok_raises; intros [ty l] Hp.
  apply parse_Ok_inv in Hp as (r' & Hr' & Hl).
  rewrite Hr in Hr'; inversion Hr'; subst r'; rewrite Hpairs in Hl.
  apply parse_parms_app in Hl as (l1 & seen & _ & H2 & _ & _).
  rewrite parse_parms_cons in H2.
  destruct (str_in (concat parm) seen); [discriminate|].
  assert (Hin : In (parm', v') (mid ++ (parm', v') :: post))
    by (apply in_or_app; right; left; reflexivity).
  assert (Hs : str_in (concat parm') (concat parm :: seen) = true)
    by (rewrite Heq; unfold str_in; simpl; now rewrite str_eqb_refl).
  destruct (entry parm v) as [[cd|]|]; [| |discriminate];
    exact (parse_parms_seen _ _ _ _ _ _ Hin Hs H2).
Qed.

Lemma C2_duplicate_check_is_case_sensitive_witness :
  exists e,
    parse (s2u "attachment; filename=a; x=y; filename=b") = Raise e
    /\ is_ParseException e = true.
Proof.
  refine (proj1 C2_duplicate_check_is_case_sensitive
            (s2u "attachment; filename=a; x=y; filename=b") _ []
            [s2u "filename"; s2u "="] [s2u "a"]
            [([s2u "x"; s2u "="], [s2u "y"])]
            [s2u "filename"; s2u "="] [s2u "b"] [] _ _ _);
    vm_compute; reflexivity.
Defined.


(** ** The resolution of the filename *)

Lemma first_nonempty_truthy n h l cd :
  first_nonempty n h l = Some cd -> truthy (h cd) = true.
Proof.
  intros H; apply find_some in H as [_ H]; now apply andb_true_iff in H.
Qed.

Lemma scan_parameters_spec n h l :
  forall filename,
    scan_parameters n h l filename =
    match first_nonempty n h l with
    | Some cd => Some (h cd)
    | None => if existsb (fun cd => str_eqb (name cd) n) l then Some []
              else filename
    end.
Proof.
  unfold first_nonempty; induction l as [|cd l IH]; intros filename;
    [reflexivity|].
  cbn [scan_parameters find existsb].
  destruct (str_eqb (name cd) n); cbn [andb orb]; [|apply IH].
  destruct (truthy (h cd)) eqn:T; [reflexivity|].
  rewrite IH; destruct (find _ l); [reflexivity|].
  destruct (existsb _ l); [reflexivity|].
  destruct (h cd); [reflexivity|discriminate].
Qed.

Lemma run_handlers_cons n h hs l filename :
  truthy_opt filename = false ->
  run_handlers ((n, h) :: hs) l filename =
  match first_nonempty n h l with
  | Some cd => Some (h cd)
  | None =>
      run_handlers hs l
        (if existsb (fun cd => str_eqb (name cd) n) l then Some [] else filename)
  end.
Proof.
  intros Hf; cbn [run_handlers]; rewrite scan_parameters_spec.
  destruct (first_nonempty n h l) as [cd|] eqn:E.
  - cbn [truthy_opt]; now rewrite (first_nonempty_truthy _ _ _ _ E).
  - destruct (existsb _ l); [reflexivity|now rewrite Hf].
Qed.

(** The fixed precedence of [parse_filename]: the first of the four rules
    that finds a parameter with a non-empty result wins; when none does,
    [filename] is the empty string if a parameter with one of the four names
    exists, and [None] otherwise. *)
Lemma resolved_spec l :
  resolved l =
  match first_nonempty (s2u "filename*") normal_filename l with
  | Some cd => Some (value cd)
  | None =>
  match first_nonempty (s2u "filename") normal_filename l with
  | Some cd => Some (value cd)
  | None =>
  match first_nonempty (s2u "filename*0*") (combine_filename l) l with
  | Some cd => Some (combine_filename l cd)
  | None =>
  match first_nonempty (s2u "filename*0") (combine_filename l) l with
  | Some cd => Some (combine_filename l cd)
  | None =>
      if existsb (fun cd => str_in (name cd) filename_names) l then Some []
      else None
  end end end end.
Proof.
  unfold resolved, header_handlers.
  rewrite run_handlers_cons by reflexivity.
  destruct (first_nonempty (s2u "filename*") _ l); [reflexivity|].
  rewrite run_handlers_cons by (now destruct (existsb _ l)).
  destruct (first_nonempty (s2u "filename") _ l); [reflexivity|].
  rewrite run_handlers_cons by (now repeat destruct (existsb _ l)).
  destruct (first_nonempty (s2u "filename*0*") _ l); [reflexivity|].
  rewrite run_handlers_cons by (now repeat destruct (existsb _ l)).
  destruct (first_nonempty (s2u "filename*0") _ l); [reflexivity|].
  cbn [run_handlers].
  assert (E : existsb (fun cd => str_in (name cd) filename_names) l
              = existsb (fun cd => str_eqb (name cd) (s2u "filename*")) l
                || existsb (fun cd => str_eqb (name cd) (s2u "filename")) l
                || existsb (fun cd => str_eqb (name cd) (s2u "filename*0*")) l
                || existsb (fun cd => str_eqb (name cd) (s2u "filename*0")) l).
  { clear; induction l as [|cd l IH]; [reflexivity|].
    cbn [existsb]; rewrite IH; unfold str_in, filename_names; cbn [existsb].
    repeat match goal with |- context [str_eqb ?a ?b] =>
      destruct (str_eqb a b); cbn [orb] end;
    rewrite ?orb_true_r; try reflexivity;
    repeat match goal with |- context [existsb ?f l] =>
      destruct (existsb f l); cbn [orb] end; reflexivity. }
  rewrite E.
  repeat match goal with |- context [existsb ?f l] =>
    destruct (existsb f l); cbn [orb] end; reflexivity.
Qed.

(** [parse_filename] after a successful [parse], when the type check does
    not end it: the resolved [filename], sanitised.  The empty string is
    its own sanitised form. *)
Lemma parse_filename_resolved header enforce ty l :
  parse header = Ok (ty, l) ->
  enforce && negb (str_in ty allowed_content_dispositions) = false ->
  parse_filename header enforce = Ok (option_map secure_filename (resolved l)).
Proof.
  intros P E; unfold parse_filename; rewrite P, E; fold (resolved l).
  destruct (resolved l) as [[|c s]|]; reflexivity.
Qed.

Lemma find_name_first_nonempty n h l cd :
  find_name l n = Some cd -> truthy (h cd) = true ->
  first_nonempty n h l = Some cd.
Proof.
  unfold find_name, first_nonempty; induction l as [|x l IH]; [discriminate|].
  cbn [find]; destruct (str_eqb (name x) n); cbn [andb]; [|exact IH].
  intros H; inversion H; subst; now intros ->.
Qed.

Lemma first_nonempty_absent n h l :
  (forall cd, In cd l -> str_eqb (name cd) n = false) ->
  first_nonempty n h l = None.
Proof.
  unfold first_nonempty; induction l as [|cd l IH]; intros H; [reflexivity|].
  cbn [find]; rewrite (H cd (or_introl eq_refl)); cbn [andb].
  apply IH; intros; apply H; now right.
Qed.

Lemma str_in_false_eqb s l n :
  str_in s l = false -> In n l -> str_eqb s n = false.
Proof.
  intros H Hin; destruct (str_eqb s n) eqn:E; [|reflexivity].
  apply str_eqb_eq in E; subst; apply str_in_In in Hin; congruence.
Qed.

(** No rule matches exactly when [filename] stays [None]. *)
Lemma resolved_None l :
  resolved l = None <->
  (forall cd, In cd l -> str_in (name cd) filename_names = false).
Proof.
  rewrite resolved_spec; split.
  - repeat (destruct (first_nonempty _ _ l); [discriminate|]).
    destruct (existsb _ l) eqn:E; [discriminate|]; intros _ cd Hin.
    destruct (str_in (name cd) filename_names) eqn:S; [|reflexivity].
    rewrite <- E; symmetry; apply existsb_exists; eauto.
  - intros H.
    rewrite !first_nonempty_absent
      by (intros cd Hin; eapply str_in_false_eqb; [apply H, Hin|];
          unfold filename_names; simpl; tauto).
    destruct (existsb _ l) eqn:E; [|reflexivity].
    apply existsb_exists in E as (cd & Hin & E); rewrite H in E; easy.
Qed.



(** C10: an extended parameter whose value begins with the apostrophe and
    is in the grammar of extended values is skipped by the loop of [parse]
    (nothing is appended), and its raw spelling is added to the seen names:
    a later parameter with the same spelling makes [parse] raise
    [ParseException]. *)
Theorem C10_skipped_parameter_is_seen :
  (forall parm v pairs seen acc,
      str_in (concat parm) seen = false ->
      endswith (lower (drop_last (concat parm))) (s2u "*") = true ->
      startswith (concat v) (s2u "'") = true ->
      (exists r, PP.parse_string Grammar.ext_value (concat v) = Some r) ->
      parse_parms ((parm, v) :: pairs) seen acc
      = parse_parms pairs (concat parm :: seen) acc
      /\ (forall parm' v',
             In (parm', v') pairs -> concat parm' = concat parm ->
             exists e, parse_parms ((parm, v) :: pairs) seen acc = Raise e
                       /\ is_ParseException e = true))
  /\ parse (s2u "attachment; filename*=''x") = Ok (s2u "attachment", [])
  /\ parse (s2u "attachment; filename*=''x; filename*=UTF-8''y")
     = Raise (MultipleParms (s2u "filename*="))
  /\ parse (s2u "attachment; filename*=''x; FILENAME*=UTF-8''y")
     = Ok (s2u "attachment", [mkCD (s2u "filename*") (s2u "y")]).
Proof.
  split; [|vm_compute; repeat split; reflexivity].
  intros parm v pairs seen acc Hseen Hext Hq (r & Hr).
  assert (Hstep : parse_parms ((parm, v) :: pairs) seen acc
                  = parse_parms pairs (concat parm :: seen) acc).
  { now rewrite parse_parms_cons, Hseen, (entry_empty_charset _ _ Hext Hq), Hr. }
  split; [exact Hstep|].
  intros parm' v' Hin Heq; rewrite Hstep.
  destruct (parse_parms pairs (concat parm :: seen) acc) as [l|e] eqn:E.
  - exfalso; eapply parse_parms_seen; [exact Hin| |exact E].
    rewrite Heq; unfold str_in; simpl; now rewrite str_eqb_refl.
  - exists e; split; [reflexivity|]; eauto using parse_parms_raises.
Qed.

Lemma C10_skipped_parameter_is_seen_witness :
  parse_parms
    [([s2u "filename*"; s2u "="], [s2u "''x"]);
     ([s2u "filename*"; s2u "="], [s2u "UTF-8''y"])] [] []
  = parse_parms [([s2u "filename*"; s2u "="], [s2u "UTF-8''y"])]
      [s2u "filename*="] []
  /\ exists e,
      parse_parms
        [([s2u "filename*"; s2u "="], [s2u "''x"]);
         ([s2u "filename*"; s2u "="], [s2u "UTF-8''y"])] [] [] = Raise e
      /\ is_ParseException e = true.
Proof.
  destruct (proj1 C10_skipped_parameter_is_seen
              [s2u "filename*"; s2u "="] [s2u "''x"]
              [([s2u "filename*"; s2u "="], [s2u "UTF-8''y"])] [] [])
    as [H1 H2].
  - reflexivity.
  - reflexivity.
  - reflexivity.
  - eexists; vm_compute; reflexivity.
  - split; [exact H1|].
    apply (H2 [s2u "filename*"; s2u "="] [s2u "UTF-8''y"]);
      [left; reflexivity|reflexivity].
Defined.

(** C9: when the disposition type [parse] returns is neither [attachment]
    nor [inline], [parse_filename] with
    [enforce_content_disposition_type=True] returns [None], whatever the
    parameters are. *)
Theorem C9_enforced_type (header ty : pystr) (l : list ContentDisposition) :
  parse header = Ok (ty, l) ->
  ty <> s2u "attachment" -> ty <> s2u "inline" ->
  parse_filename header true = Ok None.
Proof.
  intros Hp Ha Hi; unfold parse_filename; rewrite Hp.
  assert (E : str_in ty allowed_content_dispositions = false).
  { destruct (str_in _ _) eqn:E; [|reflexivity].
    apply str_in_In in E as [E|[E|[]]]; congruence. }
  now rewrite E.
Qed.

Lemma C9_enforced_type_witness :
  parse_filename (s2u "custom-type; filename=" ++ q "x") true = Ok None.
Proof.
  apply (C9_enforced_type (s2u "custom-type; filename=" ++ q "x")
           (s2u "custom-type") [mkCD (s2u "filename") (s2u "x")]).
  - vm_compute; reflexivity.
  - discriminate.
  - discriminate.
Defined.

(** C8: an extended parameter whose charset is ISO-8859-1 and whose decoded
    value holds a code point in U+0000..U+001F or U+007F..U+009F makes
    [parse] raise [ParseException]; a value declared as UTF-8 is appended
    as it decodes, whatever code points it holds. *)
Theorem C8_iso_8859_1_control_characters :
  (forall header r pre parm v post prv toks dec c,
      PP.parse_string Grammar.header_parser header = Some r ->
      combine (PP.get_all r "parm") (PP.get_all r "value")
      = pre ++ (parm, v) :: post ->
      endswith (lower (drop_last (concat parm))) (s2u "*") = true ->
      PP.parse_string Grammar.ext_value (concat v) = Some prv ->
      PP.get_last prv "encoding" = Some [s2u "ISO-8859-1"] ->
      PP.get_last prv "value" = Some toks ->
      unquote (concat toks) (s2u "iso-8859-1") = Ok dec ->
      In c dec -> c <= 31 \/ (127 <= c /\ c <= 159) ->
      exists e, parse header = Raise e /\ is_ParseException e = true)
  /\ (forall parm v pairs seen acc prv toks dec,
         str_in (concat parm) seen = false ->
         endswith (lower (drop_last (concat parm))) (s2u "*") = true ->
         PP.parse_string Grammar.ext_value (concat v) = Some prv ->
         PP.get_last prv "encoding" = Some [s2u "UTF-8"] ->
         PP.get_last prv "value" = Some toks ->
         unquote (concat toks) (s2u "utf-8") = Ok dec ->
         parse_parms ((parm, v) :: pairs) seen acc
         = parse_parms pairs (concat parm :: seen)
             (acc ++ [mkCD (lower (drop_last (concat parm))) dec]))
  /\ parse (s2u "attachment; filename*=ISO-8859-1''%01") = Raise InvalidEncoding
  /\ parse (s2u "attachment; filename*=iso-8859-1''a%9Fb") = Raise InvalidEncoding
  /\ parse (s2u "attachment; filename*=UTF-8''%01")
     = Ok (s2u "attachment", [mkCD (s2u "filename*") [1]])
  /\ parse (s2u "attachment; filename*=UTF-8''%c2%9f")
     = Ok (s2u "attachment", [mkCD (s2u "filename*") [159]]).
Proof.
  split; [|split; [|vm_compute; repeat split; reflexivity]].
  - intros header r pre parm v post prv toks dec c Hr Hpairs Hext Hv He Ht Hu Hc Hrange.
    apply parse_not_Ok_raises; intros [ty l] Hp.
    apply parse_Ok_inv in Hp as (r' & Hr' & Hl).
    rewrite Hr in Hr'; inversion Hr'; subst r'; rewrite Hpairs in Hl.
    eapply (parse_parms_bad _ _ _ parm v InvalidEncoding); [| |exact Hl].
    + apply in_or_app; right; left; reflexivity.
    + unfold entry; rewrite Hext, Hv, (get_last_contains _ _ _ He), He, Ht.
      cbn [negb]; change (lower (concat [s2u "ISO-8859-1"])) with (s2u "iso-8859-1").
      rewrite Hu, str_eqb_refl; cbn [andb].
      replace (existsb _ dec) with true; [reflexivity|].
      symmetry; apply existsb_exists; exists c; split; [exact Hc|].
      now apply invalid_iso8859_1.
  - intros parm v pairs seen acc prv toks dec Hseen Hext Hv He Ht Hu.
    rewrite parse_parms_cons, Hseen; unfold entry.
    rewrite Hext, Hv, (get_last_contains _ _ _ He), He, Ht.
    cbn [negb]; change (lower (concat [s2u "UTF-8"])) with (s2u "utf-8").
    now rewrite Hu.
Qed.

Lemma C8_iso_8859_1_control_characters_witness :
  (exists e, parse (s2u "attachment; filename*=ISO-8859-1'en'a%01") = Raise e
             /\ is_ParseException e = true)
  /\ parse_parms [([s2u "filename*"; s2u "="], [s2u "UTF-8''a%01"])] [] []
     = parse_parms [] [s2u "filename*="] [mkCD (s2u "filename*") [97; 1]].
Proof.
  split.
  - refine (proj1 C8_iso_8859_1_control_characters
              (s2u "attachment; filename*=ISO-8859-1'en'a%01") _ []
              [s2u "filename*"; s2u "="] [s2u "ISO-8859-1'en'a%01"] []
              _ [s2u "a"; s2u "%"; s2u "01"] [97; 1] 1 _ _ _ _ _ _ _ _ _);
      try (vm_compute; reflexivity).
    + right; left; reflexivity.
    + left; discriminate.
  - refine (proj1 (proj2 C8_iso_8859_1_control_characters)
              [s2u "filename*"; s2u "="] [s2u "UTF-8''a%01"] [] [] []
              _ [s2u "a"; s2u "%"; s2u "01"] [97; 1] _ _ _ _ _ _);
      vm_compute; reflexivity.
Defined.

(** ** Continuation assembly *)

Lemma combine_loop_spec (l : list ContentDisposition) (vals : list pystr) :
  forall n i filename,
    (length vals <= n)%nat ->
    (forall j, (j < length vals)%nat -> segment l (i + j) = Some (nth j vals [])) ->
    ((length vals < n)%nat -> segment l (i + length vals) = None) ->
    combine_loop l n i filename = filename ++ concat vals.
Proof.
  induction vals as [|v vals IH]; intros n i filename Hle Hseg Hend.
  - cbn [concat]; rewrite app_nil_r; destruct n as [|n]; [reflexivity|].
    cbn [length] in Hend; rewrite Nat.add_0_r in Hend.
    specialize (Hend (Nat.lt_0_succ n)); unfold segment in Hend.
    cbn [combine_loop].
    destruct (find_name l (_ ++ _ ++ _)); [discriminate|].
    destruct (find_name l _); [discriminate|reflexivity].
  - destruct n as [|n]; [cbn [length] in Hle; lia|].
    assert (H0 := Hseg 0%nat (Nat.lt_0_succ _)).
    rewrite Nat.add_0_r in H0; cbn [nth] in H0; unfold segment in H0.
    assert (Hrec : combine_loop l n (S i) (filename ++ v)
                   = (filename ++ v) ++ concat vals).
    { apply IH.
      - cbn [length] in Hle; lia.
      - intros j Hj; rewrite Nat.add_succ_comm.
        apply (Hseg (S j)); cbn [length]; lia.
      - intros Hlt; rewrite Nat.add_succ_comm.
        apply Hend; cbn [length]; lia. }
    cbn [combine_loop concat].
    destruct (find_name l (_ ++ _ ++ _)) as [cd|].
    + inversion H0; subst v; rewrite Hrec; symmetry; apply app_assoc.
    + destruct (find_name l _) as [cd|]; [|discriminate].
      inversion H0; subst v; rewrite Hrec; symmetry; apply app_assoc.
Qed.

(** C4: continuation assembly starts from the value of the initial segment
    and, for i = 1, 2, ... and at most 99998 iterations, appends the value
    of [filename*i*] if there is one, otherwise that of [filename*i], and
    stops at the first index with neither: the result is the initial value
    followed by the segments before the first gap.  The header with
    [filename*0] and [filename*1] gives [foobar.html]; with [filename*0] and
    [filename*2] only, the value of [filename*0]. *)
Theorem C4_continuation_assembly :
  (forall l cd vals,
      (length vals <= N.to_nat 99998)%nat ->
      (forall j, (j < length vals)%nat ->
                 segment l (1 + j) = Some (nth j vals [])) ->
      ((length vals < N.to_nat 99998)%nat ->
       segment l (1 + length vals) = None) ->
      combine_filename l cd = value cd ++ concat vals)
  /\ parse_filename
       (s2u "attachment; filename*0=" ++ q "foo" ++ s2u "; filename*1="
        ++ q "bar.html") false
     = Ok (Some (s2u "foobar.html"))
  /\ parse_filename
       (s2u "attachment; filename*0=" ++ q "foo" ++ s2u "; filename*2="
        ++ q "bar.html") false
     = Ok (Some (s2u "foo"))
  /\ parse_filename
       (s2u "attachment; filename*1=b; filename*0*=UTF-8''a; filename*1*=utf-8''c; filename*2=d")
       false
     = Ok (Some (s2u "acd")).
Proof.
  split; [|vm_compute; repeat split; reflexivity].
  intros l cd vals Hle Hseg Hend; unfold combine_filename.
  now apply combine_loop_spec.
Qed.

Lemma C4_continuation_assembly_witness :
  let l := [mkCD (s2u "filename*2") (s2u "baz");
            mkCD (s2u "filename*0") (s2u "foo");
            mkCD (s2u "filename*1") (s2u "bar");
            mkCD (s2u "filename*4") (s2u "qux")] in
  combine_filename l (mkCD (s2u "filename*0") (s2u "foo"))
  = s2u "foo" ++ concat [s2u "bar"; s2u "baz"].
Proof.
  refine (proj1 C4_continuation_assembly _
            (mkCD (s2u "filename*0") (s2u "foo")) [s2u "bar"; s2u "baz"] _ _ _).
  - apply Nat.leb_le; vm_compute; reflexivity.
  - intros [|[|j]] Hj; [reflexivity|reflexivity|simpl in Hj; lia].
  - intros _; vm_compute; reflexivity.
Defined.

(** C3, as the claim states it, fails: in the header below the rule for
    [filename] is the first that matches, its value is the empty string, and
    [parse_filename] returns the value assembled from [filename*0]. *)
Lemma C3_first_match_does_not_win :
  let header :=
    s2u "attachment; filename=" ++ q "" ++ s2u "; filename*0=" ++ q "foo" in
  let l := [mkCD (s2u "filename") []; mkCD (s2u "filename*0") (s2u "foo")] in
  parse header = Ok (s2u "attachment", l)
  /\ find_name l (s2u "filename*") = None
  /\ find_name l (s2u "filename") = Some (mkCD (s2u "filename") [])
  /\ parse_filename header false = Ok (Some (s2u "foo"))
  /\ parse_filename header false
     <> Ok (Some (value (mkCD (s2u "filename") []))).
Proof. vm_compute; repeat split; try reflexivity; discriminate. Qed.

(** C3 (amended): after a successful [parse], and with the type check
    passing (the flag is not set, or the type is [attachment] or [inline]),
    [parse_filename] takes the rules in the fixed order [filename*],
    [filename], [filename*0*], [filename*0], and the first rule that finds
    a parameter with a non-empty result wins: a parameter whose value (or
    assembled value) is empty is passed over.  A [filename*] parameter is
    never empty, so when there is one, its value is the one returned. *)
Theorem C3_precedence (header ty : pystr) (enforce : bool)
    (l : list ContentDisposition) :
  parse header = Ok (ty, l) ->
  enforce && negb (str_in ty allowed_content_dispositions) = false ->
  (forall cd,
      first_nonempty (s2u "filename*") normal_filename l = Some cd ->
      parse_filename header enforce = Ok (Some (secure_filename (value cd))))
  /\ (forall cd,
         first_nonempty (s2u "filename*") normal_filename l = None ->
         first_nonempty (s2u "filename") normal_filename l = Some cd ->
         parse_filename header enforce = Ok (Some (secure_filename (value cd))))
  /\ (forall cd,
         first_nonempty (s2u "filename*") normal_filename l = None ->
         first_nonempty (s2u "filename") normal_filename l = None ->
         first_nonempty (s2u "filename*0*") (combine_filename l) l = Some cd ->
         parse_filename header enforce
         = Ok (Some (secure_filename (combine_filename l cd))))
  /\ (forall cd,
         first_nonempty (s2u "filename*") normal_filename l = None ->
         first_nonempty (s2u "filename") normal_filename l = None ->
         first_nonempty (s2u "filename*0*") (combine_filename l) l = None ->
         first_nonempty (s2u "filename*0") (combine_filename l) l = Some cd ->
         parse_filename header enforce
         = Ok (Some (secure_filename (combine_filename l cd))))
  /\ (forall cd,
         find_name l (s2u "filename*") = Some cd ->
         parse_filename header enforce = Ok (Some (secure_filename (value cd)))).
Proof.
  intros Hp He.
  assert (Hr := parse_filename_resolved header enforce ty l Hp He).
  rewrite resolved_spec in Hr.
  assert (H1 : forall cd,
             first_nonempty (s2u "filename*") normal_filename l = Some cd ->
             parse_filename header enforce
             = Ok (Some (secure_filename (value cd)))).
  { intros cd E; now rewrite E in Hr. }
  repeat split; try exact H1.
  - intros cd E1 E2; now rewrite E1, E2 in Hr.
  - intros cd E1 E2 E3; now rewrite E1, E2, E3 in Hr.
  - intros cd E1 E2 E3 E4; now rewrite E1, E2, E3, E4 in Hr.
  - intros cd Hf; apply H1, find_name_first_nonempty; [exact Hf|].
    apply truthy_nonempty.
    apply find_some in Hf as [Hin Hn]; apply str_eqb_eq in Hn.
    apply parse_Ok_inv in Hp as (r & _ & Hl).
    apply parse_parms_contributions in Hl; subst l.
    eapply contributions_ext_nonempty; [exact Hin|].
    rewrite Hn; reflexivity.
Qed.

Lemma C3_precedence_witness :
  let header :=
    s2u "attachment; filename*0=a; filename=b; filename*=UTF-8''c%2Fd" in
  parse_filename header true = Ok (Some (s2u "c_d"))
  /\ parse_filename header false = Ok (Some (s2u "c_d")).
Proof.
  split;
    refine (proj2 (proj2 (proj2 (proj2
              (C3_precedence
                 (s2u "attachment; filename*0=a; filename=b; filename*=UTF-8''c%2Fd")
                 (s2u "attachment") _
                 [mkCD (s2u "filename*0") (s2u "a");
                  mkCD (s2u "filename") (s2u "b");
                  mkCD (s2u "filename*") (s2u "c/d")] _ _))))
              (mkCD (s2u "filename*") (s2u "c/d")) _);
    vm_compute; reflexivity.
Defined.

(** The header below has a [filename] parameter whose value is the empty
    string and no other filename parameter: [parse_filename] returns the
    empty string, not [None]. *)
Lemma C6_empty_filename_is_returned :
  let header := s2u "attachment; filename=" ++ q "" in
  parse_filename header false = Ok (Some [])
  /\ parse_filename header false <> Ok None.
Proof. vm_compute; split; [reflexivity|discriminate]. Qed.

(** C6 (a defect of the code): after a successful [parse], and unless the
    type check ends it, [parse_filename] returns the resolved string with
    every backslash and every slash replaced by the underscore, and [None]
    exactly when no parameter has one of the four filename names, as the
    claim says.  Against the claim, against the docstring ([None] if no
    filename could be found) and against the tests [if filename:] of the
    function itself, which take the empty string for no filename, a
    resolved string that is empty is returned as the empty string and not
    as [None]. *)
Theorem C6_sanitised_result (header ty : pystr) (enforce : bool)
    (l : list ContentDisposition) :
  parse header = Ok (ty, l) ->
  enforce && negb (str_in ty allowed_content_dispositions) = false ->
  (forall s, resolved l = Some s ->
             parse_filename header enforce
             = Ok (Some (map (fun c => if (c =? 92) || (c =? 47) then 95 else c) s)))
  /\ (resolved l = Some [] -> parse_filename header enforce = Ok (Some []))
  /\ (parse_filename header enforce = Ok None <->
      forall cd, In cd l -> str_in (name cd) filename_names = false).
Proof.
  intros Hp He; rewrite (parse_filename_resolved _ _ _ _ Hp He).
  assert (Hs : forall s, secure_filename s
                 = map (fun c => if (c =? 92) || (c =? 47) then 95 else c) s).
  { intros s; unfold secure_filename, replace_char, BACKSLASH; rewrite map_map.
    apply map_ext; intros c.
    destruct (N.eqb_spec c 92) as [->|H92]; [reflexivity|].
    simpl; destruct (c =? 47); reflexivity. }
  split; [|split].
  - intros s ->; simpl; now rewrite Hs.
  - now intros ->.
  - rewrite <- resolved_None; destruct (resolved l); simpl; split; congruence.
Qed.

Lemma C6_sanitised_result_witness :
  parse_filename (s2u "inline; filename=" ++ q "a/b\\c") true
  = Ok (Some (s2u "a_b_c"))
  /\ parse_filename (s2u "attachment; filename=" ++ q "") true = Ok (Some []).
Proof.
  split.
  - refine (proj1 (C6_sanitised_result (s2u "inline; filename=" ++ q "a/b\\c")
                     (s2u "inline") true [mkCD (s2u "filename") (s2u "a/b\c")] _ _)
              (s2u "a/b\c") _);
      vm_compute; reflexivity.
  - refine (proj1 (proj2 (C6_sanitised_result
                            (s2u "attachment; filename=" ++ q "")
                            (s2u "attachment") true [mkCD (s2u "filename") []]
                            _ _)) _);
      vm_compute; reflexivity.
Defined.

(** ** Whitespace in the header *)

Lemma expandtabs_notab (s : pystr) :
  char_in s 9 = false -> forall col, expandtabs_from col s = s.
Proof.
  unfold char_in; induction s as [|c s IH]; intros H col; [reflexivity|].
  cbn [existsb] in H; apply orb_false_iff in H as [Hc Hs].
  cbn [expandtabs_from]; rewrite N.eqb_sym, Hc.
  destruct ((c =? 10) || (c =? 13)); f_equal; auto.
Qed.

Lemma allwhite_repeat n : allwhite (repeat 32 n).
Proof. induction n; [reflexivity|exact IHn]. Qed.

Lemma allwhite_app a b : allwhite a -> allwhite b -> allwhite (a ++ b).
Proof. unfold allwhite; rewrite forallb_app; now intros -> ->. Qed.

(** Tab expansion of a string that starts with whitespace: the whitespace
    stays whitespace. *)
Lemma expandtabs_white_app (w : pystr) :
  allwhite w ->
  forall col, exists w' col',
    allwhite w' /\
    forall s, expandtabs_from col (w ++ s) = w' ++ expandtabs_from col' s.
Proof.
  induction w as [|c w IH]; intros Hw col.
  - exists [], col; split; [reflexivity|reflexivity].
  - apply andb_true_iff in Hw as [Hc Hw]; cbn [app expandtabs_from].
    destruct (c =? 9).
    + destruct (IH Hw (col + (8 - col mod 8))%nat) as (w' & col' & Hw' & E).
      exists (repeat 32 (8 - col mod 8) ++ w'), col'; split.
      * apply allwhite_app; [apply allwhite_repeat|exact Hw'].
      * intros s; now rewrite E, app_assoc.
    + destruct ((c =? 10) || (c =? 13)).
      * destruct (IH Hw 0%nat) as (w' & col' & Hw' & E).
        exists (c :: w'), col'; split;
          [unfold allwhite; simpl; now rewrite Hc|intros s; now rewrite E].
      * destruct (IH Hw (S col)) as (w' & col' & Hw' & E).
        exists (c :: w'), col'; split;
          [unfold allwhite; simpl; now rewrite Hc|intros s; now rewrite E].
Qed.

(** The grammar skips whitespace before the disposition type. *)
Lemma header_parser_skips (s : pystr) :
  Grammar.header_parser s = Grammar.header_parser (PP.skip_white s).
Proof.
  unfold Grammar.header_parser, Grammar.disposition_type, Grammar.disp_ext_type,
    Grammar.token, PP.And, PP.set_results_name, PP.MatchFirst,
    PP.CaselessLiteral, PP.Word, PP.preParse.
  now rewrite skip_white_idem.
Qed.

Lemma parse_leading_whitespace (w header : pystr) :
  allwhite w -> char_in header 9 = false ->
  parse (w ++ header) = parse header.
Proof.
  intros Hw Ht; unfold parse, PP.parse_string, expandtabs.
  destruct (expandtabs_white_app w Hw 0%nat) as (w' & col' & Hw' & E).
  rewrite E, !(expandtabs_notab _ Ht).
  now rewrite header_parser_skips, (skip_white_app _ _ Hw'), <- header_parser_skips.
Qed.

(** *** Trailing whitespace *)

Lemma is_white_cases x :
  PP.is_white x = true -> x = 32 \/ x = 10 \/ x = 9 \/ x = 13.
Proof.
  unfold PP.is_white; rewrite !orb_true_iff, !N.eqb_eq; tauto.
Qed.

Lemma white_free_check chars :
  char_in chars 32 || char_in chars 10 || char_in chars 9 || char_in chars 13
  = false -> white_free chars.
Proof.
  rewrite !orb_false_iff; intros [[[H1 H2] H3] H4] x Hx.
  destruct (is_white_cases x Hx) as [->|[->|[->| ->]]]; assumption.
Qed.

Lemma skip_white_allwhite w : allwhite w -> PP.skip_white w = [].
Proof.
  intros H; rewrite <- (app_nil_r w); now rewrite skip_white_app.
Qed.

Lemma skip_white_app_r s w :
  allwhite w ->
  PP.skip_white (s ++ w) = match PP.skip_white s with
                           | [] => []
                           | c :: t => (c :: t) ++ w
                           end.
Proof.
  intros Hw; induction s as [|c s IH]; simpl.
  - now apply skip_white_allwhite.
  - destruct (PP.is_white c); [exact IH|reflexivity].
Qed.

Lemma skip_white_skip_app s w :
  PP.skip_white (PP.skip_white s ++ w) = PP.skip_white (s ++ w).
Proof.
  induction s as [|c s IH]; simpl; [reflexivity|].
  destruct (PP.is_white c) eqn:E; [exact IH|]; simpl; now rewrite E.
Qed.

Lemma skip_white_length s : (length (PP.skip_white s) <= length s)%nat.
Proof.
  induction s as [|c s IH]; simpl; [lia|].
  destruct (PP.is_white c); simpl; lia.
Qed.

Lemma skip_white_head s c t : PP.skip_white s = c :: t -> PP.is_white c = false.
Proof.
  induction s as [|x s IH]; simpl; [discriminate|].
  destruct (PP.is_white x) eqn:E; [exact IH|]. intros H; inversion H; now subst.
Qed.

(** A parser that skips whitespace and then runs an exact parser that fails
    on the empty input is stable. *)
Lemma lift_stable (c : PP.parser) :
  exact c -> c [] = None -> stable (fun s => c (PP.skip_white s)).
Proof.
  intros Hc Hnil s w Hw; rewrite (skip_white_app_r s w Hw).
  destruct (PP.skip_white s) as [|x t] eqn:E.
  - rewrite Hnil; reflexivity.
  - rewrite (Hc (x :: t) w Hw); unfold rel_w.
    destruct (c (x :: t)) as [[r rest]|]; eauto.
Qed.

Lemma exact_Literal1 x : PP.is_white x = false -> exact (PP.Literal false [x]).
Proof.
  intros Hx s w Hw; unfold PP.Literal, PP.preParse.
  destruct s as [|c t]; cbn [app startswith length skipn].
  - destruct w as [|y w']; [reflexivity|]; cbn [startswith].
    apply andb_true_iff in Hw as [Hy _].
    destruct (N.eqb_spec y x) as [->|]; [congruence|reflexivity].
  - replace (startswith (t ++ w) []) with true by (now destruct (t ++ w)).
    replace (startswith t []) with true by (now destruct t).
    destruct (c =? x); reflexivity.
Qed.

Lemma caseless_prefix_length s m :
  PP.caseless_prefix s m = true -> (length m <= length s)%nat.
Proof.
  revert s; induction m as [|p m IH]; intros [|c s]; simpl; try lia; try discriminate.
  intros H; apply andb_true_iff in H as [_ H]; apply IH in H; lia.
Qed.

Lemma caseless_prefix_app m :
  (forall c x, In c m -> PP.is_white x = true ->
               upper_is x (upper_ascii_char c) = false) ->
  forall s w, allwhite w ->
    PP.caseless_prefix (s ++ w) m = PP.caseless_prefix s m.
Proof.
  induction m as [|p m IH]; intros Hm s w Hw; [destruct (s ++ w), s; reflexivity|].
  destruct s as [|c s]; cbn [app PP.caseless_prefix].
  - destruct w as [|y w']; [reflexivity|]; cbn [PP.caseless_prefix].
    apply andb_true_iff in Hw as [Hy _].
    now rewrite (Hm p y (or_introl eq_refl) Hy).
  - rewrite IH; auto. intros c' x Hin; apply Hm; now right.
Qed.

Lemma exact_CaselessLiteral m :
  (forall c x, In c m -> PP.is_white x = true ->
               upper_is x (upper_ascii_char c) = false) ->
  exact (PP.CaselessLiteral false m).
Proof.
  intros Hm s w Hw; unfold PP.CaselessLiteral, PP.preParse.
  rewrite (caseless_prefix_app m Hm s w Hw).
  destruct (PP.caseless_prefix s m) eqn:E; [|reflexivity].
  apply caseless_prefix_length in E.
  rewrite skipn_app; replace (length m - length s)%nat with 0%nat by lia.
  reflexivity.
Qed.

Lemma span_app_white p s w :
  (forall x, PP.is_white x = true -> p x = false) -> allwhite w ->
  span p (s ++ w) = let (a, b) := span p s in (a, b ++ w).
Proof.
  intros Hp Hw; induction s as [|c s IH]; cbn [app span].
  - destruct w as [|y w']; [reflexivity|]; cbn [span].
    apply andb_true_iff in Hw as [Hy _]; now rewrite (Hp y Hy).
  - destruct (p c); [|reflexivity].
    rewrite IH; now destruct (span p s).
Qed.

Lemma exact_Word chars : white_free chars -> exact (PP.Word false chars).
Proof.
  intros Hc s w Hw; unfold PP.Word, PP.preParse.
  rewrite (span_app_white _ s w Hc Hw).
  destruct (span (char_in chars) s) as [[|c a] b]; reflexivity.
Qed.

Lemma star_then_length A B s n :
  PP.star_then A B s = Some n -> (n <= length s)%nat.
Proof.
  revert n; induction s as [|c s IH]; intros n; cbn [PP.star_then]; [discriminate|].
  destruct (A c).
  - destruct (PP.star_then A B s) as [k|].
    + intros H; inversion H; subst; specialize (IH k eq_refl); simpl; lia.
    + destruct (B c); [|discriminate]. intros H; inversion H; simpl; lia.
  - destruct (B c); [|discriminate]. intros H; inversion H; simpl; lia.
Qed.

Lemma star_then_app_white A B s w :
  (forall x, PP.is_white x = true -> A x = false) ->
  (forall x, PP.is_white x = true -> B x = false) ->
  allwhite w -> PP.star_then A B (s ++ w) = PP.star_then A B s.
Proof.
  intros HA HB Hw; induction s as [|c s IH]; cbn [app PP.star_then].
  - destruct w as [|y w']; [reflexivity|]; cbn [PP.star_then].
    apply andb_true_iff in Hw as [Hy _]; now rewrite (HA y Hy), (HB y Hy).
  - now rewrite IH.
Qed.

Lemma exact_Regex_star_then A B :
  white_free A -> white_free B -> exact (PP.Regex_star_then false A B).
Proof.
  intros HA HB s w Hw; unfold PP.Regex_star_then, PP.preParse.
  rewrite (star_then_app_white _ _ s w HA HB Hw).
  destruct (PP.star_then _ _ s) as [n|] eqn:E; [|reflexivity].
  apply star_then_length in E.
  rewrite firstn_app, skipn_app.
  replace (n - length s)%nat with 0%nat by lia.
  now rewrite firstn_O, app_nil_r.
Qed.

Lemma quoted_body_white w : allwhite w -> PP.quoted_body w = None.
Proof.
  induction w as [|y w IH]; intros Hw; [reflexivity|].
  apply andb_true_iff in Hw as [Hy Hw]; cbn [PP.quoted_body].
  destruct (is_white_cases y Hy) as [->|[->|[->| ->]]];
    cbn; try reflexivity; now rewrite (IH Hw).
Qed.

Lemma quoted_body_app w :
  allwhite w ->
  forall n s, (length s <= n)%nat ->
    PP.quoted_body (s ++ w) = match PP.quoted_body s with
                              | Some (b, r) => Some (b, r ++ w)
                              | None => None
                              end.
Proof.
  intros Hw; induction n as [|n IH]; intros s Hn.
  - destruct s; [|simpl in Hn; lia]. now apply quoted_body_white.
  - destruct s as [|c t]; [now apply quoted_body_white|].
    cbn [app PP.quoted_body].
    destruct (c =? DQUOTE); [reflexivity|].
    destruct (c =? BACKSLASH).
    + destruct t as [|d t']; cbn [app].
      * destruct w as [|y w']; [reflexivity|].
        apply andb_true_iff in Hw as [Hy Hw'].
        destruct (y =? 10); [reflexivity|].
        now rewrite (quoted_body_white w' Hw').
      * destruct (d =? 10); [reflexivity|].
        rewrite (IH t') by (simpl in Hn; lia).
        now destruct (PP.quoted_body t') as [[b r]|].
    + destruct ((c =? 10) || (c =? 13)); [reflexivity|].
      rewrite (IH t) by (simpl in Hn; lia).
      now destruct (PP.quoted_body t) as [[b r]|].
Qed.

Lemma exact_QuotedString : exact (PP.QuotedString false).
Proof.
  intros s w Hw; unfold PP.QuotedString, PP.preParse.
  destruct s as [|c t]; cbn [app].
  - destruct w as [|y w']; [reflexivity|].
    apply andb_true_iff in Hw as [Hy _].
    destruct (is_white_cases y Hy) as [->|[->|[->| ->]]]; reflexivity.
  - destruct (c =? DQUOTE); [|reflexivity].
    rewrite (quoted_body_app w Hw (length t) t (le_n _)).
    now destruct (PP.quoted_body t) as [[b r]|].
Qed.

Lemma exact_And a b : exact a -> exact b -> exact (PP.And a b).
Proof.
  intros Ha Hb s w Hw; unfold PP.And; rewrite (Ha s w Hw).
  destruct (a s) as [[ra s1]|]; [|reflexivity].
  rewrite (Hb s1 w Hw); now destruct (b s1) as [[rb s2]|].
Qed.

Lemma stable_And a b : stable a -> stable b -> skips b -> stable (PP.And a b).
Proof.
  intros Ha Hb Hs s w Hw; unfold PP.And; specialize (Ha s w Hw); unfold rel_w in Ha.
  destruct (a s) as [[ra s1]|].
  - destruct Ha as (s1' & -> & E1).
    rewrite (Hs s1'), E1, <- (Hs (s1 ++ w)).
    specialize (Hb s1 w Hw); unfold rel_w in Hb.
    destruct (b s1) as [[rb s2]|].
    + destruct Hb as (s2' & -> & E2); simpl; eauto.
    + now rewrite Hb.
  - now rewrite Ha.
Qed.

Lemma stable_MatchFirst a b : stable a -> stable b -> stable (PP.MatchFirst a b).
Proof.
  intros Ha Hb s w Hw; unfold PP.MatchFirst.
  specialize (Ha s w Hw); unfold rel_w in Ha.
  destruct (a s) as [[ra s1]|].
  - destruct Ha as (s1' & -> & E1); simpl; eauto.
  - rewrite Ha; apply Hb, Hw.
Qed.

Lemma stable_set_results_name al n e :
  stable e -> stable (PP.set_results_name al n e).
Proof.
  intros He s w Hw; unfold PP.set_results_name.
  specialize (He s w Hw); unfold rel_w in He.
  destruct (e s) as [[r s1]|].
  - destruct He as (s1' & -> & E1); simpl; eauto.
  - now rewrite He.
Qed.

Lemma stable_Optional e : stable e -> skips e -> stable (PP.Optional true e).
Proof.
  intros He Hs s w Hw; unfold PP.Optional, PP.preParse.
  rewrite <- !Hs; specialize (He s w Hw); unfold rel_w in He.
  destruct (e s) as [[r s1]|].
  - destruct He as (s1' & -> & E1); simpl; eauto.
  - rewrite He; simpl; eexists; split; [reflexivity|].
    now rewrite skip_white_idem, skip_white_skip_app.
Qed.

Lemma stable_Combine e : exact e -> e [] = None -> stable (PP.Combine e).
Proof.
  intros He Hnil.
  apply (lift_stable
           (fun s => match e s with
                     | Some (r, s') =>
                         Some (PP.mkPR [concat (PP.toklist r)] (PP.tokdict r), s')
                     | None => None
                     end)).
  - intros s w Hw; rewrite (He s w Hw); now destruct (e s) as [[r s']|].
  - now rewrite Hnil.
Qed.

Lemma shrinks_nil e : shrinks e -> e [] = None.
Proof.
  intros H; destruct (e []) as [[r rest]|] eqn:E; [|reflexivity].
  apply H in E; simpl in E; lia.
Qed.

Lemma many_stable e :
  stable e -> skips e -> shrinks e ->
  forall w, allwhite w ->
  forall n s s2 acc n2,
    PP.skip_white s2 = PP.skip_white (s ++ w) ->
    (length s <= n)%nat -> (length s2 <= n2)%nat ->
    fst (PP.many n2 e acc s2) = fst (PP.many n e acc s)
    /\ PP.skip_white (snd (PP.many n2 e acc s2))
       = PP.skip_white (snd (PP.many n e acc s) ++ w).
Proof.
  intros Hst Hsk Hsh w Hw; induction n as [|n IH]; intros s s2 acc n2 Heq Hn Hn2.
  - destruct s; [|simpl in Hn; lia]; cbn [PP.many fst snd].
    assert (E2 : e s2 = None).
    { rewrite (Hsk s2), Heq, <- (Hsk ([] ++ w)).
      pose proof (Hst [] w Hw) as R; unfold rel_w in R.
      now rewrite (shrinks_nil e Hsh) in R. }
    destruct n2; cbn [PP.many]; rewrite ?E2; auto.
  - assert (E2 : e s2 = e (s ++ w)) by (now rewrite (Hsk s2), Heq, <- (Hsk (s ++ w))).
    pose proof (Hst s w Hw) as R; unfold rel_w in R.
    cbn [PP.many]; destruct (e s) as [[r s']|] eqn:Es.
    + destruct R as (rest' & R & Er); rewrite R in E2.
      pose proof (Hsh _ _ _ Es) as L1; pose proof (Hsh _ _ _ E2) as L2.
      apply Nat.ltb_lt in L1 as L1b; rewrite L1b.
      destruct n2 as [|n2]; [lia|]; cbn [PP.many]; rewrite E2.
      apply Nat.ltb_lt in L2 as L2b; rewrite L2b.
      apply IH; [exact Er|lia|lia].
    + rewrite R in E2; cbn [fst snd].
      destruct n2; cbn [PP.many]; rewrite ?E2; auto.
Qed.

Lemma stable_ZeroOrMore e :
  stable e -> skips e -> shrinks e -> stable (PP.ZeroOrMore true e).
Proof.
  intros Hst Hsk Hsh s w Hw; unfold PP.ZeroOrMore, PP.preParse.
  rewrite <- !Hsk; pose proof (Hst s w Hw) as R; unfold rel_w in R.
  destruct (e s) as [[r s']|].
  - destruct R as (rest' & -> & Er).
    destruct (many_stable e Hst Hsk Hsh w Hw (length s') s' rest' r (length rest')
                Er (le_n _) (le_n _)) as [F S].
    destruct (PP.many (length s') e r s') as [r1 t1],
             (PP.many (length rest') e r rest') as [r2 t2].
    cbn [fst snd] in *; subst r2; simpl; eauto.
  - rewrite R; simpl; eexists; split; [reflexivity|].
    now rewrite skip_white_idem, skip_white_skip_app.
Qed.

(** The parsers of the grammar never give back more than they got. *)
Lemma preParse_length ws s : (length (PP.preParse ws s) <= length s)%nat.
Proof. destruct ws; simpl; [apply skip_white_length|lia]. Qed.

Lemma noninc_Literal ws m : noninc (PP.Literal ws m).
Proof.
  intros s r rest; unfold PP.Literal; destruct (startswith _ _); [|discriminate].
  intros H; inversion H; subst; rewrite length_skipn.
  pose proof (preParse_length ws s); lia.
Qed.

Lemma span_length p s : (length (snd (span p s)) <= length s)%nat.
Proof.
  induction s as [|c s IH]; simpl; [lia|].
  destruct (p c); [|simpl; lia]. destruct (span p s); simpl in *; lia.
Qed.

Lemma noninc_Word ws chars : noninc (PP.Word ws chars).
Proof.
  intros s r rest; unfold PP.Word.
  pose proof (span_length (char_in chars) (PP.preParse ws s)) as L.
  destruct (span _ _) as [[|c a] b]; [discriminate|].
  intros H; inversion H; subst; simpl in L.
  pose proof (preParse_length ws s); lia.
Qed.

Lemma noninc_Regex_star_then ws A B : noninc (PP.Regex_star_then ws A B).
Proof.
  intros s r rest; unfold PP.Regex_star_then.
  destruct (PP.star_then _ _ _); [|discriminate].
  intros H; inversion H; subst; rewrite length_skipn.
  pose proof (preParse_length ws s); lia.
Qed.

Lemma quoted_body_length n :
  forall s b r, (length s <= n)%nat ->
    PP.quoted_body s = Some (b, r) -> (length r <= length s)%nat.
Proof.
  induction n as [|n IH]; intros s b r Hn.
  - destruct s; [discriminate|simpl in Hn; lia].
  - destruct s as [|c t]; [discriminate|]; cbn [PP.quoted_body].
    destruct (c =? DQUOTE); [intros H; inversion H; subst; simpl; lia|].
    destruct (c =? BACKSLASH).
    + destruct t as [|d t']; [discriminate|].
      destruct (d =? 10); [discriminate|].
      destruct (PP.quoted_body t') as [[b' r']|] eqn:E; [|discriminate].
      apply IH in E; [|simpl in Hn; lia].
      intros H; inversion H; subst; simpl; lia.
    + destruct ((c =? 10) || (c =? 13)); [discriminate|].
      destruct (PP.quoted_body t) as [[b' r']|] eqn:E; [|discriminate].
      apply IH in E; [|simpl in Hn; lia].
      intros H; inversion H; subst; simpl; lia.
Qed.

Lemma noninc_QuotedString ws : noninc (PP.QuotedString ws).
Proof.
  intros s r rest; unfold PP.QuotedString.
  pose proof (preParse_length ws s) as L.
  destruct (PP.preParse ws s) as [|c t]; [discriminate|].
  destruct (c =? DQUOTE); [|discriminate].
  destruct (PP.quoted_body t) as [[b r']|] eqn:E; [|discriminate].
  apply (quoted_body_length (length t)) in E; [|lia].
  intros H; inversion H; subst; simpl in L; lia.
Qed.

Lemma noninc_And a b : noninc a -> noninc b -> noninc (PP.And a b).
Proof.
  intros Ha Hb s r rest H.
  apply And_inv in H as (ra & s1 & rb & H1 & H2 & _).
  apply Ha in H1; apply Hb in H2; lia.
Qed.

Lemma noninc_MatchFirst a b : noninc a -> noninc b -> noninc (PP.MatchFirst a b).
Proof.
  intros Ha Hb s r rest H.
  apply MatchFirst_inv in H as [H|[_ H]]; eauto.
Qed.

Lemma noninc_set_results_name al n e :
  noninc e -> noninc (PP.set_results_name al n e).
Proof.
  intros He s r rest H.
  apply set_results_name_inv in H as (r0 & H & _); eauto.
Qed.

Lemma noninc_Combine e : noninc e -> noninc (PP.Combine e).
Proof.
  intros He s r rest H.
  apply Combine_inv in H as (r0 & H & _); apply He in H.
  pose proof (skip_white_length s); lia.
Qed.

Lemma shrinks_Literal1_And x e :
  noninc e -> shrinks (PP.And (PP.Literal true [x]) e).
Proof.
  intros He s r rest H.
  apply And_inv in H as (ra & s1 & rb & H1 & H2 & _); apply He in H2.
  unfold PP.Literal, PP.preParse in H1.
  pose proof (skip_white_length s) as L.
  destruct (PP.skip_white s) as [|c t]; [discriminate|].
  destruct (startswith _ _); [|discriminate].
  inversion H1; subst; simpl in *; lia.
Qed.

Lemma skips_lift (c : PP.parser) : skips (fun s => c (PP.skip_white s)).
Proof. intros s; now rewrite skip_white_idem. Qed.

Lemma skips_And a b : skips a -> skips (PP.And a b).
Proof. intros Ha s; unfold PP.And; now rewrite <- Ha. Qed.

Lemma skips_MatchFirst a b : skips a -> skips b -> skips (PP.MatchFirst a b).
Proof. intros Ha Hb s; unfold PP.MatchFirst; now rewrite <- Ha, <- Hb. Qed.

Lemma skips_set_results_name al n e :
  skips e -> skips (PP.set_results_name al n e).
Proof. intros He s; unfold PP.set_results_name; now rewrite <- He. Qed.

Lemma skips_Optional e : skips (PP.Optional true e).
Proof. intros s; unfold PP.Optional, PP.preParse; now rewrite skip_white_idem. Qed.

Lemma skips_ZeroOrMore e : skips (PP.ZeroOrMore true e).
Proof. intros s; unfold PP.ZeroOrMore, PP.preParse; now rewrite skip_white_idem. Qed.

Lemma skips_Combine e : skips (PP.Combine e).
Proof. intros s; unfold PP.Combine; now rewrite skip_white_idem. Qed.

Lemma white_free_token_chars : white_free token_chars.
Proof. apply white_free_check; vm_compute; reflexivity. Qed.

Lemma white_free_token_chars_without_wildcard :
  white_free token_chars_without_wildcard.
Proof. apply white_free_check; vm_compute; reflexivity. Qed.

Lemma caseless_white_free m :
  forallb (fun c =>
             negb (upper_is 32 (upper_ascii_char c)
                   || upper_is 10 (upper_ascii_char c)
                   || upper_is 9 (upper_ascii_char c)
                   || upper_is 13 (upper_ascii_char c))) m = true ->
  forall c x, In c m -> PP.is_white x = true ->
              upper_is x (upper_ascii_char c) = false.
Proof.
  intros H c x Hin Hx; rewrite forallb_forall in H; specialize (H c Hin).
  apply negb_true_iff in H; rewrite !orb_false_iff in H.
  destruct H as [[[H1 H2] H3] H4].
  destruct (is_white_cases x Hx) as [->|[->|[->| ->]]]; assumption.
Qed.

(** The elements of the grammar that are built outside [Combine]. *)
Lemma token_stable : stable Grammar.token /\ skips Grammar.token.
Proof.
  split.
  - exact (lift_stable (PP.Word false token_chars)
             (exact_Word _ white_free_token_chars) eq_refl).
  - exact (skips_lift (PP.Word false token_chars)).
Qed.

Lemma Literal1_stable x :
  PP.is_white x = false ->
  stable (PP.Literal true [x]) /\ skips (PP.Literal true [x]).
Proof.
  intros Hx; split.
  - exact (lift_stable (PP.Literal false [x]) (exact_Literal1 x Hx) eq_refl).
  - exact (skips_lift (PP.Literal false [x])).
Qed.

Lemma value_stable : stable Grammar.value /\ skips Grammar.value.
Proof.
  split.
  - apply stable_MatchFirst; [apply token_stable|].
    exact (lift_stable (PP.QuotedString false) exact_QuotedString eq_refl).
  - apply skips_MatchFirst; [apply token_stable|].
    exact (skips_lift (PP.QuotedString false)).
Qed.

Lemma unencoded_token_stable :
  stable (Grammar.unencoded_token true) /\ skips (Grammar.unencoded_token true).
Proof.
  split.
  - exact (lift_stable
             (PP.Regex_star_then false token_chars token_chars_without_wildcard)
             (exact_Regex_star_then _ _ white_free_token_chars
                white_free_token_chars_without_wildcard) eq_refl).
  - exact (skips_lift
             (PP.Regex_star_then false token_chars token_chars_without_wildcard)).
Qed.

Lemma disp_ext_parm_stable :
  stable Grammar.disp_ext_parm /\ skips Grammar.disp_ext_parm
  /\ noninc Grammar.disp_ext_parm.
Proof.
  pose proof value_stable as [Vst Vsk].
  pose proof unencoded_token_stable as [Ust Usk].
  pose proof (Literal1_stable 61 eq_refl) as [Est Esk].
  unfold Grammar.disp_ext_parm; split; [|split].
  - apply stable_MatchFirst; apply stable_And;
      try (apply stable_set_results_name; assumption);
      try (apply skips_set_results_name; assumption);
      apply stable_set_results_name, stable_And; try assumption.
    apply stable_Combine; [|reflexivity].
    apply exact_And;
      [apply exact_Regex_star_then;
       [apply white_free_token_chars|apply white_free_token_chars_without_wildcard]
      |now apply exact_Literal1].
  - apply skips_MatchFirst; apply skips_And, skips_set_results_name, skips_And;
      [assumption|apply skips_Combine].
  - apply noninc_MatchFirst; apply noninc_And;
      try (apply noninc_set_results_name, noninc_MatchFirst;
           [apply noninc_Word|apply noninc_QuotedString]);
      apply noninc_set_results_name, noninc_And; try apply noninc_Literal;
      [apply noninc_Regex_star_then|].
    apply noninc_Combine, noninc_And;
      [apply noninc_Regex_star_then|apply noninc_Literal].
Qed.

Lemma header_parser_stable : stable Grammar.header_parser.
Proof.
  pose proof disp_ext_parm_stable as (Pst & Psk & Pni).
  pose proof (Literal1_stable 59 eq_refl) as [Sst Ssk].
  pose proof token_stable as [Tst Tsk].
  unfold Grammar.header_parser; repeat apply stable_And.
  - apply stable_set_results_name; unfold Grammar.disposition_type.
    repeat apply stable_MatchFirst; [| |exact Tst].
    + exact (lift_stable (PP.CaselessLiteral false (s2u "inline"))
               (exact_CaselessLiteral _
                  (caseless_white_free (s2u "inline") eq_refl)) eq_refl).
    + exact (lift_stable (PP.CaselessLiteral false (s2u "attachment"))
               (exact_CaselessLiteral _
                  (caseless_white_free (s2u "attachment") eq_refl)) eq_refl).
  - apply stable_ZeroOrMore;
      [now apply stable_And|now apply skips_And|now apply shrinks_Literal1_And].
  - apply skips_ZeroOrMore.
  - now apply stable_Optional.
  - apply skips_Optional.
Qed.

Lemma noninc_Word_exact ws chars n : noninc (PP.Word_exact ws chars n).
Proof.
  intros s r rest; unfold PP.Word_exact; destruct (_ && _); [|discriminate].
  intros H; inversion H; subst; rewrite length_skipn.
  pose proof (preParse_length ws s); lia.
Qed.

Lemma shrinks_Word ws chars : shrinks (PP.Word ws chars).
Proof.
  intros s r rest; unfold PP.Word.
  pose proof (preParse_length ws s) as L.
  destruct (PP.preParse ws s) as [|c t]; [discriminate|]; cbn [span].
  destruct (char_in chars c); [|discriminate].
  pose proof (span_length (char_in chars) t) as L'.
  destruct (span (char_in chars) t) as [a b].
  intros H; inversion H; subst; simpl in *; lia.
Qed.

Lemma shrinks_Literal1_And_any ws x e :
  noninc e -> shrinks (PP.And (PP.Literal ws [x]) e).
Proof.
  intros He s r rest H.
  apply And_inv in H as (ra & s1 & rb & H1 & H2 & _); apply He in H2.
  unfold PP.Literal in H1.
  pose proof (preParse_length ws s) as L.
  destruct (PP.preParse ws s) as [|c t]; [discriminate|].
  destruct (startswith _ _); [|discriminate].
  inversion H1; subst; simpl in *; lia.
Qed.

(** With an element that always consumes input, the repetition loop is the
    loop of pyparsing: it goes on as long as the element matches. *)
Lemma many_step e fuel acc s :
  shrinks e ->
  PP.many (S fuel) e acc s =
  match e s with
  | Some (r, s') => PP.many fuel e (PP.add acc r) s'
  | None => (acc, s)
  end.
Proof.
  intros He; cbn [PP.many]; destruct (e s) as [[r s']|] eqn:E; [|reflexivity].
  apply He, Nat.ltb_lt in E; now rewrite E.
Qed.

(** The two elements the grammar repeats consume at least one character. *)
Lemma repeated_elements_shrink :
  shrinks (PP.And (PP.Literal true (s2u ";")) Grammar.disposition_parm)
  /\ shrinks
       (PP.MatchFirst
          (PP.Word false
             (s2u "!#$&+-.0123456789ABCDEFGHIJKLMNOPQRSTUVWXYZ^_`abcdefghijklmnopqrstuvwxyz|~"))
          (PP.And (PP.Literal false (s2u "%"))
             (PP.Word_exact false (s2u "abcdefABCDEF0123456789") 2))).
Proof.
  split.
  - apply shrinks_Literal1_And, disp_ext_parm_stable.
  - intros s r rest H; apply MatchFirst_inv in H as [H|[_ H]].
    + exact (shrinks_Word _ _ _ _ _ H).
    + exact (shrinks_Literal1_And_any _ _ _ (noninc_Word_exact _ _ _) _ _ _ H).
Qed.

Lemma expandtabs_app_white (w : pystr) :
  allwhite w ->
  forall s col, exists w',
    allwhite w' /\ expandtabs_from col (s ++ w) = expandtabs_from col s ++ w'.
Proof.
  intros Hw; induction s as [|c s IH]; intros col.
  - destruct (expandtabs_white_app w Hw col) as (w' & col' & Hw' & E).
    exists w'; split; [exact Hw'|].
    specialize (E []); rewrite app_nil_r in E; cbn [app]; rewrite E.
    cbn [expandtabs_from]; apply app_nil_r.
  - cbn [app expandtabs_from]; destruct (c =? 9).
    + destruct (IH (col + (8 - col mod 8))%nat) as (w' & Hw' & ->).
      exists w'; split; [exact Hw'|now rewrite app_assoc].
    + destruct ((c =? 10) || (c =? 13)).
      * destruct (IH 0%nat) as (w' & Hw' & ->); eauto.
      * destruct (IH (S col)) as (w' & Hw' & ->); eauto.
Qed.

Lemma parse_trailing_whitespace (w header : pystr) :
  allwhite w -> parse (header ++ w) = parse header.
Proof.
  intros Hw; unfold parse, PP.parse_string, expandtabs.
  destruct (expandtabs_app_white w Hw header 0%nat) as (w' & Hw' & ->).
  pose proof (header_parser_stable (expandtabs_from 0 header) w' Hw') as R.
  unfold rel_w in R.
  destruct (Grammar.header_parser (expandtabs_from 0 header)) as [[r rest]|].
  - destruct R as (rest' & -> & E); rewrite E, (skip_white_app_r _ _ Hw').
    now destruct (PP.skip_white rest).
  - now rewrite R.
Qed.

(** C5, as the claim states it, fails: the header [attachment; filename=x],
    with a space after the semicolon, is parsed, and so are headers with
    leading and with trailing whitespace. *)
Lemma C5_whitespace_is_accepted :
  parse (s2u "attachment; filename=x")
  = Ok (s2u "attachment", [mkCD (s2u "filename") (s2u "x")])
  /\ parse (s2u " attachment;filename=x")
     = Ok (s2u "attachment", [mkCD (s2u "filename") (s2u "x")])
  /\ parse (s2u "attachment;filename=x ")
     = Ok (s2u "attachment", [mkCD (s2u "filename") (s2u "x")])
  /\ ~ (exists e, parse (s2u "attachment; filename=x") = Raise e).
Proof.
  vm_compute; repeat split; try reflexivity. intros [e H]; discriminate.
Qed.

(** * Further properties *)

(** ** The named results of a header *)

Lemma span_forall p s : forallb p (fst (span p s)) = true.
Proof.
  induction s as [|c s IH]; simpl; [reflexivity|].
  destruct (p c) eqn:E; [|reflexivity].
  destruct (span p s); simpl in *; now rewrite E.
Qed.

Lemma Word_inv_chars ws chars s r s' :
  PP.Word ws chars s = Some (r, s') ->
  exists w, r = PP.tok w /\ w <> [] /\ forallb (char_in chars) w = true.
Proof.
  unfold PP.Word.
  pose proof (span_forall (char_in chars) (PP.preParse ws s)) as F.
  destruct (span _ _) as [[|c w] rest]; [discriminate|].
  intros H; inversion H; subst; exists (c :: w); repeat split; [discriminate|exact F].
Qed.

Lemma star_then_forall A B s n :
  PP.star_then A B s = Some n ->
  n <> 0%nat /\ forallb (fun c => A c || B c) (firstn n s) = true.
Proof.
  revert n; induction s as [|c s IH]; intros n; cbn [PP.star_then]; [discriminate|].
  destruct (A c) eqn:EA.
  - destruct (PP.star_then A B s) as [k|].
    + intros H; inversion H; subst; split; [discriminate|].
      cbn [firstn forallb]; rewrite EA; exact (proj2 (IH k eq_refl)).
    + destruct (B c) eqn:EB; [|discriminate].
      intros H; inversion H; subst; split; [discriminate|].
      cbn; now rewrite EA.
  - destruct (B c) eqn:EB; [|discriminate].
    intros H; inversion H; subst; split; [discriminate|].
    cbn; now rewrite EA, EB.
Qed.

Lemma without_wildcard_token c :
  char_in token_chars c || char_in token_chars_without_wildcard c = true ->
  char_in token_chars c = true.
Proof.
  intros H; apply orb_true_iff in H as [H|H]; [exact H|].
  apply existsb_exists in H as (x & Hin & E); apply N.eqb_eq in E; subst x.
  assert (F : forallb (char_in token_chars) token_chars_without_wildcard = true)
    by (vm_compute; reflexivity).
  rewrite forallb_forall in F; exact (F c Hin).
Qed.

Lemma unencoded_token_inv ws s r s' :
  Grammar.unencoded_token ws s = Some (r, s') ->
  exists n, r = PP.tok n /\ is_token n.
Proof.
  unfold Grammar.unencoded_token, PP.Regex_star_then.
  destruct (PP.star_then _ _ _) as [n|] eqn:E; [|discriminate].
  pose proof (star_then_forall _ _ _ _ E) as [Hn F].
  intros H; inversion H; subst; eexists; split; [reflexivity|split].
  - destruct n; [congruence|].
    destruct (PP.preParse ws s); [discriminate E|discriminate].
  - rewrite forallb_forall in *; intros c Hc.
    apply without_wildcard_token, F, Hc.
Qed.

Lemma QuotedString_inv ws s r s' :
  PP.QuotedString ws s = Some (r, s') -> exists v, r = PP.tok v.
Proof.
  unfold PP.QuotedString; destruct (PP.preParse ws s) as [|c t]; [discriminate|].
  destruct (c =? DQUOTE); [|discriminate].
  destruct (PP.quoted_body t) as [[b r']|]; [|discriminate].
  intros H; inversion H; eauto.
Qed.

Lemma value_inv s r s' :
  Grammar.value s = Some (r, s') -> exists v, r = PP.tok v.
Proof.
  intros H; apply MatchFirst_inv in H as [H|[_ H]].
  - apply Word_inv in H as (c & w & ->); eauto.
  - eapply QuotedString_inv; eauto.
Qed.

Lemma is_token_star n : is_token n -> is_token (concat [n; s2u "*"]).
Proof.
  intros [Hn F]; split.
  - destruct n; [congruence|discriminate].
  - cbn [concat]; rewrite !forallb_app, F; reflexivity.
Qed.

Lemma disp_ext_parm_shape s r s' :
  Grammar.disp_ext_parm s = Some (r, s') -> parm_shape r.
Proof.
  intros H; apply MatchFirst_inv in H as [H|[_ H]];
    apply And_inv in H as (rp & s1 & rv & Hp & Hv & ->);
    apply set_results_name_inv in Hv as (v0 & Hv & _ & Hvd);
    apply value_inv in Hv as (v & ->);
    apply set_results_name_inv in Hp as (p0 & Hp & _ & Hpd);
    apply And_inv in Hp as (rn & s2 & re & Hn & He & ->);
    apply Literal_inv in He; subst re.
  - apply unencoded_token_inv in Hn as (n & -> & Hn).
    exists n, v; split; [|exact Hn].
    simpl; rewrite Hpd, Hvd; reflexivity.
  - apply Combine_inv in Hn as (c0 & Hn & Htl & Htd).
    apply And_inv in Hn as (rn0 & s3 & rs & Hn & Hs & ->).
    apply Literal_inv in Hs; subst rs.
    apply unencoded_token_inv in Hn as (n & -> & Hn).
    exists (concat [n; s2u "*"]), v; split; [|now apply is_token_star].
    simpl; rewrite Hpd, Hvd; simpl; rewrite Htl, Htd; reflexivity.
Qed.

Lemma fold_add_parms rs :
  Forall parm_shape rs ->
  forall acc, exists pvs,
    PP.tokdict (fold_left PP.add rs acc)
    = PP.tokdict acc
      ++ flat_map (fun nv => [("parm"%string, [fst nv; s2u "="]);
                              ("value"%string, [snd nv])]) pvs
    /\ Forall (fun nv => is_token (fst nv)) pvs.
Proof.
  induction 1 as [|r rs (n & v & Hd & Hn) _ IH]; intros acc.
  - exists []; simpl; split; [now rewrite app_nil_r|constructor].
  - destruct (IH (PP.add acc r)) as (pvs & E & F).
    exists ((n, v) :: pvs); split; [|constructor; assumption].
    cbn [fold_left]; rewrite E; simpl; rewrite Hd, <- app_assoc; reflexivity.
Qed.

(** What the grammar records for a header: the type, and for every
    parameter its name with the equals sign and its value. *)
Lemma header_parser_shape s r rest :
  Grammar.header_parser s = Some (r, rest) ->
  exists t pvs,
    PP.tokdict r = header_dict t pvs
    /\ (t = s2u "inline" \/ t = s2u "attachment" \/ is_token t)
    /\ Forall (fun nv => is_token (fst nv)) pvs.
Proof.
  unfold Grammar.header_parser; intros H.
  apply And_inv in H as (r1 & s1 & ro & H & Ho & ->).
  apply And_inv in H as (rt & s2 & rz & Ht & Hz & ->).
  (* the type *)
  apply set_results_name_inv in Ht as (t0 & Ht & _ & Htd).
  assert (exists t, t0 = PP.tok t
                    /\ (t = s2u "inline" \/ t = s2u "attachment" \/ is_token t))
    as (t & -> & Htype).
  { apply MatchFirst_inv in Ht as [Ht|[_ Ht]];
      [apply CaselessLiteral_inv in Ht as [-> _];
       eexists; split; [reflexivity|now left]|].
    apply MatchFirst_inv in Ht as [Ht|[_ Ht]];
      [apply CaselessLiteral_inv in Ht as [-> _];
       eexists; split; [reflexivity|now right; left]|].
    apply Word_inv_chars in Ht as (w & -> & Hw & F).
    exists w; split; [reflexivity|]; right; right; now split. }
  simpl in Htd.
  (* the trailing semicolon *)
  assert (Hod : PP.tokdict ro = []).
  { apply Optional_inv in Ho as [Ho|(_ & -> & _)]; [|reflexivity].
    apply Literal_inv in Ho; now subst. }
  (* the parameters *)
  assert (exists pvs,
             PP.tokdict rz
             = flat_map (fun nv => [("parm"%string, [fst nv; s2u "="]);
                                    ("value"%string, [snd nv])]) pvs
             /\ Forall (fun nv => is_token (fst nv)) pvs) as (pvs & Hzd & Hpvs).
  { unfold PP.ZeroOrMore in Hz.
    match type of Hz with
    | match ?e ?x with _ => _ end = _ =>
        set (elt := e) in *; destruct (elt x) as [[rf sf]|] eqn:Ef
    end.
    2: { inversion Hz; subst; exists []; split; [reflexivity|constructor]. }
    assert (Helt : forall x y z, elt x = Some (y, z) -> parm_shape y).
    { intros x y z E; apply And_inv in E as (ra & sa & rb & Ea & Eb & ->).
      apply Literal_inv in Ea; subst ra.
      apply disp_ext_parm_shape in Eb as (n & v & Hd & Hn).
      exists n, v; split; [exact Hd|exact Hn]. }
    destruct (many_keeps parm_shape elt Helt (length sf) rf sf)
      as (rs & Hrs & Hfold).
    assert (rz = fold_left PP.add rs rf)
      by (inversion Hz as [Hm]; rewrite Hm in Hfold; exact Hfold).
    subst rz.
    destruct (fold_add_parms rs Hrs rf) as (pvs & E & F).
    destruct (Helt _ _ _ Ef) as (n & v & Hd & Hn).
    exists ((n, v) :: pvs); split; [|constructor; assumption].
    rewrite E, Hd; reflexivity. }
  exists t, pvs; repeat split; try assumption.
  simpl; rewrite Htd, Hzd, Hod, app_nil_r; reflexivity.
Qed.

Lemma header_dict_get t pvs r :
  PP.tokdict r = header_dict t pvs ->
  PP.get_last r "type" = Some [t]
  /\ PP.get_all r "parm" = map (fun nv => [fst nv; s2u "="]) pvs
  /\ PP.get_all r "value" = map (fun nv => [snd nv]) pvs.
Proof.
  intros H; unfold PP.get_last, PP.get_all; rewrite H; unfold header_dict.
  clear H; repeat split.
  - replace (map snd (filter _ _)) with [[t]]; [reflexivity|].
    simpl; f_equal; induction pvs as [|nv pvs IH]; [reflexivity|exact IH].
  - simpl; induction pvs as [|nv pvs IH]; [reflexivity|].
    simpl; now rewrite IH.
  - simpl; induction pvs as [|nv pvs IH]; [reflexivity|].
    simpl; now rewrite IH.
Qed.

(** ** What [parse] returns and raises *)

(** [parse] raises [ParseException] only: the lookups of [type],
    [encoding] and [value] in the parse results never fail, and the codec
    given to [unquote] is always one of the two the grammar names. *)
Theorem parse_raises_only_ParseException (header : pystr) (e : exn) :
  parse header = Raise e ->
  e = SyntaxError \/ e = InvalidEncoding \/ exists parm_str, e = MultipleParms parm_str.
Proof.
  intros H; apply parse_raises in H.
  destruct e; try discriminate; eauto.
Qed.

Lemma parse_raises_only_ParseException_witness :
  MultipleParms (s2u "a=") = SyntaxError
  \/ MultipleParms (s2u "a=") = InvalidEncoding
  \/ exists parm_str, MultipleParms (s2u "a=") = MultipleParms parm_str.
Proof.
  apply (parse_raises_only_ParseException (s2u "x;a=1;a=2")).
  vm_compute; reflexivity.
Defined.

(** The grammar records as many values as parameter names, each name
    followed by the equals sign and each value a single string: the [zip]
    of [parse] pairs every name with its own value and drops nothing. *)
Theorem parse_results_aligned (header : pystr) (r : PP.ParseResults) :
  PP.parse_string Grammar.header_parser header = Some r ->
  exists pvs,
    PP.get_all r "parm" = map (fun nv => [fst nv; s2u "="]) pvs
    /\ PP.get_all r "value" = map (fun nv => [snd nv]) pvs
    /\ combine (PP.get_all r "parm") (PP.get_all r "value")
       = map (fun nv => ([fst nv; s2u "="], [snd nv])) pvs
    /\ length (PP.get_all r "parm") = length (PP.get_all r "value").
Proof.
  intros H; apply parse_string_inv in H as (rest & H & _).
  apply header_parser_shape in H as (t & pvs & Hd & _ & _).
  apply header_dict_get in Hd as (_ & Hp & Hv).
  exists pvs; rewrite Hp, Hv, !length_map; repeat split.
  clear; induction pvs as [|nv pvs IH]; [reflexivity|]; simpl; now rewrite IH.
Qed.

Lemma parse_results_aligned_witness :
  exists pvs,
    [[s2u "a"; s2u "="]; [s2u "b*"; s2u "="]]
    = map (fun nv => [fst nv; s2u "="]) pvs
    /\ [[s2u "1"]; [s2u "''2"]] = map (fun nv : pystr * pystr => [snd nv]) pvs
    /\ combine [[s2u "a"; s2u "="]; [s2u "b*"; s2u "="]] [[s2u "1"]; [s2u "''2"]]
       = map (fun nv => ([fst nv; s2u "="], [snd nv])) pvs
    /\ length [[s2u "a"; s2u "="]; [s2u "b*"; s2u "="]]
       = length [[s2u "1"]; [s2u "''2"]].
Proof.
  apply (parse_results_aligned (s2u "x; a=1; b*=''2")
           (PP.mkPR [s2u "x"; s2u ";"; s2u "a"; s2u "="; s2u "1"; s2u ";";
                     s2u "b*"; s2u "="; s2u "''2"]
              [("type"%string, [s2u "x"]);
               ("parm"%string, [s2u "a"; s2u "="]); ("value"%string, [s2u "1"]);
               ("parm"%string, [s2u "b*"; s2u "="]);
               ("value"%string, [s2u "''2"])])).
  vm_compute; reflexivity.
Defined.

Lemma lower_char_idem c : lower_char (lower_char c) = lower_char c.
Proof.
  unfold lower_char, is_upper_ascii.
  destruct ((65 <=? c) && (c <=? 90)) eqn:E; [|now rewrite E].
  apply andb_true_iff in E as [E1 _]; apply N.leb_le in E1.
  replace (c + 32 <=? 90) with false by (symmetry; apply N.leb_gt; lia).
  now rewrite andb_false_r.
Qed.

Lemma lower_idem s : lower (lower s) = lower s.
Proof.
  unfold lower; rewrite map_map; apply map_ext, lower_char_idem.
Qed.

Lemma token_lower_char c :
  char_in token_chars c = true -> char_in token_chars (lower_char c) = true.
Proof.
  intros H; apply existsb_exists in H as (x & Hin & E).
  apply N.eqb_eq in E; subst x.
  assert (F : forallb (fun c => char_in token_chars (lower_char c)) token_chars
              = true) by (vm_compute; reflexivity).
  rewrite forallb_forall in F; exact (F c Hin).
Qed.

Lemma is_token_lower n : is_token n -> is_token (lower n).
Proof.
  intros [Hn F]; split.
  - destruct n; [congruence|discriminate].
  - unfold lower; rewrite forallb_forall in *; intros c Hc.
    apply in_map_iff in Hc as (x & <- & Hx); apply token_lower_char, F, Hx.
Qed.

Lemma contributions_In pairs cd :
  In cd (contributions pairs) ->
  exists parm v, In (parm, v) pairs /\ entry parm v = Ok (Some cd).
Proof.
  unfold contributions; rewrite in_flat_map; intros ([parm v] & Hin & H).
  cbn [fst snd] in H; exists parm, v; split; [exact Hin|].
  destruct (entry parm v) as [[cd'|]|]; try destruct H as [<-|[]]; try easy.
Qed.

(** Every parameter name [parse] returns is a non-empty string of token
    characters in lower case; so is the disposition type. *)
Theorem parse_names_normalised (header ty : pystr)
    (l : list ContentDisposition) :
  parse header = Ok (ty, l) ->
  (is_token ty /\ lower ty = ty)
  /\ Forall (fun cd => is_token (name cd) /\ lower (name cd) = name cd) l.
Proof.
  unfold parse; intros H.
  destruct (PP.parse_string _ _) as [r|] eqn:P; [|discriminate].
  apply parse_string_inv in P as (rest & P & _).
  apply header_parser_shape in P as (t & pvs & Hd & Ht & Hpvs).
  apply header_dict_get in Hd as (Hty & Hp & Hv); rewrite Hty, Hp, Hv in H.
  destruct (parse_parms _ _ _) as [l'|] eqn:L; [|discriminate].
  inversion H; subst ty l'; clear H; split.
  - cbn [concat]; rewrite app_nil_r; split; [|apply lower_idem].
    apply is_token_lower.
    destruct Ht as [->|[->|Ht]]; [split; [discriminate|reflexivity]
                                 |split; [discriminate|reflexivity]|exact Ht].
  - apply parse_parms_contributions in L; subst l; cbn [app].
    apply Forall_forall; intros cd Hcd.
    apply contributions_In in Hcd as (parm & v & Hin & He).
    rewrite (entry_name _ _ _ He).
    assert (exists nv, In nv pvs /\ parm = [fst nv; s2u "="]) as (nv & Hnv & ->).
    { clear -Hin; induction pvs as [|x pvs IH]; [destruct Hin|].
      destruct Hin as [E|Hin].
      - inversion E; exists x; split; [now left|reflexivity].
      - destruct (IH Hin) as (nv & H1 & H2); exists nv; split; [now right|exact H2]. }
    rewrite Forall_forall in Hpvs; specialize (Hpvs nv Hnv).
    replace (drop_last (concat [fst nv; s2u "="])) with (fst nv).
    + split; [now apply is_token_lower|apply lower_idem].
    + unfold drop_last; cbn [concat]; rewrite app_nil_r.
      change (s2u "=") with [61]; now rewrite removelast_last.
Qed.

Lemma parse_names_normalised_witness :
  (is_token (s2u "x-custom") /\ lower (s2u "x-custom") = s2u "x-custom")
  /\ Forall (fun cd => is_token (name cd) /\ lower (name cd) = name cd)
       [mkCD (s2u "filename") (s2u "A"); mkCD (s2u "name*") (s2u "B")].
Proof.
  apply (parse_names_normalised (s2u "X-Custom; FileName=A; NAME*=utf-8''B")).
  vm_compute; reflexivity.
Defined.

(** In what [parse] returns, the value of a parameter whose name ends with
    the star is never empty. *)
Theorem parse_extended_values_nonempty (header ty : pystr)
    (l : list ContentDisposition) (cd : ContentDisposition) :
  parse header = Ok (ty, l) -> In cd l ->
  endswith (name cd) (s2u "*") = true -> value cd <> [].
Proof.
  intros Hp Hin Hext.
  apply parse_Ok_inv in Hp as (r & _ & Hl).
  apply parse_parms_contributions in Hl; subst l.
  eapply contributions_ext_nonempty; eauto.
Qed.

Lemma parse_extended_values_nonempty_witness : [0] <> [].
Proof.
  apply (parse_extended_values_nonempty
           (s2u "inline; filename=" ++ q "" ++ s2u "; filename*=UTF-8''%00")
           (s2u "inline")
           [mkCD (s2u "filename") []; mkCD (s2u "filename*") [0]]
           (mkCD (s2u "filename*") [0])).
  - vm_compute; reflexivity.
  - right; left; reflexivity.
  - reflexivity.
Defined.

(** ** [parse_filename] and [secure_filename] *)

Lemma secure_filename_clean s :
  char_in (secure_filename s) 47 = false
  /\ char_in (secure_filename s) BACKSLASH = false.
Proof.
  unfold secure_filename, replace_char, char_in, BACKSLASH; rewrite map_map.
  induction s as [|c s [IH1 IH2]]; [split; reflexivity|].
  cbn [map existsb]; rewrite IH1, IH2, !orb_false_r.
  destruct (N.eqb_spec c 92) as [->|H92]; [split; reflexivity|].
  destruct (N.eqb_spec c 47) as [->|H47]; [split; reflexivity|].
  split; apply N.eqb_neq; congruence.
Qed.

(** [secure_filename] keeps the length of the name, leaves a name without
    slash and backslash as it is, and applying it twice is applying it
    once. *)
Theorem secure_filename_properties (s : pystr) :
  length (secure_filename s) = length s
  /\ secure_filename (secure_filename s) = secure_filename s
  /\ (char_in s 47 = false -> char_in s BACKSLASH = false ->
      secure_filename s = s)
  /\ char_in (secure_filename s) 47 = false
  /\ char_in (secure_filename s) BACKSLASH = false.
Proof.
  assert (Hid : forall t, char_in t 47 = false -> char_in t BACKSLASH = false ->
                          secure_filename t = t).
  { unfold secure_filename, replace_char, char_in, BACKSLASH.
    induction t as [|c t IH]; [reflexivity|]; cbn [existsb map].
    intros H1 H2; apply orb_false_iff in H1 as [H1 H1'], H2 as [H2 H2'].
    rewrite N.eqb_sym in H1, H2; rewrite H2, H1; f_equal; now apply IH. }
  destruct (secure_filename_clean s) as [C1 C2].
  split; [unfold secure_filename, replace_char; now rewrite !length_map|].
  split; [now apply Hid|].
  split; [apply Hid|].
  split; assumption.
Qed.

Lemma secure_filename_properties_witness :
  secure_filename (s2u "report.pdf") = s2u "report.pdf".
Proof.
  apply (proj1 (proj2 (proj2 (secure_filename_properties (s2u "report.pdf")))));
    reflexivity.
Defined.

(** [parse_filename] raises exactly when [parse] raises, with the same
    exception, which is a [ParseException]; what it returns holds neither
    a slash nor a backslash. *)
Theorem parse_filename_outcome (header : pystr) (enforce : bool) :
  (forall e, parse_filename header enforce = Raise e <-> parse header = Raise e)
  /\ (forall e, parse_filename header enforce = Raise e ->
                is_ParseException e = true)
  /\ (forall s, parse_filename header enforce = Ok (Some s) ->
                char_in s 47 = false /\ char_in s BACKSLASH = false).
Proof.
  assert (H1 : forall e, parse_filename header enforce = Raise e
                         <-> parse header = Raise e).
  { intros e; unfold parse_filename.
    destruct (parse header) as [[ty l]|e'];
      [|split; intros H; inversion H; reflexivity].
    destruct (_ && _); [split; discriminate|].
    destruct (truthy_opt _); split; discriminate. }
  split; [exact H1|split].
  - intros e He; apply H1 in He; eauto using parse_raises.
  - intros s; unfold parse_filename.
    destruct (parse header) as [[ty l]|e']; [|discriminate].
    destruct (_ && _); [discriminate|].
    destruct (run_handlers _ _ _) as [[|c f]|]; cbn [truthy_opt truthy option_map];
      intros H; inversion H; subst.
    + split; reflexivity.
    + apply secure_filename_clean.
Qed.

Lemma parse_filename_outcome_witness :
  is_ParseException SyntaxError = true
  /\ char_in (s2u ".._.._etc_passwd") 47 = false
  /\ char_in (s2u ".._.._etc_passwd") BACKSLASH = false.
Proof.
  split.
  - apply (proj1 (proj2 (parse_filename_outcome (s2u "attachment; filename") false))).
    vm_compute; reflexivity.
  - apply (proj2 (proj2 (parse_filename_outcome
                           (s2u "attachment; filename=" ++ q "../../etc/passwd")
                           true))).
    vm_compute; reflexivity.
Defined.

(** Enforcing the disposition type can only take the filename away: with
    the flag, [parse_filename] returns what it returns without it, or
    [None]; for a type that [parse] gives as [attachment] or [inline] the
    flag changes nothing. *)
Theorem parse_filename_enforce (header : pystr) :
  (parse_filename header true = parse_filename header false
   \/ parse_filename header true = Ok None)
  /\ (forall ty l, parse header = Ok (ty, l) ->
                   ty = s2u "attachment" \/ ty = s2u "inline" ->
                   parse_filename header true = parse_filename header false).
Proof.
  unfold parse_filename; split.
  - destruct (parse header) as [[ty l]|e]; [|now left].
    destruct (str_in ty allowed_content_dispositions); [now left|now right].
  - intros ty l -> [-> | ->]; reflexivity.
Qed.

Lemma parse_filename_enforce_witness :
  parse_filename (s2u "INLINE; filename=a") true
  = parse_filename (s2u "INLINE; filename=a") false.
Proof.
  apply (proj2 (parse_filename_enforce (s2u "INLINE; filename=a"))
           (s2u "inline") [mkCD (s2u "filename") (s2u "a")]).
  - vm_compute; reflexivity.
  - right; reflexivity.
Defined.

(** ** [requests_response_to_filename] *)

Lemma split_char_nonempty sep s : split_char sep s <> [].
Proof.
  destruct s as [|c t]; simpl; [discriminate|].
  destruct (c =? sep); [discriminate|].
  destruct (split_char sep t); discriminate.
Qed.

Lemma split_char_nosep sep s :
  char_in s sep = false -> split_char sep s = [s].
Proof.
  unfold char_in; induction s as [|c t IH]; [reflexivity|]; cbn [existsb].
  intros H; apply orb_false_iff in H as [Hc Ht]; cbn [split_char].
  rewrite N.eqb_sym, Hc, (IH Ht); reflexivity.
Qed.

Lemma split_char_app_length sep a seg :
  (2 <= length (split_char sep (a ++ sep :: seg)))%nat.
Proof.
  induction a as [|c a IH]; cbn [app split_char].
  - rewrite N.eqb_refl; pose proof (split_char_nonempty sep seg).
    destruct (split_char sep seg); [congruence|simpl; lia].
  - destruct (c =? sep); [simpl; lia|].
    destruct (split_char sep (a ++ sep :: seg)); simpl in *; lia.
Qed.

Lemma last_split_app sep a seg :
  last (split_char sep (a ++ sep :: seg)) [] = last (split_char sep seg) [].
Proof.
  induction a as [|c a IH]; cbn [app split_char].
  - rewrite N.eqb_refl; pose proof (split_char_nonempty sep seg).
    destruct (split_char sep seg); [congruence|reflexivity].
  - pose proof (split_char_app_length sep a seg) as L.
    destruct (c =? sep).
    + destruct (split_char sep (a ++ sep :: seg)) as [|p ps]; [simpl in L; lia|].
      exact IH.
    + destruct (split_char sep (a ++ sep :: seg)) as [|p [|p' ps]];
        [simpl in L; lia|simpl in L; lia|exact IH].
Qed.

Lemma lstrip_char_head c s :
  match s with x :: _ => x <> c | [] => True end -> lstrip_char c s = s.
Proof.
  destruct s as [|x t]; [reflexivity|]; simpl; intros H.
  now destruct (N.eqb_spec x c).
Qed.

Lemma lstrip_char_app c p seg :
  lstrip_char c (p ++ c :: seg) = lstrip_char c seg
  \/ exists x p', lstrip_char c (p ++ c :: seg) = (x :: p') ++ c :: seg.
Proof.
  induction p as [|x p IH]; cbn [app lstrip_char].
  - rewrite N.eqb_refl; now left.
  - destruct (x =? c); [exact IH|right; now exists x, p].
Qed.

Lemma char_in_head s c :
  char_in s c = false -> match s with x :: _ => x <> c | [] => True end.
Proof.
  destruct s as [|x t]; [trivial|]; unfold char_in; cbn [existsb].
  intros H; apply orb_false_iff in H as [H _].
  apply N.eqb_neq in H; congruence.
Qed.

(** The last path segment: of a path that is a segment without slash, or
    ends with a slash and such a segment, [lstrip] and [split] give the
    segment. *)
Lemma last_segment pre seg :
  pre = [] \/ (exists p, pre = p ++ [47]) ->
  char_in seg 47 = false ->
  last (split_char 47 (lstrip_char 47 (pre ++ seg))) [] = seg
  /\ (seg <> [] -> lstrip_char 47 (pre ++ seg) <> []).
Proof.
  intros Hpre Hseg.
  assert (Hs : lstrip_char 47 seg = seg)
    by (apply lstrip_char_head, char_in_head, Hseg).
  assert (Hl : last (split_char 47 seg) [] = seg)
    by (now rewrite (split_char_nosep _ _ Hseg)).
  destruct Hpre as [->|(p & ->)]; cbn [app].
  - rewrite Hs; split; [exact Hl|auto].
  - rewrite <- app_assoc; cbn [app].
    destruct (lstrip_char_app 47 p seg) as [E|(x & p' & E)]; rewrite E.
    + rewrite Hs; split; [exact Hl|auto].
    + rewrite last_split_app; split; [exact Hl|discriminate].
Qed.

Section RequestsResponseProperties.

Variable urlparse_path : pystr -> option pystr.
Variable uuid4 : pystr.

Let to_filename := requests_response_to_filename urlparse_path uuid4.

(** [requests_response_to_filename] never returns the empty string. *)
Theorem response_filename_nonempty (response : Response) (enforce : bool)
    (s : pystr) :
  to_filename response enforce = Returns s -> s <> [].
Proof.
  unfold to_filename, requests_response_to_filename.
  match goal with |- match ?p with _ => _ end = _ -> _ =>
    destruct p as [filename|e]; [|discriminate] end.
  destruct (negb (truthy_opt filename)).
  - destruct (urlparse_path (url response)) as [path|]; [|discriminate].
    destruct (truthy (lstrip_char 47 path)).
    + destruct (truthy (last _ _)).
      * destruct (secure_filename _); intros H; inversion H; discriminate.
      * destruct filename as [[|c f]|]; intros H; inversion H; discriminate.
    + destruct filename as [[|c f]|]; intros H; inversion H; discriminate.
  - destruct filename as [[|c f]|]; intros H; inversion H; discriminate.
Qed.

(** It raises in two cases only: the response has a non-empty
    [Content-Disposition] header on which [parse] raises, and the exception
    is that of [parse]; or the header gives no filename and [urlparse]
    raises [ValueError] on the URL.  Without the header, and with a URL
    that [urlparse] accepts, it never raises. *)
Theorem response_filename_raises (response : Response) (enforce : bool)
    (e : response_exn) :
  to_filename response enforce = Raises e <->
  (exists header e',
      headers_get_Content_Disposition response = Some header
      /\ header <> [] /\ parse header = Raise e'
      /\ e = ParseFilenameError e')
  \/ (no_header_filename response enforce
      /\ urlparse_path (url response) = None /\ e = ValueError).
Proof.
  unfold to_filename, requests_response_to_filename, no_header_filename.
  destruct (headers_get_Content_Disposition response) as [header|].
  - destruct header as [|c h]; cbn [truthy].
    + cbn [truthy_opt negb].
      destruct (urlparse_path (url response)) as [path|]; split.
      * destruct (truthy (lstrip_char 47 path)); [|discriminate].
        destruct (truthy (last _ _)); discriminate.
      * intros [(h & e' & E & Hne & _)|(_ & H & _)];
          [inversion E; congruence|discriminate].
      * intros H; inversion H; right; repeat split; now left.
      * intros [(h & e' & E & Hne & _)|(_ & _ & ->)];
          [inversion E; congruence|reflexivity].
    + destruct (parse_filename (c :: h) enforce) as [f|e'] eqn:P.
      * assert (Hnp : forall e0, parse (c :: h) <> Raise e0).
        { intros e0 Hp.
          apply (proj1 (parse_filename_outcome (c :: h) enforce)) in Hp.
          congruence. }
        assert (Hleft :
                  ~ (exists header e',
                        Some (c :: h) = Some header /\ header <> []
                        /\ parse header = Raise e' /\ e = ParseFilenameError e')).
        { intros (h' & e' & E & _ & Hp & _).
          inversion E; subst h'; now destruct (Hnp e'). }
        destruct (truthy_opt f) eqn:T; cbn [negb].
        -- destruct f as [[|x f]|]; try discriminate.
           split; [discriminate|].
           intros [H|([H|[H|H]] & _)]; [now destruct Hleft| | |];
             discriminate.
        -- assert (Hf : Ok f = Ok None \/ Ok f = Ok (Some []))
             by (destruct f as [[|x f]|]; [now right|discriminate|now left]).
           destruct (urlparse_path (url response)) as [path|]; split.
           ++ destruct (truthy (lstrip_char 47 path)); [|discriminate].
              destruct (truthy (last _ _)); discriminate.
           ++ intros [H|(_ & H & _)]; [now destruct Hleft|discriminate].
           ++ intros H; inversion H; right; repeat split; now right.
           ++ intros [H|(_ & _ & ->)]; [now destruct Hleft|reflexivity].
      * apply (proj1 (parse_filename_outcome (c :: h) enforce)) in P.
        split.
        -- intros H; inversion H; subst; left; exists (c :: h), e'.
           repeat split; [discriminate|exact P].
        -- pose proof (proj2 (proj1 (parse_filename_outcome (c :: h) enforce) e') P)
             as P'.
           intros [(h' & e0 & E & _ & Hp & ->)|([H|[H|H]] & _)].
           ++ inversion E; subst h'; congruence.
           ++ discriminate.
           ++ congruence.
           ++ congruence.
  - cbn [truthy_opt negb].
    destruct (urlparse_path (url response)) as [path|]; split.
    + destruct (truthy (lstrip_char 47 path)); [|discriminate].
      destruct (truthy (last _ _)); discriminate.
    + intros [(h & e' & E & _)|(_ & H & _)]; discriminate.
    + intros H; inversion H; right; repeat split.
    + intros [(h & e' & E & _)|(_ & _ & ->)]; [discriminate|reflexivity].
Qed.

(** A non-empty filename found in the header is the result, whatever the
    URL is: [urlparse] is not called. *)
Theorem response_filename_from_header (response : Response) (enforce : bool)
    (header s : pystr) :
  headers_get_Content_Disposition response = Some header ->
  parse_filename header enforce = Ok (Some s) -> s <> [] ->
  to_filename response enforce = Returns s.
Proof.
  intros Hh Hp Hs; unfold to_filename, requests_response_to_filename.
  rewrite Hh.
  destruct header as [|c h]; [vm_compute in Hp; discriminate|].
  cbn [truthy]; rewrite Hp.
  destruct s as [|x s]; [congruence|reflexivity].
Qed.

(** Without a filename from the header, the result is the last segment of
    the path of the URL, sanitised; when the path is empty or ends with a
    slash, it is [unknown-] followed by the UUID. *)
Theorem response_filename_from_url (response : Response) (enforce : bool) :
  no_header_filename response enforce ->
  (forall pre seg,
      urlparse_path (url response) = Some (pre ++ seg) ->
      pre = [] \/ (exists p, pre = p ++ [47]) ->
      seg <> [] -> char_in seg 47 = false ->
      to_filename response enforce = Returns (secure_filename seg))
  /\ (urlparse_path (url response) = Some []
      \/ (exists p, urlparse_path (url response) = Some (p ++ [47])) ->
      to_filename response enforce = Returns (s2u "unknown-" ++ uuid4)).
Proof.
  intros Hno.
  assert (Hparsed :
            exists f,
              match headers_get_Content_Disposition response with
              | Some header =>
                  if truthy header then parse_filename header enforce
                  else Ok None
              | None => Ok None
              end = Ok f /\ truthy_opt f = false).
  { unfold no_header_filename in Hno.
    destruct (headers_get_Content_Disposition response) as [h|];
      [|exists None; split; reflexivity].
    destruct h as [|c h]; [exists None; split; reflexivity|]; cbn [truthy].
    destruct Hno as [Hno|[-> | ->]]; [discriminate| |];
      eexists; split; reflexivity. }
  destruct Hparsed as (f & Hf & Hfalsy).
  unfold to_filename, requests_response_to_filename; rewrite Hf, Hfalsy.
  cbn [negb]; split.
  - intros pre seg -> Hpre Hne Hseg.
    destruct (last_segment pre seg Hpre Hseg) as [Hlast Hnonempty].
    rewrite Hlast.
    destruct (lstrip_char 47 (pre ++ seg)) eqn:E;
      [now destruct (Hnonempty Hne)|]; cbn [truthy].
    destruct seg as [|c seg]; [congruence|reflexivity].
  - intros Hpath.
    assert (E : exists path,
               urlparse_path (url response) = Some path
               /\ (lstrip_char 47 path = []
                   \/ (truthy (lstrip_char 47 path) = true
                       /\ last (split_char 47 (lstrip_char 47 path)) [] = []))).
    { destruct Hpath as [->|(p & ->)]; [exists []; split; [reflexivity|now left]|].
      exists (p ++ [47]); split; [reflexivity|].
      pose proof (last_segment (p ++ [47]) [] (or_intror (ex_intro _ p eq_refl))
                    eq_refl) as [Hl _].
      rewrite app_nil_r in Hl.
      destruct (lstrip_char 47 (p ++ [47])); [now left|right; now split]. }
    destruct E as (path & -> & [-> | [-> ->]]); cbn [truthy];
      destruct f as [[|c f]|]; try discriminate; reflexivity.
Qed.

(** With a UUID text that holds neither slash nor backslash, the result
    holds none either. *)
Theorem response_filename_clean (response : Response) (enforce : bool)
    (s : pystr) :
  char_in uuid4 47 = false -> char_in uuid4 BACKSLASH = false ->
  to_filename response enforce = Returns s ->
  char_in s 47 = false /\ char_in s BACKSLASH = false.
Proof.
  intros U1 U2; unfold to_filename, requests_response_to_filename.
  assert (Hu : char_in (s2u "unknown-" ++ uuid4) 47 = false
               /\ char_in (s2u "unknown-" ++ uuid4) BACKSLASH = false).
  { unfold char_in in *; rewrite !existsb_app, U1, U2; split; reflexivity. }
  assert (Hparsed :
            forall f,
              match headers_get_Content_Disposition response with
              | Some header =>
                  if truthy header then parse_filename header enforce
                  else Ok None
              | None => Ok None
              end = Ok (Some f) ->
              char_in f 47 = false /\ char_in f BACKSLASH = false).
  { intros f; destruct (headers_get_Content_Disposition response) as [h|];
      [|discriminate].
    destruct (truthy h); [|discriminate].
    apply (proj2 (proj2 (parse_filename_outcome h enforce))). }
  match goal with |- match ?p with _ => _ end = _ -> _ =>
    destruct p as [filename|e]; [|discriminate] end.
  destruct (truthy_opt filename) eqn:T; cbn [negb].
  - destruct filename as [[|c f]|]; try discriminate.
    intros H; inversion H; subst; now apply Hparsed.
  - destruct (urlparse_path (url response)) as [path|]; [|discriminate].
    destruct (truthy (lstrip_char _ _)).
    + destruct (truthy (last _ _)) eqn:L.
      * pose proof (secure_filename_clean
                      (last (split_char 47 (lstrip_char 47 path)) []))
          as C.
        destruct (secure_filename _); intros H; inversion H; subst; assumption.
      * destruct filename as [[|c f]|]; try discriminate;
          intros H; inversion H; subst; assumption.
    + destruct filename as [[|c f]|]; try discriminate;
        intros H; inversion H; subst; assumption.
Qed.

End RequestsResponseProperties.

Lemma response_filename_nonempty_witness : s2u "b.txt" <> [].
Proof.
  apply (response_filename_nonempty (fun u => Some u) (s2u "0-0")
           (mkResponse None (s2u "/a/b.txt")) false).
  vm_compute; reflexivity.
Defined.

Lemma response_filename_raises_witness :
  requests_response_to_filename (fun u => Some u) (s2u "0-0")
    (mkResponse (Some (s2u "attachment; filename")) (s2u "/a")) false
  = Raises (ParseFilenameError SyntaxError)
  /\ requests_response_to_filename
       (fun u => if str_eqb u (s2u "http://[") then None else Some u)
       (s2u "0-0")
       (mkResponse (Some (s2u "inline")) (s2u "http://[")) false
     = Raises ValueError.
Proof.
  split.
  - apply (proj2 (response_filename_raises (fun u => Some u) (s2u "0-0")
                    (mkResponse (Some (s2u "attachment; filename")) (s2u "/a"))
                    false (ParseFilenameError SyntaxError))).
    left; exists (s2u "attachment; filename"), SyntaxError.
    split; [reflexivity|split; [discriminate|split; vm_compute; reflexivity]].
  - apply (proj2 (response_filename_raises
                    (fun u => if str_eqb u (s2u "http://[") then None else Some u)
                    (s2u "0-0")
                    (mkResponse (Some (s2u "inline")) (s2u "http://[")) false
                    ValueError)).
    right; split; [right; left; vm_compute; reflexivity|split; reflexivity].
Defined.

Lemma response_filename_from_header_witness :
  requests_response_to_filename (fun _ => None) (s2u "0-0")
    (mkResponse (Some (s2u "attachment; filename=x.txt")) (s2u "http://[")) false
  = Returns (s2u "x.txt").
Proof.
  apply (response_filename_from_header (fun _ => None) (s2u "0-0") _ false
           (s2u "attachment; filename=x.txt")).
  - reflexivity.
  - vm_compute; reflexivity.
  - discriminate.
Defined.

Lemma response_filename_from_url_witness :
  requests_response_to_filename (fun u => Some u) (s2u "0-0")
    (mkResponse (Some (s2u "inline")) (s2u "//a/b\c.txt")) false
  = Returns (s2u "b_c.txt")
  /\ requests_response_to_filename (fun u => Some u) (s2u "0-0")
       (mkResponse None (s2u "/a/b/")) false
     = Returns (s2u "unknown-0-0").
Proof.
  split.
  - apply (proj1 (response_filename_from_url (fun u => Some u) (s2u "0-0")
                    (mkResponse (Some (s2u "inline")) (s2u "//a/b\c.txt")) false
                    (or_intror (or_introl eq_refl)))
             (s2u "//a/") (s2u "b\c.txt")).
    + reflexivity.
    + right; exists (s2u "//a"); reflexivity.
    + discriminate.
    + reflexivity.
  - apply (proj2 (response_filename_from_url (fun u => Some u) (s2u "0-0")
                    (mkResponse None (s2u "/a/b/")) false I)).
    right; exists (s2u "/a/b"); reflexivity.
Defined.

Lemma response_filename_clean_witness :
  char_in (s2u "unknown-0-0") 47 = false
  /\ char_in (s2u "unknown-0-0") BACKSLASH = false.
Proof.
  apply (response_filename_clean (fun u => Some u) (s2u "0-0")
           (mkResponse None (s2u "///")) true); reflexivity.
Defined.

(** ** Values that come back as they were sent *)

Lemma And_intro a b s ra s1 rb s2 :
  a s = Some (ra, s1) -> b s1 = Some (rb, s2) ->
  PP.And a b s = Some (PP.add ra rb, s2).
Proof. unfold PP.And; now intros -> ->. Qed.

Lemma MatchFirst_l a b s x : a s = Some x -> PP.MatchFirst a b s = Some x.
Proof. unfold PP.MatchFirst; now intros ->. Qed.

Lemma MatchFirst_r a b s x :
  a s = None -> b s = x -> PP.MatchFirst a b s = x.
Proof. unfold PP.MatchFirst; now intros -> ->. Qed.

Lemma set_results_name_intro al n e s r s' :
  e s = Some (r, s') ->
  PP.set_results_name al n e s
  = Some (PP.mkPR (PP.toklist r)
            (PP.tokdict r ++
             (if al then [(n, PP.toklist r)]
              else match PP.toklist r with t :: _ => [(n, [t])] | [] => [] end)),
          s').
Proof. unfold PP.set_results_name; now intros ->. Qed.

Lemma startswith_nil s : startswith s [] = true.
Proof. now destruct s. Qed.

Lemma Literal1_cons ws x s :
  PP.is_white x = false -> PP.Literal ws [x] (x :: s) = Some (PP.tok [x], s).
Proof.
  intros Hx; unfold PP.Literal.
  replace (PP.preParse ws (x :: s)) with (x :: s)
    by (destruct ws; simpl; now rewrite ?Hx).
  cbn [startswith length skipn]; now rewrite N.eqb_refl, startswith_nil.
Qed.

(** The results of the header [attachment; filename=V], for a value [V]
    that the grammar reads to its end as the string [v]. *)
Lemma tokenize_filename V v :
  Grammar.value V = Some (PP.tok v, []) ->
  Grammar.header_parser (s2u "attachment; filename=" ++ V)
  = Some (PP.mkPR [s2u "attachment"; s2u ";"; s2u "filename"; s2u "="; v]
            (header_dict (s2u "attachment") [(s2u "filename", v)]), []).
Proof.
  intros HV; unfold Grammar.header_parser.
  assert (H1 : PP.set_results_name false "type" Grammar.disposition_type
                 (s2u "attachment; filename=" ++ V)
               = Some (PP.mkPR [s2u "attachment"]
                         [("type"%string, [s2u "attachment"])],
                       s2u "; filename=" ++ V))
    by (vm_compute; reflexivity).
  assert (H2a : Grammar.unencoded_token true (s2u " filename=" ++ V)
                = Some (PP.tok (s2u "filename"), s2u "=" ++ V))
    by (vm_compute; reflexivity).
  pose proof (Literal1_cons true 61 V eq_refl) as H2b.
  pose proof (set_results_name_intro true "parm" _ _ _ _
                (And_intro _ _ _ _ _ _ _ H2a H2b)) as H2.
  pose proof (set_results_name_intro false "value" _ _ _ _ HV) as H3.
  pose proof (Literal1_cons true 59 (s2u " filename=" ++ V) eq_refl) as H4.
  assert (Hp : Grammar.disp_ext_parm (s2u " filename=" ++ V) = _)
    by (unfold Grammar.disp_ext_parm; apply MatchFirst_l;
        exact (And_intro _ _ _ _ _ _ _ H2 H3)).
  assert (H5 : PP.And (PP.Literal true (s2u ";")) Grammar.disposition_parm
                 (s2u "; filename=" ++ V)
               = Some (PP.mkPR [s2u ";"; s2u "filename"; s2u "="; v]
                         [("parm"%string, [s2u "filename"; s2u "="]);
                          ("value"%string, [v])], []))
    by exact (And_intro _ _ _ _ _ _ _ H4 Hp).
  assert (H6 : PP.ZeroOrMore true
                 (PP.And (PP.Literal true (s2u ";")) Grammar.disposition_parm)
                 (s2u "; filename=" ++ V)
               = Some (PP.mkPR [s2u ";"; s2u "filename"; s2u "="; v]
                         [("parm"%string, [s2u "filename"; s2u "="]);
                          ("value"%string, [v])], [])).
  { unfold PP.ZeroOrMore; cbn [PP.preParse].
    change (PP.skip_white (s2u "; filename=" ++ V)) with (s2u "; filename=" ++ V).
    rewrite H5; reflexivity. }
  assert (H7 : PP.Optional true (PP.Literal true (s2u ";")) []
               = Some (PP.empty, [])) by reflexivity.
  rewrite (And_intro _ _ _ _ _ _ _ (And_intro _ _ _ _ _ _ _ H1 H6) H7).
  reflexivity.
Qed.

(** The same for the extended parameter [filename*]. *)
Lemma tokenize_filename_star V v :
  Grammar.value V = Some (PP.tok v, []) ->
  Grammar.header_parser (s2u "attachment; filename*=" ++ V)
  = Some (PP.mkPR [s2u "attachment"; s2u ";"; s2u "filename*"; s2u "="; v]
            (header_dict (s2u "attachment") [(s2u "filename*", v)]), []).
Proof.
  intros HV; unfold Grammar.header_parser.
  assert (H1 : PP.set_results_name false "type" Grammar.disposition_type
                 (s2u "attachment; filename*=" ++ V)
               = Some (PP.mkPR [s2u "attachment"]
                         [("type"%string, [s2u "attachment"])],
                       s2u "; filename*=" ++ V))
    by (vm_compute; reflexivity).
  assert (H0 : PP.And
                 (PP.set_results_name true "parm"
                    (PP.And (Grammar.unencoded_token true)
                       (PP.Literal true (s2u "="))))
                 (PP.set_results_name false "value" Grammar.value)
                 (s2u " filename*=" ++ V) = None)
    by (vm_compute; reflexivity).
  assert (H2a : PP.Combine
                  (PP.And (Grammar.unencoded_token false)
                     (PP.Literal false (s2u "*")))
                  (s2u " filename*=" ++ V)
                = Some (PP.tok (s2u "filename*"), s2u "=" ++ V))
    by (vm_compute; reflexivity).
  pose proof (Literal1_cons true 61 V eq_refl) as H2b.
  pose proof (set_results_name_intro true "parm" _ _ _ _
                (And_intro _ _ _ _ _ _ _ H2a H2b)) as H2.
  pose proof (set_results_name_intro false "value" _ _ _ _ HV) as H3.
  pose proof (Literal1_cons true 59 (s2u " filename*=" ++ V) eq_refl) as H4.
  assert (Hp : Grammar.disp_ext_parm (s2u " filename*=" ++ V) = _)
    by (unfold Grammar.disp_ext_parm; apply (MatchFirst_r _ _ _ _ H0);
        exact (And_intro _ _ _ _ _ _ _ H2 H3)).
  assert (H5 : PP.And (PP.Literal true (s2u ";")) Grammar.disposition_parm
                 (s2u "; filename*=" ++ V)
               = Some (PP.mkPR [s2u ";"; s2u "filename*"; s2u "="; v]
                         [("parm"%string, [s2u "filename*"; s2u "="]);
                          ("value"%string, [v])], []))
    by exact (And_intro _ _ _ _ _ _ _ H4 Hp).
  assert (H6 : PP.ZeroOrMore true
                 (PP.And (PP.Literal true (s2u ";")) Grammar.disposition_parm)
                 (s2u "; filename*=" ++ V)
               = Some (PP.mkPR [s2u ";"; s2u "filename*"; s2u "="; v]
                         [("parm"%string, [s2u "filename*"; s2u "="]);
                          ("value"%string, [v])], [])).
  { unfold PP.ZeroOrMore; cbn [PP.preParse].
    change (PP.skip_white (s2u "; filename*=" ++ V))
      with (s2u "; filename*=" ++ V).
    rewrite H5; reflexivity. }
  assert (H7 : PP.Optional true (PP.Literal true (s2u ";")) []
               = Some (PP.empty, [])) by reflexivity.
  rewrite (And_intro _ _ _ _ _ _ _ (And_intro _ _ _ _ _ _ _ H1 H6) H7).
  reflexivity.
Qed.

Lemma span_all p s : forallb p s = true -> span p s = (s, []).
Proof.
  induction s as [|c s IH]; [reflexivity|]; cbn [forallb span].
  intros H; apply andb_true_iff in H as [Hc Hs]; now rewrite Hc, (IH Hs).
Qed.

Lemma token_char_not_white c :
  char_in token_chars c = true -> PP.is_white c = false.
Proof.
  intros H; destruct (PP.is_white c) eqn:E; [|reflexivity].
  rewrite (white_free_token_chars c E) in H; discriminate.
Qed.

(** A token is a value, read to its end. *)
Lemma value_token v : is_token v -> Grammar.value v = Some (PP.tok v, []).
Proof.
  intros [Hne F]; apply MatchFirst_l; unfold Grammar.token, PP.Word.
  destruct v as [|c v]; [congruence|].
  assert (Hc : PP.is_white c = false)
    by (apply token_char_not_white; cbn [forallb] in F;
        now apply andb_true_iff in F as [F _]).
  cbn [PP.preParse]; rewrite (skip_white_nonwhite c v Hc), (span_all _ _ F).
  reflexivity.
Qed.

Lemma is_token_notab v : is_token v -> char_in v 9 = false.
Proof.
  intros [_ F]; unfold char_in.
  destruct (existsb (N.eqb 9) v) eqn:E; [|reflexivity].
  apply existsb_exists in E as (x & Hin & Hx); apply N.eqb_eq in Hx; subst x.
  rewrite forallb_forall in F; specialize (F 9 Hin); discriminate.
Qed.

Lemma quotable_body b :
  forallb quotable b = true ->
  PP.quoted_body (b ++ [DQUOTE]) = Some (b, [])
  /\ PP.unescape b = b /\ PP.replace_esc_quote b = b /\ char_in b 9 = false.
Proof.
  induction b as [|c b IH]; [repeat split; reflexivity|]; cbn [forallb].
  intros H; apply andb_true_iff in H as [Hc Hb].
  destruct (IH Hb) as (Q & U & R & T).
  unfold quotable, char_in in Hc; cbn [existsb] in Hc.
  apply negb_true_iff in Hc; rewrite !orb_false_iff in Hc.
  destruct Hc as (H34 & H92 & H10 & H13 & H9 & _).
  repeat split.
  - cbn [app PP.quoted_body]; now rewrite H34, H92, H10, H13, Q.
  - cbn [PP.unescape]; now rewrite H92, U.
  - cbn [PP.replace_esc_quote]; rewrite H92, R.
    destruct b; reflexivity.
  - unfold char_in in *; cbn [existsb]; rewrite T, N.eqb_sym, H9; reflexivity.
Qed.

(** A quoted string of quotable characters is a value, read to its end as
    the string between the quotes. *)
Lemma value_quoted b :
  forallb quotable b = true ->
  Grammar.value (DQUOTE :: b ++ [DQUOTE]) = Some (PP.tok b, []).
Proof.
  intros H; destruct (quotable_body b H) as (Q & U & R & _).
  apply MatchFirst_r; [reflexivity|].
  unfold PP.QuotedString; cbn [PP.preParse PP.skip_white PP.is_white].
  cbn; rewrite Q, U, R; reflexivity.
Qed.

Lemma parse_single_filename V v :
  char_in V 9 = false ->
  Grammar.value V = Some (PP.tok v, []) ->
  parse (s2u "attachment; filename=" ++ V)
  = Ok (s2u "attachment", [mkCD (s2u "filename") v]).
Proof.
  intros HT HV; unfold parse, PP.parse_string, expandtabs.
  rewrite expandtabs_notab
    by (unfold char_in in *; rewrite existsb_app, HT; reflexivity).
  rewrite (tokenize_filename V v HV); cbn [PP.skip_white].
  destruct (header_dict_get (s2u "attachment") [(s2u "filename", v)]
              (PP.mkPR [s2u "attachment"; s2u ";"; s2u "filename"; s2u "="; v]
                 (header_dict (s2u "attachment") [(s2u "filename", v)]))
              eq_refl) as (-> & -> & ->).
  cbn [map combine fst snd]; rewrite parse_parms_cons.
  replace (entry [s2u "filename"; s2u "="] [v])
    with (Ok (Some (mkCD (s2u "filename") (v ++ [])))) by reflexivity.
  rewrite app_nil_r; reflexivity.
Qed.

(** A value sent as a token, or between quotes when it holds none of the
    quote, the backslash, line feed, carriage return and tab, is the value
    [parse] returns. *)
Theorem parse_plain_value_roundtrip :
  (forall v, is_token v ->
             parse (s2u "attachment; filename=" ++ v)
             = Ok (s2u "attachment", [mkCD (s2u "filename") v]))
  /\ (forall b, forallb quotable b = true ->
                parse (s2u "attachment; filename=" ++ DQUOTE :: b ++ [DQUOTE])
                = Ok (s2u "attachment", [mkCD (s2u "filename") b])).
Proof.
  split.
  - intros v Hv; apply parse_single_filename;
      [now apply is_token_notab|now apply value_token].
  - intros b Hb; apply parse_single_filename; [|now apply value_quoted].
    destruct (quotable_body b Hb) as (_ & _ & _ & T).
    unfold char_in in *; cbn [existsb]; rewrite existsb_app, T; reflexivity.
Qed.

Lemma parse_plain_value_roundtrip_witness :
  parse (s2u "attachment; filename=" ++ s2u "a*b.txt")
  = Ok (s2u "attachment", [mkCD (s2u "filename") (s2u "a*b.txt")])
  /\ parse (s2u "attachment; filename=" ++ DQUOTE :: s2u "a b;c=d.txt" ++ [DQUOTE])
     = Ok (s2u "attachment", [mkCD (s2u "filename") (s2u "a b;c=d.txt")]).
Proof.
  split.
  - apply (proj1 parse_plain_value_roundtrip); split; [discriminate|reflexivity].
  - apply (proj2 parse_plain_value_roundtrip); reflexivity.
Defined.

(** *** Percent-encoded ISO-8859-1 values *)

Lemma below_16 n : n < 16 -> In n (map N.of_nat (seq 0 16)).
Proof.
  intros H; apply in_map_iff; exists (N.to_nat n); split; [apply N2Nat.id|].
  apply in_seq; lia.
Qed.

Lemma hexdigit_ok n :
  n < 16 ->
  char_in (s2u "abcdefABCDEF0123456789") (hexdigit n) = true
  /\ char_in hexdigits (hexdigit n) = true
  /\ hexval (hexdigit n) = n
  /\ char_in token_chars (hexdigit n) = true
  /\ (hexdigit n <=? 127) = true.
Proof.
  intros H; apply below_16 in H.
  assert (F : forallb (fun n =>
                char_in (s2u "abcdefABCDEF0123456789") (hexdigit n)
                && char_in hexdigits (hexdigit n)
                && (hexval (hexdigit n) =? n)
                && char_in token_chars (hexdigit n)
                && (hexdigit n <=? 127)) (map N.of_nat (seq 0 16)) = true)
    by (vm_compute; reflexivity).
  rewrite forallb_forall in F; specialize (F n H).
  rewrite !andb_true_iff, N.eqb_eq in F; tauto.
Qed.

Lemma byte_digits b :
  b < 256 -> b / 16 < 16 /\ b mod 16 < 16 /\ 16 * (b / 16) + b mod 16 = b.
Proof.
  intros H; repeat split.
  - apply N.Div0.div_lt_upper_bound; lia.
  - apply N.mod_lt; lia.
  - symmetry; apply N.div_mod; lia.
Qed.

Lemma unquote_to_bytes_pct bs :
  (forall b, In b bs -> b < 256) -> unquote_to_bytes (pct_encode bs) = bs.
Proof.
  induction bs as [|b bs IH]; intros H; [reflexivity|].
  destruct (byte_digits b (H b (or_introl eq_refl))) as (Hh & Hl & E).
  destruct (hexdigit_ok _ Hh) as (_ & Hh' & Vh & _).
  destruct (hexdigit_ok _ Hl) as (_ & Hl' & Vl & _).
  unfold pct_encode; cbn [flat_map app unquote_to_bytes].
  fold (pct_encode bs); rewrite Hh', Hl', Vh, Vl, E; cbn [N.eqb Pos.eqb andb].
  f_equal; apply IH; intros; apply H; now right.
Qed.

Lemma concat_pct_tokens bs : concat (pct_tokens bs) = pct_encode bs.
Proof.
  induction bs as [|b bs IH]; [reflexivity|].
  unfold pct_tokens, pct_encode in *; cbn [flat_map app concat].
  now rewrite IH.
Qed.

Lemma pct_encode_chars bs :
  (forall b, In b bs -> b < 256) ->
  forallb (char_in token_chars) (pct_encode bs) = true
  /\ forallb (fun c => c <=? 127) (pct_encode bs) = true.
Proof.
  induction bs as [|b bs IH]; intros H; [split; reflexivity|].
  destruct (byte_digits b (H b (or_introl eq_refl))) as (Hh & Hl & _).
  destruct (hexdigit_ok _ Hh) as (_ & _ & _ & Th & Ah).
  destruct (hexdigit_ok _ Hl) as (_ & _ & _ & Tl & Al).
  destruct IH as [IH1 IH2]; [intros; apply H; now right|].
  unfold pct_encode in *; cbn [flat_map app forallb].
  rewrite Th, Tl, Ah, Al, IH1, IH2; split; reflexivity.
Qed.

Lemma runs_ascii s :
  s <> [] -> forallb (fun c => c <=? 127) s = true -> runs s = [(true, s)].
Proof.
  induction s as [|c s IH]; [congruence|]; intros _; cbn [forallb runs].
  intros H; apply andb_true_iff in H as [Hc Hs]; rewrite Hc.
  destruct s as [|d s]; [reflexivity|].
  rewrite (IH ltac:(discriminate) Hs); reflexivity.
Qed.

Lemma not_invalid_iso8859_1 b :
  (32 <= b /\ b <= 126) \/ (160 <= b /\ b <= 255) ->
  char_in INVALID_ISO8859_1_CHARACTERS b = false.
Proof.
  intros H; unfold char_in, INVALID_ISO8859_1_CHARACTERS.
  destruct (existsb _ _) eqn:E; [|reflexivity].
  apply existsb_exists in E as (x & Hin & Hx); apply N.eqb_eq in Hx; subst x.
  apply in_map_iff in Hin as (k & <- & Hk).
  apply in_app_or in Hk as [Hk|Hk]; apply in_seq in Hk; lia.
Qed.

Lemma pct_element h l rest :
  char_in (s2u "abcdefABCDEF0123456789") h = true ->
  char_in (s2u "abcdefABCDEF0123456789") l = true ->
  PP.MatchFirst
    (PP.Word false
       (s2u "!#$&+-.0123456789ABCDEFGHIJKLMNOPQRSTUVWXYZ^_`abcdefghijklmnopqrstuvwxyz|~"))
    (PP.And (PP.Literal false (s2u "%"))
       (PP.Word_exact false (s2u "abcdefABCDEF0123456789") 2))
    (37 :: h :: l :: rest)
  = Some (PP.mkPR [[37]; [h; l]] [], rest).
Proof.
  intros Xh Xl.
  assert (Hw : PP.Word_exact false (s2u "abcdefABCDEF0123456789") 2 (h :: l :: rest)
               = Some (PP.tok [h; l], rest)).
  { unfold PP.Word_exact; cbn [PP.preParse firstn skipn length Nat.eqb forallb].
    now rewrite Xh, Xl. }
  apply MatchFirst_r; [reflexivity|].
  exact (And_intro _ _ _ _ _ _ _ (Literal1_cons false 37 _ eq_refl) Hw).
Qed.

(** The repetition in [ext_value] reads a percent-encoded string to its
    end, two tokens for every byte. *)
Lemma many_pct_encode bs :
  (forall b, In b bs -> b < 256) ->
  forall fuel acc,
    (length (pct_encode bs) <= fuel)%nat ->
    PP.many fuel
      (PP.MatchFirst
         (PP.Word false
            (s2u "!#$&+-.0123456789ABCDEFGHIJKLMNOPQRSTUVWXYZ^_`abcdefghijklmnopqrstuvwxyz|~"))
         (PP.And (PP.Literal false (s2u "%"))
            (PP.Word_exact false (s2u "abcdefABCDEF0123456789") 2)))
      acc (pct_encode bs)
    = (PP.mkPR (PP.toklist acc ++ pct_tokens bs) (PP.tokdict acc), []).
Proof.
  induction bs as [|b bs IH]; intros H fuel acc Hf.
  - destruct acc as [tl td]; cbn [pct_encode pct_tokens flat_map PP.toklist PP.tokdict].
    rewrite app_nil_r; destruct fuel; reflexivity.
  - destruct (byte_digits b (H b (or_introl eq_refl))) as (Hh & Hl & _).
    destruct (hexdigit_ok _ Hh) as (Xh & _).
    destruct (hexdigit_ok _ Hl) as (Xl & _).
    assert (Hb : pct_encode (b :: bs)
                 = 37 :: hexdigit (b / 16) :: hexdigit (b mod 16) :: pct_encode bs)
      by reflexivity.
    rewrite Hb in *; cbn [length] in Hf.
    destruct fuel as [|fuel]; [lia|].
    rewrite many_step by apply repeated_elements_shrink.
    rewrite (pct_element _ _ _ Xh Xl).
    rewrite IH; [|intros; apply H; now right|lia].
    cbn [PP.add PP.toklist PP.tokdict pct_tokens flat_map app].
    now rewrite <- app_assoc, app_nil_r.
Qed.

Lemma ext_value_iso bs :
  bs <> [] -> (forall b, In b bs -> b < 256) ->
  Grammar.ext_value (s2u "ISO-8859-1''" ++ pct_encode bs)
  = Some (PP.mkPR [s2u "ISO-8859-1''" ++ pct_encode bs]
            [("encoding"%string, [s2u "ISO-8859-1"]);
             ("value"%string, pct_tokens bs)], []).
Proof.
  intros Hne H; unfold Grammar.ext_value, PP.Combine.
  change (PP.skip_white (s2u "ISO-8859-1''" ++ pct_encode bs))
    with (s2u "ISO-8859-1''" ++ pct_encode bs).
  match goal with
  | |- match PP.And (PP.And ?a (PP.Literal false ?m)) ?v ?s with _ => _ end = _ =>
      assert (H1 : a s = Some (PP.mkPR [s2u "ISO-8859-1"; s2u "'"]
                                 [("encoding"%string, [s2u "ISO-8859-1"])],
                               s2u "'" ++ pct_encode bs))
        by (vm_compute; reflexivity);
      assert (H3 : v (pct_encode bs)
                   = Some (PP.mkPR (pct_tokens bs)
                             [("value"%string, pct_tokens bs)], []))
  end.
  { destruct bs as [|b bs]; [congruence|].
    unfold PP.set_results_name, PP.OneOrMore.
    destruct (byte_digits b (H b (or_introl eq_refl))) as (Hh & Hl & _).
    destruct (hexdigit_ok _ Hh) as (Xh & _).
    destruct (hexdigit_ok _ Hl) as (Xl & _).
    assert (Hb : pct_encode (b :: bs)
                 = 37 :: hexdigit (b / 16) :: hexdigit (b mod 16) :: pct_encode bs)
      by reflexivity.
    rewrite Hb.
    rewrite (pct_element _ _ _ Xh Xl).
    rewrite many_pct_encode; [reflexivity|intros; apply H; now right|lia]. }
  pose proof (Literal1_cons false 39 (pct_encode bs) eq_refl) as H2.
  rewrite (And_intro _ _ _ _ _ _ _
             (And_intro _ (PP.Literal false (s2u "'")) _ _ _ _ _ H1 H2) H3).
  cbn [PP.add PP.toklist PP.tokdict PP.tok app concat].
  rewrite concat_pct_tokens; reflexivity.
Qed.

Lemma parse_single_filename_star V v cd :
  char_in V 9 = false ->
  Grammar.value V = Some (PP.tok v, []) ->
  entry [s2u "filename*"; s2u "="] [v] = Ok (Some cd) ->
  parse (s2u "attachment; filename*=" ++ V) = Ok (s2u "attachment", [cd]).
Proof.
  intros HT HV He; unfold parse, PP.parse_string, expandtabs.
  rewrite expandtabs_notab
    by (unfold char_in in *; rewrite existsb_app, HT; reflexivity).
  rewrite (tokenize_filename_star V v HV); cbn [PP.skip_white].
  destruct (header_dict_get (s2u "attachment") [(s2u "filename*", v)]
              (PP.mkPR [s2u "attachment"; s2u ";"; s2u "filename*"; s2u "="; v]
                 (header_dict (s2u "attachment") [(s2u "filename*", v)]))
              eq_refl) as (-> & -> & ->).
  cbn [map combine fst snd]; rewrite parse_parms_cons, He; reflexivity.
Qed.

Lemma entry_iso bs :
  bs <> [] ->
  (forall b, In b bs -> (32 <= b /\ b <= 126) \/ (160 <= b /\ b <= 255)) ->
  entry [s2u "filename*"; s2u "="] [s2u "ISO-8859-1''" ++ pct_encode bs]
  = Ok (Some (mkCD (s2u "filename*") bs)).
Proof.
  intros Hne Hb.
  assert (H256 : forall b, In b bs -> b < 256) by (intros b Hin; apply Hb in Hin; lia).
  destruct (pct_encode_chars bs H256) as [Htok Hascii].
  assert (HV : is_token (s2u "ISO-8859-1''" ++ pct_encode bs)).
  { split; [discriminate|]. rewrite forallb_app, Htok; reflexivity. }
  assert (Hpne : pct_encode bs <> [])
    by (destruct bs; [congruence|discriminate]).
  unfold entry.
  replace (endswith _ _) with true by reflexivity.
  cbn [concat]; rewrite app_nil_r.
  unfold PP.parse_string, expandtabs.
  rewrite (expandtabs_notab _ (is_token_notab _ HV)).
  rewrite (ext_value_iso bs Hne H256); cbn [PP.skip_white].
  replace (PP.contains _ "encoding") with true by reflexivity.
  replace (PP.get_last _ "encoding") with (Some [s2u "ISO-8859-1"])
    by reflexivity.
  replace (PP.get_last _ "value") with (Some (pct_tokens bs)) by reflexivity.
  cbn [negb]; rewrite concat_pct_tokens.
  replace (lower (concat [s2u "ISO-8859-1"])) with (s2u "iso-8859-1")
    by reflexivity.
  unfold unquote.
  replace (char_in (pct_encode bs) 37) with true
    by (destruct bs; [congruence|reflexivity]).
  cbn [negb]; rewrite (runs_ascii _ Hpne Hascii); cbn [unquote_parts].
  rewrite (unquote_to_bytes_pct bs H256).
  replace (decode (s2u "iso-8859-1") bs) with (Ok bs) by reflexivity.
  rewrite app_nil_r, str_eqb_refl; cbn [andb].
  replace (existsb _ bs) with false; [reflexivity|].
  symmetry; clear -Hb; induction bs as [|b bs IH]; [reflexivity|].
  cbn [existsb]; rewrite (not_invalid_iso8859_1 b (Hb b (or_introl eq_refl))).
  apply IH; intros; apply Hb; now right.
Qed.

(** A non-empty string of ISO-8859-1 characters that are not control
    characters, sent percent-encoded under the charset [ISO-8859-1], is the
    value [parse] returns. *)
Theorem parse_iso_8859_1_roundtrip (bs : list N) :
  bs <> [] ->
  (forall b, In b bs -> (32 <= b /\ b <= 126) \/ (160 <= b /\ b <= 255)) ->
  parse (s2u "attachment; filename*=ISO-8859-1''" ++ pct_encode bs)
  = Ok (s2u "attachment", [mkCD (s2u "filename*") bs]).
Proof.
  intros Hne Hb.
  assert (H256 : forall b, In b bs -> b < 256) by (intros b Hin; apply Hb in Hin; lia).
  destruct (pct_encode_chars bs H256) as [Htok _].
  assert (HV : is_token (s2u "ISO-8859-1''" ++ pct_encode bs)).
  { split; [discriminate|]. rewrite forallb_app, Htok; reflexivity. }
  change (s2u "attachment; filename*=ISO-8859-1''" ++ pct_encode bs)
    with (s2u "attachment; filename*=" ++ (s2u "ISO-8859-1''" ++ pct_encode bs)).
  apply (parse_single_filename_star _ _ _ (is_token_notab _ HV)
           (value_token _ HV) (entry_iso bs Hne Hb)).
Qed.

Lemma parse_iso_8859_1_roundtrip_witness :
  parse (s2u "attachment; filename*=ISO-8859-1''" ++ pct_encode [233; 116; 233; 46; 47])
  = Ok (s2u "attachment", [mkCD (s2u "filename*") [233; 116; 233; 46; 47]]).
Proof.
  apply parse_iso_8859_1_roundtrip; [discriminate|].
  intros b [<-|[<-|[<-|[<-|[<-|[]]]]]]; lia.
Defined.

(** *** Percent-encoded UTF-8 values *)

Local Ltac Zify.zify_post_hook ::= Z.to_euclidean_division_equations.

Local Ltac btest :=
  unfold between, is_cont;
  repeat match goal with
         | |- context [?a =? ?b] => destruct (N.eqb_spec a b)
         end;
  rewrite ?andb_true_iff, ?andb_false_iff, ?N.leb_le, ?N.ltb_lt, ?N.leb_gt,
    ?N.ltb_ge;
  lia.

Lemma utf8_decode_2 a l rest :
  2 <= a -> a < 32 -> l < 64 ->
  utf8_decode (192 + a :: 128 + l :: rest)
  = option_map (cons (a * 64 + l)) (utf8_decode rest).
Proof.
  intros.
  assert (T1 : (192 + a <? 128) = false) by btest.
  assert (T2 : between 194 (192 + a) 223 = true) by btest.
  assert (T3 : is_cont (128 + l) = true) by btest.
  cbn [utf8_decode]; rewrite T1, T2, T3.
  do 2 f_equal; lia.
Qed.

Lemma utf8_decode_3 a m l rest :
  a < 16 -> m < 64 -> l < 64 -> (a = 0 -> 32 <= m) -> (a = 13 -> m < 32) ->
  utf8_decode (224 + a :: 128 + m :: 128 + l :: rest)
  = option_map (cons (a * 4096 + m * 64 + l)) (utf8_decode rest).
Proof.
  intros.
  assert (T1 : (224 + a <? 128) = false) by btest.
  assert (T2 : between 194 (224 + a) 223 = false) by btest.
  assert (T3 : between 224 (224 + a) 239 = true) by btest.
  assert (T4 : between (if 224 + a =? 224 then 160 else 128) (128 + m)
                 (if 224 + a =? 237 then 159 else 191) = true) by btest.
  assert (T5 : is_cont (128 + l) = true) by btest.
  cbn [utf8_decode]; rewrite T1, T2, T3, T4, T5; cbn [andb].
  do 2 f_equal; lia.
Qed.

Lemma utf8_decode_4 a h m l rest :
  a < 5 -> h < 64 -> m < 64 -> l < 64 ->
  (a = 0 -> 16 <= h) -> (a = 4 -> h < 16) ->
  utf8_decode (240 + a :: 128 + h :: 128 + m :: 128 + l :: rest)
  = option_map (cons (a * 262144 + h * 4096 + m * 64 + l)) (utf8_decode rest).
Proof.
  intros.
  assert (T1 : (240 + a <? 128) = false) by btest.
  assert (T2 : between 194 (240 + a) 223 = false) by btest.
  assert (T3 : between 224 (240 + a) 239 = false) by btest.
  assert (T4 : between 240 (240 + a) 244 = true) by btest.
  assert (T5 : between (if 240 + a =? 240 then 144 else 128) (128 + h)
                 (if 240 + a =? 244 then 143 else 191) = true) by btest.
  assert (T6 : is_cont (128 + m) = true) by btest.
  assert (T7 : is_cont (128 + l) = true) by btest.
  cbn [utf8_decode]; rewrite T1, T2, T3, T4, T5, T6, T7; cbn [andb].
  do 2 f_equal; lia.
Qed.

Lemma utf8_decode_encode_char c rest :
  scalar_value c ->
  utf8_decode (utf8_encode_char c ++ rest)
  = option_map (cons c) (utf8_decode rest).
Proof.
  unfold scalar_value, utf8_encode_char; intros Hc.
  destruct (N.ltb_spec c 128) as [H1|H1].
  - cbn [app utf8_decode]; destruct (N.ltb_spec c 128); [reflexivity|lia].
  - destruct (N.ltb_spec c 2048) as [H2|H2];
      [|destruct (N.ltb_spec c 65536) as [H3|H3]]; cbn [app].
    + rewrite utf8_decode_2 by lia. do 2 f_equal; lia.
    + rewrite utf8_decode_3 by lia. do 2 f_equal; lia.
    + rewrite utf8_decode_4 by lia. do 2 f_equal; lia.
Qed.

Lemma utf8_encode_char_bytes c b :
  scalar_value c -> In b (utf8_encode_char c) -> b < 256.
Proof.
  unfold scalar_value, utf8_encode_char; intros Hc.
  destruct (N.ltb_spec c 128); [|destruct (N.ltb_spec c 2048);
    [|destruct (N.ltb_spec c 65536)]]; cbn [In]; intros Hin;
    repeat (destruct Hin as [<-|Hin]; [lia|]); destruct Hin.
Qed.

Lemma utf8_decode_encode s :
  (forall c, In c s -> scalar_value c) -> utf8_decode (utf8_encode s) = Some s.
Proof.
  induction s as [|c s IH]; intros H; [reflexivity|].
  unfold utf8_encode; cbn [flat_map]; fold (utf8_encode s).
  rewrite utf8_decode_encode_char by (apply H; now left).
  rewrite IH by (intros; apply H; now right); reflexivity.
Qed.

Lemma utf8_encode_bytes s b :
  (forall c, In c s -> scalar_value c) -> In b (utf8_encode s) -> b < 256.
Proof.
  intros H Hin; apply in_flat_map in Hin as (c & Hc & Hb).
  eapply utf8_encode_char_bytes; eauto.
Qed.

Lemma utf8_encode_nonempty s : s <> [] -> utf8_encode s <> [].
Proof.
  destruct s as [|c s]; [congruence|]; intros _.
  unfold utf8_encode; cbn [flat_map]; unfold utf8_encode_char.
  destruct (c <? 128); [discriminate|].
  destruct (c <? 2048); [discriminate|].
  destruct (c <? 65536); discriminate.
Qed.

Lemma ext_value_utf8 bs :
  bs <> [] -> (forall b, In b bs -> b < 256) ->
  Grammar.ext_value (s2u "UTF-8''" ++ pct_encode bs)
  = Some (PP.mkPR [s2u "UTF-8''" ++ pct_encode bs]
            [("encoding"%string, [s2u "UTF-8"]);
             ("value"%string, pct_tokens bs)], []).
Proof.
  intros Hne H; unfold Grammar.ext_value, PP.Combine.
  change (PP.skip_white (s2u "UTF-8''" ++ pct_encode bs))
    with (s2u "UTF-8''" ++ pct_encode bs).
  match goal with
  | |- match PP.And (PP.And ?a (PP.Literal false ?m)) ?v ?s with _ => _ end = _ =>
      assert (H1 : a s = Some (PP.mkPR [s2u "UTF-8"; s2u "'"]
                                 [("encoding"%string, [s2u "UTF-8"])],
                               s2u "'" ++ pct_encode bs))
        by (vm_compute; reflexivity);
      assert (H3 : v (pct_encode bs)
                   = Some (PP.mkPR (pct_tokens bs)
                             [("value"%string, pct_tokens bs)], []))
  end.
  { destruct bs as [|b bs]; [congruence|].
    unfold PP.set_results_name, PP.OneOrMore.
    destruct (byte_digits b (H b (or_introl eq_refl))) as (Hh & Hl & _).
    destruct (hexdigit_ok _ Hh) as (Xh & _).
    destruct (hexdigit_ok _ Hl) as (Xl & _).
    assert (Hb : pct_encode (b :: bs)
                 = 37 :: hexdigit (b / 16) :: hexdigit (b mod 16) :: pct_encode bs)
      by reflexivity.
    rewrite Hb, (pct_element _ _ _ Xh Xl).
    rewrite many_pct_encode; [reflexivity|intros; apply H; now right|lia]. }
  pose proof (Literal1_cons false 39 (pct_encode bs) eq_refl) as H2.
  rewrite (And_intro _ _ _ _ _ _ _
             (And_intro _ (PP.Literal false (s2u "'")) _ _ _ _ _ H1 H2) H3).
  cbn [PP.add PP.toklist PP.tokdict PP.tok app concat].
  rewrite concat_pct_tokens; reflexivity.
Qed.

Lemma entry_utf8 s :
  s <> [] -> (forall c, In c s -> scalar_value c) ->
  entry [s2u "filename*"; s2u "="]
    [s2u "UTF-8''" ++ pct_encode (utf8_encode s)]
  = Ok (Some (mkCD (s2u "filename*") s)).
Proof.
  intros Hne Hs; set (bs := utf8_encode s).
  assert (H256 : forall b, In b bs -> b < 256)
    by (intros b; apply utf8_encode_bytes, Hs).
  assert (Hbne : bs <> []) by (now apply utf8_encode_nonempty).
  destruct (pct_encode_chars bs H256) as [Htok Hascii].
  assert (HV : is_token (s2u "UTF-8''" ++ pct_encode bs)).
  { split; [discriminate|]. rewrite forallb_app, Htok; reflexivity. }
  assert (Hpne : pct_encode bs <> [])
    by (destruct bs; [congruence|discriminate]).
  unfold entry.
  replace (endswith _ _) with true by reflexivity.
  cbn [concat]; rewrite app_nil_r.
  unfold PP.parse_string, expandtabs.
  rewrite (expandtabs_notab _ (is_token_notab _ HV)).
  rewrite (ext_value_utf8 bs Hbne H256); cbn [PP.skip_white].
  replace (PP.contains _ "encoding") with true by reflexivity.
  replace (PP.get_last _ "encoding") with (Some [s2u "UTF-8"]) by reflexivity.
  replace (PP.get_last _ "value") with (Some (pct_tokens bs)) by reflexivity.
  cbn [negb]; rewrite concat_pct_tokens.
  replace (lower (concat [s2u "UTF-8"])) with (s2u "utf-8") by reflexivity.
  unfold unquote.
  replace (char_in (pct_encode bs) 37) with true
    by (destruct bs; [congruence|reflexivity]).
  cbn [negb]; rewrite (runs_ascii _ Hpne Hascii); cbn [unquote_parts].
  rewrite (unquote_to_bytes_pct bs H256).
  replace (decode (s2u "utf-8") bs) with (Ok s)
    by (unfold decode, bs; rewrite str_eqb_refl, (utf8_decode_encode s Hs);
        reflexivity).
  rewrite app_nil_r.
  replace (str_eqb (s2u "utf-8") (s2u "iso-8859-1")) with false by reflexivity.
  reflexivity.
Qed.

(** A non-empty string of Unicode scalar values, sent as the percent-encoded
    bytes of its UTF-8 encoding under the charset [UTF-8], is the value
    [parse] returns, control characters included. *)
Theorem parse_utf8_roundtrip (s : pystr) :
  s <> [] -> (forall c, In c s -> scalar_value c) ->
  parse (s2u "attachment; filename*=UTF-8''" ++ pct_encode (utf8_encode s))
  = Ok (s2u "attachment", [mkCD (s2u "filename*") s]).
Proof.
  intros Hne Hs.
  assert (H256 : forall b, In b (utf8_encode s) -> b < 256)
    by (intros b; apply utf8_encode_bytes, Hs).
  destruct (pct_encode_chars _ H256) as [Htok _].
  assert (HV : is_token (s2u "UTF-8''" ++ pct_encode (utf8_encode s))).
  { split; [discriminate|]. rewrite forallb_app, Htok; reflexivity. }
  change (s2u "attachment; filename*=UTF-8''" ++ pct_encode (utf8_encode s))
    with (s2u "attachment; filename*="
          ++ (s2u "UTF-8''" ++ pct_encode (utf8_encode s))).
  apply (parse_single_filename_star _ _ _ (is_token_notab _ HV)
           (value_token _ HV) (entry_utf8 s Hne Hs)).
Qed.

Lemma parse_utf8_roundtrip_witness :
  parse (s2u "attachment; filename*=UTF-8''"
         ++ pct_encode (utf8_encode [8364; 32; 233; 128512; 1]))
  = Ok (s2u "attachment", [mkCD (s2u "filename*") [8364; 32; 233; 128512; 1]]).
Proof.
  apply parse_utf8_roundtrip; [discriminate|].
  unfold scalar_value; intros c [<-|[<-|[<-|[<-|[<-|[]]]]]]; lia.
Defined.

(** ** The letter case of the disposition type *)

Lemma upper_is_lower c : upper_is c (upper_ascii_char (lower_char c)) = true.
Proof.
  unfold upper_is, upper_ascii_char, lower_char, is_lower_ascii, is_upper_ascii.
  destruct (N.leb_spec 65 c), (N.leb_spec c 90); cbn [andb].
  2-4: destruct (N.leb_spec 97 c), (N.leb_spec c 122); cbn [andb].
  1: destruct (N.leb_spec 97 (c + 32)), (N.leb_spec (c + 32) 122); cbn [andb];
       try lia.
  all: rewrite ?N.eqb_refl; cbn [orb]; try reflexivity.
  all: repeat match goal with
              | |- context [?a <=? ?b] => destruct (N.leb_spec a b); try lia
              end; cbn [andb orb].
  all: repeat match goal with
              | |- context [?a =? ?b] => destruct (N.eqb_spec a b); try lia
              end; try reflexivity.
Qed.

Lemma caseless_prefix_lower t R :
  PP.caseless_prefix (t ++ R) (lower t) = true.
Proof.
  unfold lower; induction t as [|c t IH]; [now destruct R|].
  cbn [app map PP.caseless_prefix]; now rewrite upper_is_lower, IH.
Qed.

Lemma lower_letter_not_white c p :
  lower_char c = p -> is_lower_ascii p = true ->
  PP.is_white c = false /\ (c =? 9) = false /\ ((c =? 10) || (c =? 13)) = false
  /\ upper_is c 73 = (p =? 105).
Proof.
  unfold lower_char, is_lower_ascii, is_upper_ascii, PP.is_white, upper_is.
  intros <- H; apply andb_true_iff in H as [H1 H2].
  destruct (N.leb_spec 65 c), (N.leb_spec c 90); cbn [andb] in *;
    apply N.leb_le in H1, H2.
  all: repeat match goal with
              | |- context [?a =? ?b] => destruct (N.eqb_spec a b); try lia
              end; cbn [andb orb]; repeat split; reflexivity.
Qed.

(** The disposition type of a header that starts with [inline] or
    [attachment] in any letter case. *)
Lemma disposition_type_caseless t R :
  lower t = s2u "inline" \/ lower t = s2u "attachment" ->
  Grammar.disposition_type (t ++ R) = Some (PP.tok (lower t), R)
  /\ expandtabs_from 0 (t ++ R) = t ++ expandtabs_from (length t) R.
Proof.
  intros Hm.
  assert (Hlen : length t = length (lower t)) by (unfold lower; now rewrite length_map).
  assert (Hskip : skipn (length (lower t)) (t ++ R) = R)
    by (rewrite <- Hlen, skipn_app, skipn_all, Nat.sub_diag; reflexivity).
  assert (Hletters : forallb is_lower_ascii (lower t) = true)
    by (destruct Hm as [-> | ->]; reflexivity).
  assert (Hplain : forall col,
             expandtabs_from col (t ++ R) = t ++ expandtabs_from (col + length t) R).
  { clear -Hletters; induction t as [|c t IH]; intros col.
    - cbn [app length]; now rewrite Nat.add_0_r.
    - cbn [lower map forallb] in Hletters.
      apply andb_true_iff in Hletters as [Hc Ht].
      destruct (lower_letter_not_white c _ eq_refl Hc) as (_ & H9 & H10 & _).
      cbn [app expandtabs_from length]; rewrite H9, H10, (IH Ht).
      now rewrite Nat.add_succ_r. }
  split; [|exact (Hplain 0%nat)].
  unfold Grammar.disposition_type, PP.MatchFirst, PP.CaselessLiteral, PP.preParse.
  destruct t as [|c t]; [destruct Hm; discriminate|].
  cbn [lower map forallb] in Hletters.
  apply andb_true_iff in Hletters as [Hc _].
  destruct (lower_letter_not_white c _ eq_refl Hc) as (Hw & _ & _ & HI).
  rewrite <- app_comm_cons, (skip_white_nonwhite c (t ++ R) Hw), app_comm_cons.
  destruct Hm as [Hm|Hm].
  - pose proof (caseless_prefix_lower (c :: t) R) as P; rewrite Hm in *.
    now rewrite P, Hskip.
  - replace (PP.caseless_prefix ((c :: t) ++ R) (s2u "inline")) with false.
    + pose proof (caseless_prefix_lower (c :: t) R) as P; rewrite Hm in *.
      now rewrite P, Hskip.
    + cbn [app s2u list_ascii_of_string map PP.caseless_prefix].
      change (upper_ascii_char (N_of_ascii "i")) with 73.
      inversion Hm as [[Hc0 Ht0]]; rewrite HI, Hc0; reflexivity.
Qed.

(** The letter case of a disposition type [inline] or [attachment] does
    not matter: [parse] returns what it returns for the lower-case type, and
    the type it returns is the lower-case type. *)
Theorem parse_type_caseless (t rest : pystr) :
  lower t = s2u "inline" \/ lower t = s2u "attachment" ->
  parse (t ++ rest) = parse (lower t ++ rest)
  /\ (forall ty l, parse (t ++ rest) = Ok (ty, l) -> ty = lower t)
  /\ parse_filename (t ++ rest) true = parse_filename (t ++ rest) false.
Proof.
  intros Hm.
  assert (Hm' : lower (lower t) = s2u "inline" \/ lower (lower t) = s2u "attachment")
    by (now rewrite lower_idem).
  assert (Hlen : length (lower t) = length t) by (unfold lower; now rewrite length_map).
  assert (Heq : parse (t ++ rest) = parse (lower t ++ rest)).
  { unfold parse, PP.parse_string, expandtabs.
    rewrite (proj2 (disposition_type_caseless t rest Hm)).
    rewrite (proj2 (disposition_type_caseless (lower t) rest Hm')), Hlen.
    unfold Grammar.header_parser, PP.And, PP.set_results_name.
    rewrite (proj1 (disposition_type_caseless t _ Hm)).
    rewrite (proj1 (disposition_type_caseless (lower t) _ Hm')), lower_idem.
    reflexivity. }
  assert (Hty : forall ty l, parse (t ++ rest) = Ok (ty, l) -> ty = lower t).
  { intros ty l; unfold parse.
    destruct (PP.parse_string _ _) as [r|] eqn:P; [|discriminate].
    unfold PP.parse_string, expandtabs in P.
    rewrite (proj2 (disposition_type_caseless t rest Hm)) in P.
    destruct (Grammar.header_parser _) as [[r0 s0]|] eqn:Hh; [|discriminate].
    destruct (PP.skip_white s0); [|discriminate]; inversion P; subst r0; clear P.
    pose proof (header_parser_shape _ _ _ Hh) as (t' & pvs & Hd & _ & _).
    destruct (header_dict_get _ _ _ Hd) as (Hg & _ & _); rewrite Hg; clear Hg.
    unfold Grammar.header_parser in Hh.
    apply And_inv in Hh as (r1 & s1 & ro & Hh & _ & ->).
    apply And_inv in Hh as (rt & s2 & rz & Ht & _ & ->).
    apply set_results_name_inv in Ht as (t0 & Ht & _ & Htd).
    rewrite (proj1 (disposition_type_caseless t _ Hm)) in Ht.
    inversion Ht; subst t0; simpl in Htd, Hd.
    rewrite Htd in Hd; unfold header_dict in Hd; simpl in Hd.
    injection Hd as Ht' _; subst t'.
    destruct (parse_parms _ _ _); [|discriminate].
    intros H; inversion H; cbn [concat]; rewrite app_nil_r; apply lower_idem. }
  split; [exact Heq|split; [exact Hty|]].
  destruct (parse (t ++ rest)) as [[ty l]|e] eqn:P.
  - apply (proj2 (parse_filename_enforce (t ++ rest)) ty l P).
    rewrite (Hty ty l eq_refl); destruct Hm as [-> | ->]; auto.
  - unfold parse_filename; now rewrite P.
Qed.

Lemma parse_type_caseless_witness :
  parse (s2u "AttachMENT" ++ s2u "; filename=x")
  = parse (lower (s2u "AttachMENT") ++ s2u "; filename=x")
  /\ parse_filename (s2u "AttachMENT" ++ s2u "; filename=x") true
     = parse_filename (s2u "AttachMENT" ++ s2u "; filename=x") false.
Proof.
  destruct (parse_type_caseless (s2u "AttachMENT") (s2u "; filename=x"))
    as (H1 & _ & H3); [right; reflexivity|].
  split; assumption.
Defined.

(** ** Invalid UTF-8 and escaped quotes *)

Lemma parse_single_filename_star_raises V v e :
  char_in V 9 = false ->
  Grammar.value V = Some (PP.tok v, []) ->
  entry [s2u "filename*"; s2u "="] [v] = Raise e ->
  parse (s2u "attachment; filename*=" ++ V) = Raise e.
Proof.
  intros HT HV He; unfold parse, PP.parse_string, expandtabs.
  rewrite expandtabs_notab
    by (unfold char_in in *; rewrite existsb_app, HT; reflexivity).
  rewrite (tokenize_filename_star V v HV); cbn [PP.skip_white].
  destruct (header_dict_get (s2u "attachment") [(s2u "filename*", v)]
              (PP.mkPR [s2u "attachment"; s2u ";"; s2u "filename*"; s2u "="; v]
                 (header_dict (s2u "attachment") [(s2u "filename*", v)]))
              eq_refl) as (-> & -> & ->).
  cbn [map combine fst snd]; rewrite parse_parms_cons, He; reflexivity.
Qed.

Lemma entry_utf8_bytes bs :
  bs <> [] -> (forall b, In b bs -> b < 256) ->
  entry [s2u "filename*"; s2u "="] [s2u "UTF-8''" ++ pct_encode bs]
  = match utf8_decode bs with
    | Some s => Ok (Some (mkCD (s2u "filename*") s))
    | None => Raise InvalidEncoding
    end.
Proof.
  intros Hbne H256.
  destruct (pct_encode_chars bs H256) as [Htok Hascii].
  assert (HV : is_token (s2u "UTF-8''" ++ pct_encode bs)).
  { split; [discriminate|]. rewrite forallb_app, Htok; reflexivity. }
  assert (Hpne : pct_encode bs <> [])
    by (destruct bs; [congruence|discriminate]).
  unfold entry.
  replace (endswith _ _) with true by reflexivity.
  cbn [concat]; rewrite app_nil_r.
  unfold PP.parse_string, expandtabs.
  rewrite (expandtabs_notab _ (is_token_notab _ HV)).
  rewrite (ext_value_utf8 bs Hbne H256); cbn [PP.skip_white].
  replace (PP.contains _ "encoding") with true by reflexivity.
  replace (PP.get_last _ "encoding") with (Some [s2u "UTF-8"]) by reflexivity.
  replace (PP.get_last _ "value") with (Some (pct_tokens bs)) by reflexivity.
  cbn [negb]; rewrite concat_pct_tokens.
  replace (lower (concat [s2u "UTF-8"])) with (s2u "utf-8") by reflexivity.
  unfold unquote.
  replace (char_in (pct_encode bs) 37) with true
    by (destruct bs; [congruence|reflexivity]).
  cbn [negb]; rewrite (runs_ascii _ Hpne Hascii); cbn [unquote_parts].
  rewrite (unquote_to_bytes_pct bs H256).
  unfold decode; rewrite str_eqb_refl.
  destruct (utf8_decode bs) as [s|]; [|reflexivity].
  rewrite app_nil_r.
  replace (str_eqb (s2u "utf-8") (s2u "iso-8859-1")) with false by reflexivity.
  reflexivity.
Qed.

(** Percent-encoded bytes that are not valid UTF-8, sent under the charset
    [UTF-8], make [parse] raise [ParseException]: a continuation byte
    without its lead byte, a lead byte without its continuation, and the
    bytes C0, C1 and F5 to FF wherever they start a character. *)
Theorem parse_invalid_utf8_raises :
  (forall bs, bs <> [] -> (forall b, In b bs -> b < 256) ->
              utf8_decode bs = None ->
              parse (s2u "attachment; filename*=UTF-8''" ++ pct_encode bs)
              = Raise InvalidEncoding)
  /\ (forall b rest, 128 <= b -> b <= 193 \/ 245 <= b ->
                     utf8_decode (b :: rest) = None)
  /\ (forall b, 128 <= b -> utf8_decode [b] = None).
Proof.
  split; [|split].
  - intros bs Hne H256 Hd.
    destruct (pct_encode_chars _ H256) as [Htok _].
    assert (HV : is_token (s2u "UTF-8''" ++ pct_encode bs)).
    { split; [discriminate|]. rewrite forallb_app, Htok; reflexivity. }
    change (s2u "attachment; filename*=UTF-8''" ++ pct_encode bs)
      with (s2u "attachment; filename*=" ++ (s2u "UTF-8''" ++ pct_encode bs)).
    pose proof (entry_utf8_bytes bs Hne H256) as He; rewrite Hd in He.
    apply (parse_single_filename_star_raises _ _ _ (is_token_notab _ HV)
             (value_token _ HV) He).
  - intros b rest H1 H2.
    assert (T1 : (b <? 128) = false) by btest.
    assert (T2 : between 194 b 223 = false) by btest.
    assert (T3 : between 224 b 239 = false) by btest.
    assert (T4 : between 240 b 244 = false) by btest.
    cbn [utf8_decode]; rewrite T1, T2, T3, T4; cbn [andb].
    destruct rest as [|b1 [|b2 [|b3 t]]]; reflexivity.
  - intros b H1.
    assert (T1 : (b <? 128) = false) by btest.
    cbn [utf8_decode]; now rewrite T1.
Qed.

Lemma parse_invalid_utf8_raises_witness :
  parse (s2u "attachment; filename*=UTF-8''" ++ pct_encode [97; 255; 98])
  = Raise InvalidEncoding
  /\ utf8_decode [192; 128] = None
  /\ utf8_decode [226] = None.
Proof.
  destruct parse_invalid_utf8_raises as (H1 & H2 & H3).
  split; [|split].
  - apply H1; [discriminate| |reflexivity].
    intros b [<-|[<-|[<-|[]]]]; lia.
  - apply H2; lia.
  - apply H3; lia.
Defined.

Lemma escaped_body s :
  forallb (fun c => negb (char_in [BACKSLASH; 10; 13; 9] c)) s = true ->
  PP.quoted_body (escape_quotes s ++ [DQUOTE]) = Some (escape_quotes s, [])
  /\ PP.unescape (escape_quotes s) = s
  /\ PP.replace_esc_quote s = s
  /\ char_in (escape_quotes s) 9 = false.
Proof.
  induction s as [|c s IH]; [repeat split; reflexivity|]; cbn [forallb].
  intros H; apply andb_true_iff in H as [Hc Hs].
  destruct (IH Hs) as (Q & U & R & T).
  unfold char_in in Hc; cbn [existsb] in Hc.
  apply negb_true_iff in Hc; rewrite !orb_false_iff in Hc.
  destruct Hc as (H92 & H10 & H13 & H9 & _).
  unfold escape_quotes in *; cbn [flat_map].
  destruct (N.eqb_spec c DQUOTE) as [->|H34].
  - repeat split.
    + cbn [app PP.quoted_body]; cbn; now rewrite Q.
    + cbn [app PP.unescape]; cbn; now rewrite U.
    + cbn [PP.replace_esc_quote]; rewrite R; now destruct s.
    + unfold char_in in *; cbn [app existsb]; cbn; exact T.
  - apply N.eqb_neq in H34; repeat split.
    + cbn [app PP.quoted_body]; now rewrite H34, H92, H10, H13, Q.
    + cbn [app PP.unescape]; now rewrite H92, U.
    + cbn [PP.replace_esc_quote]; rewrite H92, R; now destruct s.
    + unfold char_in in *; cbn [app existsb]; rewrite T, N.eqb_sym, H9.
      reflexivity.
Qed.

(** A value without backslash, line feed, carriage return and tab, sent
    between quotes with every double quote escaped by a backslash, is the
    value [parse] returns. *)
Theorem parse_escaped_quotes_roundtrip (s : pystr) :
  forallb (fun c => negb (char_in [BACKSLASH; 10; 13; 9] c)) s = true ->
  parse (s2u "attachment; filename=" ++ DQUOTE :: escape_quotes s ++ [DQUOTE])
  = Ok (s2u "attachment", [mkCD (s2u "filename") s]).
Proof.
  intros H; destruct (escaped_body s H) as (Q & U & R & T).
  apply parse_single_filename.
  - unfold char_in in *; cbn [existsb]; rewrite existsb_app, T; reflexivity.
  - apply MatchFirst_r; [reflexivity|].
    unfold PP.QuotedString; cbn [PP.preParse PP.skip_white PP.is_white].
    cbn; rewrite Q, U, R; reflexivity.
Qed.

Lemma parse_escaped_quotes_roundtrip_witness :
  parse (s2u "attachment; filename="
         ++ DQUOTE :: escape_quotes (DQUOTE :: s2u "a" ++ DQUOTE :: s2u " b.txt")
         ++ [DQUOTE])
  = Ok (s2u "attachment",
        [mkCD (s2u "filename") (DQUOTE :: s2u "a" ++ DQUOTE :: s2u " b.txt")]).
Proof.
  apply parse_escaped_quotes_roundtrip; reflexivity.
Defined.

(** ** Whitespace between the tokens of a header *)

Lemma is_sep_cases c :
  is_sep c = true -> c = 32 \/ c = 10 \/ c = 9 \/ c = 13 \/ c = 59 \/ c = 61.
Proof.
  unfold is_sep; rewrite !orb_true_iff, !N.eqb_eq.
  intros [[H|H]|H]; [|tauto|tauto].
  apply is_white_cases in H; tauto.
Qed.

Lemma is_sep_not_token c : is_sep c = true -> char_in token_chars c = false.
Proof.
  intros H; apply is_sep_cases in H.
  destruct H as [->|[->|[->|[->|[->| ->]]]]]; reflexivity.
Qed.

Lemma is_sep_not_token' c :
  is_sep c = true -> char_in token_chars_without_wildcard c = false.
Proof.
  intros H; apply is_sep_cases in H.
  destruct H as [->|[->|[->|[->|[->| ->]]]]]; reflexivity.
Qed.

Lemma sep_start_white w s : allwhite w -> sep_start s -> sep_start (w ++ s).
Proof.
  destruct w as [|c w]; [auto|]; intros H _; cbn [app sep_start].
  unfold allwhite in H; cbn [forallb] in H.
  apply andb_true_iff in H as [H _]; unfold is_sep; now rewrite H.
Qed.

Lemma sep_start_cons c s : is_sep c = true -> sep_start (c :: s).
Proof. auto. Qed.

Lemma skips_white p w s : skips p -> allwhite w -> p (w ++ s) = p s.
Proof.
  intros Hp Hw; rewrite (Hp (w ++ s)), (skip_white_app w s Hw); symmetry; apply Hp.
Qed.

Lemma skip_white_app_any s r :
  PP.skip_white s <> [] -> PP.skip_white (s ++ r) = PP.skip_white s ++ r.
Proof.
  induction s as [|c s IH]; [cbn; congruence|]; cbn [app PP.skip_white].
  destruct (PP.is_white c); [exact IH|reflexivity].
Qed.

Lemma span_app_sep p a w rest :
  span p a = (w, []) ->
  match rest with [] => True | c :: _ => p c = false end ->
  span p (a ++ rest) = (w, rest).
Proof.
  revert w; induction a as [|x a IH]; intros w; cbn [span app].
  - intros H; inversion H; subst.
    destruct rest as [|c rest]; [reflexivity|]; cbn [span]; now intros ->.
  - destruct (p x); [|discriminate].
    destruct (span p a) as [u v] eqn:E; intros H Hr; inversion H; subst.
    now rewrite (IH u eq_refl Hr).
Qed.

Lemma caseless_prefix_app_true a r m :
  PP.caseless_prefix a m = true -> PP.caseless_prefix (a ++ r) m = true.
Proof.
  revert a; induction m as [|p m IH]; intros a; [now destruct (a ++ r)|].
  destruct a as [|x a]; [discriminate|]; cbn [app PP.caseless_prefix].
  intros H; apply andb_true_iff in H as [H1 H2]; now rewrite H1, (IH a H2).
Qed.

Lemma caseless_prefix_sep m :
  (forall c p, is_sep c = true -> In p m ->
               upper_is c (upper_ascii_char p) = false) ->
  forall a rest, sep_start rest ->
    PP.caseless_prefix a m = false -> PP.caseless_prefix (a ++ rest) m = false.
Proof.
  induction m as [|p m IH]; intros Hm a rest Hr; [now destruct a|].
  destruct a as [|x a]; cbn [app PP.caseless_prefix].
  - intros _; destruct rest as [|c rest]; [reflexivity|].
    cbn [PP.caseless_prefix]; rewrite (Hm c p Hr (or_introl eq_refl)); reflexivity.
  - intros H; apply andb_false_iff in H as [H|H]; [now rewrite H|].
    rewrite (IH (fun c q Hc Hq => Hm c q Hc (or_intror Hq)) a rest Hr H).
    apply andb_false_r.
Qed.

Lemma sep_not_letter m :
  forallb (fun p => forallb (fun c => negb (upper_is c (upper_ascii_char p)))
                      [32; 10; 9; 13; 59; 61]) m = true ->
  forall c p, is_sep c = true -> In p m ->
              upper_is c (upper_ascii_char p) = false.
Proof.
  intros H c p Hc Hp; rewrite forallb_forall in H; specialize (H p Hp).
  rewrite forallb_forall in H; apply negb_true_iff, H.
  apply is_sep_cases in Hc.
  destruct Hc as [->|[->|[->|[->|[->| ->]]]]]; simpl; tauto.
Qed.

Lemma CaselessLiteral_extends m s rest :
  PP.skip_white s <> [] ->
  (forall c p, is_sep c = true -> In p m ->
               upper_is c (upper_ascii_char p) = false) ->
  sep_start rest ->
  match PP.CaselessLiteral true m s with
  | Some (r, []) => PP.CaselessLiteral true m (s ++ rest) = Some (r, rest)
  | Some _ => True
  | None => PP.CaselessLiteral true m (s ++ rest) = None
  end.
Proof.
  intros Hs Hm Hr; unfold PP.CaselessLiteral; cbn [PP.preParse].
  rewrite (skip_white_app_any s rest Hs).
  destruct (PP.caseless_prefix (PP.skip_white s) m) eqn:E.
  - destruct (skipn (length m) (PP.skip_white s)) eqn:K; [|exact I].
    rewrite (caseless_prefix_app_true _ rest _ E).
    pose proof (caseless_prefix_length _ _ E) as L.
    assert (L' : (length (PP.skip_white s) <= length m)%nat).
    { pose proof (length_skipn (length m) (PP.skip_white s)) as Q.
      rewrite K in Q; simpl in Q; lia. }
    rewrite skipn_app, K.
    replace (length m - length (PP.skip_white s))%nat with 0%nat by lia.
    reflexivity.
  - now rewrite (caseless_prefix_sep m Hm _ rest Hr E).
Qed.

Lemma Word_extends chars s rest :
  PP.skip_white s <> [] ->
  match rest with [] => True | c :: _ => char_in chars c = false end ->
  match PP.Word true chars s with
  | Some (r, []) => PP.Word true chars (s ++ rest) = Some (r, rest)
  | Some _ => True
  | None => PP.Word true chars (s ++ rest) = None
  end.
Proof.
  intros Hs Hr; unfold PP.Word; cbn [PP.preParse].
  rewrite (skip_white_app_any s rest Hs).
  destruct (span (char_in chars) (PP.skip_white s)) as [w r] eqn:E.
  destruct w as [|x w].
  - destruct (PP.skip_white s) as [|c a]; [congruence|].
    cbn [span app] in *. destruct (char_in chars c); [|reflexivity].
    destruct (span (char_in chars) a); discriminate.
  - destruct r; [|exact I]. now rewrite (span_app_sep _ _ _ rest E Hr).
Qed.

Lemma quoted_body_app_any n :
  forall s x b r, (length s <= n)%nat ->
    PP.quoted_body s = Some (b, r) -> PP.quoted_body (s ++ x) = Some (b, r ++ x).
Proof.
  induction n as [|n IH]; intros s x b r L.
  - destruct s; [discriminate|simpl in L; lia].
  - destruct s as [|c t]; [discriminate|]; cbn [app PP.quoted_body].
    simpl in L. destruct (c =? DQUOTE).
    + intros H; inversion H; reflexivity.
    + destruct (c =? BACKSLASH).
      * destruct t as [|d t']; [discriminate|]; cbn [app].
        destruct (d =? 10); [discriminate|].
        destruct (PP.quoted_body t') as [[b' r']|] eqn:E; [|discriminate].
        intros H; inversion H; subst.
        rewrite (IH t' x b' r); [reflexivity|simpl in L; lia|exact E].
      * destruct ((c =? 10) || (c =? 13)); [discriminate|].
        destruct (PP.quoted_body t) as [[b' r']|] eqn:E; [|discriminate].
        intros H; inversion H; subst.
        rewrite (IH t x b' r); [reflexivity|lia|exact E].
Qed.

Lemma value_extends V v rest :
  Grammar.value V = Some (PP.tok v, []) -> sep_start rest ->
  Grammar.value (V ++ rest) = Some (PP.tok v, rest).
Proof.
  intros HV Hr.
  assert (Hs : PP.skip_white V <> []).
  { intros E; unfold Grammar.value, PP.MatchFirst, Grammar.token, PP.Word,
      PP.QuotedString in HV; cbn [PP.preParse] in HV; rewrite E in HV.
    discriminate. }
  assert (Hr' : match rest with [] => True
                | c :: _ => char_in token_chars c = false end)
    by (destruct rest; [exact I|now apply is_sep_not_token]).
  pose proof (Word_extends token_chars V rest Hs Hr') as W.
  unfold Grammar.value, PP.MatchFirst, Grammar.token in *.
  destruct (PP.Word true token_chars V) as [[r s]|].
  - inversion HV; subst; now rewrite W.
  - rewrite W; unfold PP.QuotedString in *; cbn [PP.preParse] in *.
    rewrite (skip_white_app_any V rest Hs).
    destruct (PP.skip_white V) as [|c t]; [discriminate|]; cbn [app].
    destruct (c =? DQUOTE); [|discriminate].
    destruct (PP.quoted_body t) as [[b r]|] eqn:E; [|discriminate].
    inversion HV; subst.
    now rewrite (quoted_body_app_any (length t) t rest b [] (le_n _) E).
Qed.

Lemma disposition_type_extends t t' rest :
  Grammar.disposition_type t = Some (PP.tok t', []) -> sep_start rest ->
  Grammar.disposition_type (t ++ rest) = Some (PP.tok t', rest).
Proof.
  intros HT Hr.
  assert (Hs : PP.skip_white t <> []).
  { intros E; unfold Grammar.disposition_type, PP.MatchFirst, PP.CaselessLiteral,
      Grammar.disp_ext_type, Grammar.token, PP.Word in HT.
    cbn [PP.preParse] in HT; rewrite E in HT; discriminate. }
  assert (Hr' : match rest with [] => True
                | c :: _ => char_in token_chars c = false end)
    by (destruct rest; [exact I|now apply is_sep_not_token]).
  pose proof (CaselessLiteral_extends (s2u "inline") t rest Hs
                (sep_not_letter (s2u "inline") eq_refl) Hr) as C1.
  pose proof (CaselessLiteral_extends (s2u "attachment") t rest Hs
                (sep_not_letter (s2u "attachment") eq_refl) Hr) as C2.
  pose proof (Word_extends token_chars t rest Hs Hr') as W.
  unfold Grammar.disposition_type, PP.MatchFirst, Grammar.disp_ext_type,
    Grammar.token in *.
  destruct (PP.CaselessLiteral true (s2u "inline") t) as [[r s]|].
  - inversion HT; subst; now rewrite C1.
  - rewrite C1.
    destruct (PP.CaselessLiteral true (s2u "attachment") t) as [[r s]|].
    + inversion HT; subst; now rewrite C2.
    + rewrite C2.
      destruct (PP.Word true token_chars t) as [[r s]|]; [|discriminate].
      inversion HT; subst; now rewrite W.
Qed.

Lemma star_then_exact A B b c R :
  forallb A b = true -> B c = true -> PP.star_then A B R = None ->
  PP.star_then A B (b ++ c :: R) = Some (S (length b)).
Proof.
  intros Hb Hc HR; induction b as [|x b IH]; cbn [app PP.star_then length].
  - rewrite HR, Hc; now destruct (A c).
  - cbn [forallb] in Hb; apply andb_true_iff in Hb as [Hx Hb].
    now rewrite Hx, (IH Hb).
Qed.

Lemma star_then_sep R :
  sep_start R ->
  PP.star_then (char_in token_chars) (char_in token_chars_without_wildcard) R
  = None.
Proof.
  destruct R as [|c R]; [reflexivity|]; cbn [sep_start PP.star_then].
  intros H; now rewrite (is_sep_not_token c H), (is_sep_not_token' c H).
Qed.

Lemma star_then_star R :
  sep_start R ->
  PP.star_then (char_in token_chars) (char_in token_chars_without_wildcard)
    (42 :: R) = None.
Proof.
  intros H; cbn [PP.star_then]; rewrite (star_then_sep R H); reflexivity.
Qed.

Lemma base_head_not_white b c R :
  forallb (char_in token_chars) b = true ->
  char_in token_chars_without_wildcard c = true ->
  PP.skip_white (b ++ c :: R) = b ++ c :: R.
Proof.
  intros Hb Hc; destruct b as [|x b]; cbn [app].
  - apply skip_white_nonwhite.
    destruct (PP.is_white c) eqn:E; [|reflexivity].
    now rewrite (white_free_token_chars_without_wildcard c E) in Hc.
  - apply skip_white_nonwhite, token_char_not_white.
    cbn [forallb] in Hb; now apply andb_true_iff in Hb as [Hx _].
Qed.

Lemma unencoded_token_base ws b c R :
  forallb (char_in token_chars) b = true ->
  char_in token_chars_without_wildcard c = true ->
  PP.star_then (char_in token_chars) (char_in token_chars_without_wildcard) R
  = None ->
  Grammar.unencoded_token ws (b ++ c :: R) = Some (PP.tok (b ++ [c]), R).
Proof.
  intros Hb Hc HR; unfold Grammar.unencoded_token, PP.Regex_star_then.
  replace (PP.preParse ws (b ++ c :: R)) with (b ++ c :: R)
    by (destruct ws; [symmetry; now apply base_head_not_white|reflexivity]).
  rewrite (star_then_exact _ _ b c R Hb Hc HR).
  replace (b ++ c :: R) with ((b ++ [c]) ++ R) by (now rewrite <- app_assoc).
  replace (S (length b)) with (length (b ++ [c]))
    by (rewrite length_app; simpl; lia).
  rewrite firstn_app, skipn_app, firstn_all, skipn_all, Nat.sub_diag.
  cbn [firstn skipn]; now rewrite app_nil_r.
Qed.

Lemma Literal1_white w x s :
  allwhite w -> PP.is_white x = false ->
  PP.Literal true [x] (w ++ x :: s) = Some (PP.tok [x], s).
Proof.
  intros Hw Hx.
  rewrite (skips_white _ w (x :: s) (proj2 (Literal1_stable x Hx)) Hw).
  now apply Literal1_cons.
Qed.

Lemma value_skips : skips Grammar.value.
Proof. exact (proj2 value_stable). Qed.

(** One parameter: its name, the equals sign and its value, with
    whitespace before each of them. *)
Lemma disp_ext_parm_spaced n V v w1 w2 w3 rest :
  is_name n -> Grammar.value V = Some (PP.tok v, []) ->
  allwhite w1 -> allwhite w2 -> allwhite w3 -> sep_start rest ->
  Grammar.disp_ext_parm (w1 ++ n ++ w2 ++ 61 :: w3 ++ V ++ rest)
  = Some (PP.mkPR [n; s2u "="; v]
            [("parm"%string, [n; s2u "="]); ("value"%string, [v])], rest).
Proof.
  intros (b & c & Hb & Hc & Hn) HV H1 H2 H3 Hr.
  rewrite (skips_white _ w1 _ (proj1 (proj2 disp_ext_parm_stable)) H1).
  assert (Hval : PP.set_results_name false "value" Grammar.value
                   (w3 ++ V ++ rest)
                 = Some (PP.mkPR [v] [("value"%string, [v])], rest)).
  { rewrite (set_results_name_intro false "value" Grammar.value _ (PP.tok v) rest);
      [reflexivity|].
    rewrite (skips_white _ w3 _ value_skips H3).
    now apply value_extends. }
  assert (Heq : PP.Literal true (s2u "=") (w2 ++ 61 :: w3 ++ V ++ rest)
                = Some (PP.tok (s2u "="), w3 ++ V ++ rest))
    by (now apply Literal1_white).
  assert (Hsep : sep_start (w2 ++ 61 :: w3 ++ V ++ rest))
    by (apply sep_start_white; [exact H2|reflexivity]).
  unfold Grammar.disp_ext_parm.
  destruct Hn as [-> | ->].
  - apply MatchFirst_l.
    rewrite <- app_assoc; cbn [app].
    pose proof (unencoded_token_base true b c _ Hb Hc (star_then_sep _ Hsep)) as U.
    pose proof (set_results_name_intro true "parm" _ _ _ _
                  (And_intro _ _ _ _ _ _ _ U Heq)) as P.
    rewrite (And_intro _ _ _ _ _ _ _ P Hval); reflexivity.
  - replace ((b ++ [c; 42]) ++ w2 ++ 61 :: w3 ++ V ++ rest)
      with (b ++ c :: 42 :: w2 ++ 61 :: w3 ++ V ++ rest)
      by (rewrite <- app_assoc; reflexivity).
    apply MatchFirst_r.
    + pose proof (unencoded_token_base true b c _ Hb Hc (star_then_star _ Hsep))
        as U.
      unfold PP.And, PP.set_results_name; rewrite U.
      reflexivity.
    + pose proof (unencoded_token_base false b c _ Hb Hc (star_then_star _ Hsep))
        as U.
      pose proof (Literal1_cons false 42 (w2 ++ 61 :: w3 ++ V ++ rest) eq_refl)
        as Hstar.
      assert (C : PP.Combine
                    (PP.And (Grammar.unencoded_token false)
                       (PP.Literal false (s2u "*")))
                    (b ++ c :: 42 :: w2 ++ 61 :: w3 ++ V ++ rest)
                  = Some (PP.tok (b ++ [c; 42]), w2 ++ 61 :: w3 ++ V ++ rest)).
      { unfold PP.Combine; rewrite (base_head_not_white b c _ Hb Hc).
        rewrite (And_intro (Grammar.unencoded_token false)
                   (PP.Literal false (s2u "*")) _ _ _ _ _ U Hstar); cbn.
        now rewrite <- app_assoc. }
      pose proof (set_results_name_intro true "parm" _ _ _ _
                    (And_intro _ _ _ _ _ _ _ C Heq)) as P.
      rewrite (And_intro _ _ _ _ _ _ _ P Hval); reflexivity.
Qed.

Lemma spaced_app gap i a b tail :
  spaced gap i (a ++ b) tail
  = spaced gap i a (spaced gap (i + length a) b tail).
Proof.
  revert i; induction a as [|x a IH]; intros i; cbn [app spaced length].
  - now rewrite Nat.add_0_r.
  - rewrite IH.
    now replace (i + S (length a))%nat with (S i + length a)%nat by lia.
Qed.

Lemma spaced_ext g g' i toks tail :
  (forall j, (i <= j)%nat -> g j = g' j) ->
  spaced g i toks tail = spaced g' i toks tail.
Proof.
  revert i; induction toks as [|x toks IH]; intros i H; [reflexivity|].
  cbn [spaced]; rewrite (H i (le_n _)), (IH (S i)); [reflexivity|].
  intros j Hj; apply H; lia.
Qed.

Lemma spaced_nil i toks : spaced (fun _ => []) i toks [] = concat toks.
Proof.
  revert i; induction toks as [|x toks IH]; intros i; [reflexivity|].
  cbn [spaced concat app]; now rewrite IH.
Qed.

Lemma allwhite_sep_start w : allwhite w -> sep_start w.
Proof.
  intros H; rewrite <- (app_nil_r w); now apply sep_start_white.
Qed.

Lemma sep_start_parms gap i ps X :
  (forall j, allwhite (gap j)) -> sep_start X ->
  sep_start (spaced gap i (parm_tokens ps) X).
Proof.
  intros Hg HX; destruct ps as [|p ps]; [exact HX|].
  cbn [parm_tokens flat_map app spaced].
  apply sep_start_white; [apply Hg|reflexivity].
Qed.

Lemma loop_element_skips :
  skips (PP.And (PP.Literal true (s2u ";")) Grammar.disposition_parm).
Proof. apply skips_And, (Literal1_stable 59 eq_refl). Qed.

Lemma loop_element_step gap i n V v Y :
  (forall j, allwhite (gap j)) ->
  is_name n -> Grammar.value V = Some (PP.tok v, []) -> sep_start Y ->
  PP.And (PP.Literal true (s2u ";")) Grammar.disposition_parm
    (spaced gap i [s2u ";"; n; s2u "="; V] Y)
  = Some (PP.mkPR [s2u ";"; n; s2u "="; v]
            [("parm"%string, [n; s2u "="]); ("value"%string, [v])], Y).
Proof.
  intros Hg Hn HV HY; cbn [spaced].
  change (s2u ";" ++ ?x) with (59 :: x).
  change (s2u "=" ++ ?x) with (61 :: x).
  pose proof (Literal1_white (gap i) 59
                (gap (S i) ++ n ++ gap (S (S i)) ++ 61 :: gap (S (S (S i))) ++ V ++ Y)
                (Hg _) eq_refl) as L.
  pose proof (disp_ext_parm_spaced n V v _ _ _ Y Hn HV
                (Hg (S i)) (Hg (S (S i))) (Hg (S (S (S i)))) HY) as P.
  exact (And_intro _ _ _ _ _ _ _ L P).
Qed.

Lemma spaced_length gap i toks tail :
  (length tail <= length (spaced gap i toks tail))%nat.
Proof.
  revert i; induction toks as [|x toks IH]; intros i; cbn [spaced]; [lia|].
  rewrite !length_app; specialize (IH (S i)); lia.
Qed.

(** The repetition over the parameters. *)
Lemma many_parameters ps vs :
  Forall2 (fun nV v => is_name (fst nV)
                       /\ Grammar.value (snd nV) = Some (PP.tok v, [])) ps vs ->
  forall gap X,
    (forall j, allwhite (gap j)) -> sep_start X ->
    PP.And (PP.Literal true (s2u ";")) Grammar.disposition_parm X = None ->
    forall i fuel acc,
      (length (spaced gap i (parm_tokens ps) X) <= fuel)%nat ->
      exists r,
        PP.many fuel (PP.And (PP.Literal true (s2u ";")) Grammar.disposition_parm)
          acc (spaced gap i (parm_tokens ps) X) = (r, X)
        /\ PP.tokdict r
           = PP.tokdict acc
             ++ flat_map (fun nv => [("parm"%string, [fst nv; s2u "="]);
                                     ("value"%string, [snd nv])])
                  (combine (map fst ps) vs).
Proof.
  induction 1 as [|[n V] v ps vs [Hn HV] _ IH]; intros gap X Hg HX Hstop i fuel acc L.
  - exists acc; split; [|now rewrite app_nil_r].
    cbn [parm_tokens flat_map spaced].
    destruct fuel as [|fuel]; [reflexivity|].
    rewrite (many_step _ _ _ _ (proj1 repeated_elements_shrink)), Hstop.
    reflexivity.
  - cbn [fst snd] in *.
    change (parm_tokens ((n, V) :: ps))
      with ([s2u ";"; n; s2u "="; V] ++ parm_tokens ps) in *.
    rewrite spaced_app in *; cbn [length] in *.
    set (Y := spaced gap (i + 4) (parm_tokens ps) X) in *.
    pose proof (loop_element_step gap i n V v Y Hg Hn HV
                  (sep_start_parms gap _ ps X Hg HX)) as E.
    assert (LY : (length Y < length (spaced gap i [s2u ";"; n; s2u "="; V] Y))%nat).
    { cbn [spaced]; rewrite !length_app; simpl; lia. }
    destruct fuel as [|fuel]; [lia|].
    rewrite (many_step _ _ _ _ (proj1 repeated_elements_shrink)), E.
    destruct (IH gap X Hg HX Hstop (i + 4)%nat fuel
                (PP.add acc
                   (PP.mkPR [s2u ";"; n; s2u "="; v]
                      [("parm"%string, [n; s2u "="]); ("value"%string, [v])])))
      as (r & Hr & Hd); [fold Y; lia|].
    exists r; split; [exact Hr|].
    rewrite Hd; cbn [PP.add PP.tokdict map combine flat_map fst snd].
    now rewrite <- app_assoc.
Qed.

Lemma disposition_type_skips : skips Grammar.disposition_type.
Proof.
  intros s; unfold Grammar.disposition_type, PP.MatchFirst, PP.CaselessLiteral,
    Grammar.disp_ext_type, Grammar.token, PP.Word; cbn [PP.preParse].
  now rewrite skip_white_idem.
Qed.

(** The header grammar on a type and parameters with whitespace before
    every token, followed by a text [X] on which the repetition stops. *)
Lemma header_parser_spaced t t' ps vs gap X :
  Grammar.disposition_type t = Some (PP.tok t', []) ->
  Forall2 (fun nV v => is_name (fst nV)
                       /\ Grammar.value (snd nV) = Some (PP.tok v, [])) ps vs ->
  (forall j, allwhite (gap j)) -> sep_start X ->
  PP.And (PP.Literal true (s2u ";")) Grammar.disposition_parm X = None ->
  exists r rest,
    Grammar.header_parser (spaced gap 0 (t :: parm_tokens ps) X) = Some (r, rest)
    /\ PP.tokdict r = header_dict t' (combine (map fst ps) vs)
    /\ PP.skip_white rest = PP.skip_white (after_semicolon X).
Proof.
  intros HT Hps Hg HX Hstop; cbn [spaced].
  set (S1 := spaced gap 1 (parm_tokens ps) X).
  assert (H1 : PP.set_results_name false "type" Grammar.disposition_type
                 (gap 0%nat ++ t ++ S1)
               = Some (PP.mkPR [t'] [("type"%string, [t'])], S1)).
  { rewrite (set_results_name_intro false "type" _ _ (PP.tok t') S1);
      [reflexivity|].
    rewrite (skips_white _ _ _ disposition_type_skips (Hg _)).
    apply disposition_type_extends; [exact HT|].
    now apply sep_start_parms. }
  assert (H2 : exists r rest1,
             PP.ZeroOrMore true
               (PP.And (PP.Literal true (s2u ";")) Grammar.disposition_parm) S1
             = Some (r, rest1)
             /\ PP.skip_white rest1 = PP.skip_white X
             /\ PP.tokdict r
                = flat_map (fun nv => [("parm"%string, [fst nv; s2u "="]);
                                       ("value"%string, [snd nv])])
                    (combine (map fst ps) vs)).
  { unfold PP.ZeroOrMore; cbn [PP.preParse].
    rewrite <- (loop_element_skips S1).
    destruct Hps as [|[n V] v ps vs [Hn HV] Hps].
    - unfold S1; cbn [parm_tokens flat_map spaced]; rewrite Hstop.
      exists PP.empty, (PP.skip_white X); repeat split.
      apply skip_white_idem.
    - unfold S1.
      change (parm_tokens ((n, V) :: ps))
        with ([s2u ";"; n; s2u "="; V] ++ parm_tokens ps).
      rewrite spaced_app; cbn [length fst snd] in *.
      rewrite (loop_element_step gap 1 n V v _ Hg Hn HV
                 (sep_start_parms gap _ ps X Hg HX)).
      destruct (many_parameters ps vs Hps gap X Hg HX Hstop (1 + 4)%nat
                  (length (spaced gap (1 + 4) (parm_tokens ps) X))
                  (PP.mkPR [s2u ";"; n; s2u "="; v]
                     [("parm"%string, [n; s2u "="]); ("value"%string, [v])])
                  (le_n _)) as (r & Hr & Hd).
      rewrite Hr; exists r, X; repeat split; exact Hd. }
  destruct H2 as (r2 & rest1 & H2 & Hskip & Hd).
  assert (H3 : exists r3 rest,
             PP.Optional true (PP.Literal true (s2u ";")) rest1 = Some (r3, rest)
             /\ PP.tokdict r3 = []
             /\ PP.skip_white rest = PP.skip_white (after_semicolon X)).
  { unfold PP.Optional, after_semicolon; cbn [PP.preParse].
    pose proof (proj2 (Literal1_stable 59 eq_refl) X) as Q.
    change [59] with (s2u ";") in Q; rewrite Hskip, <- Q.
    destruct (PP.Literal true (s2u ";") X) as [[r3 s]|] eqn:EL.
    - exists r3, s; repeat split.
      unfold PP.Literal in EL; destruct (startswith _ _); [|discriminate].
      now inversion EL.
    - exists PP.empty, (PP.skip_white X); repeat split; apply skip_white_idem. }
  destruct H3 as (r3 & rest & H3 & Hd3 & Hrest).
  unfold Grammar.header_parser.
  rewrite (And_intro _ _ _ _ _ _ _ (And_intro _ _ _ _ _ _ _ H1 H2) H3).
  eexists; eexists; split; [reflexivity|split; [|exact Hrest]].
  cbn [PP.add PP.tokdict]; rewrite Hd, Hd3, app_nil_r; reflexivity.
Qed.

Lemma combine_map_pairs (pvs : list (pystr * pystr)) :
  combine (map (fun nv => [fst nv; s2u "="]) pvs) (map (fun nv => [snd nv]) pvs)
  = map (fun nv => ([fst nv; s2u "="], [snd nv])) pvs.
Proof.
  induction pvs as [|nv pvs IH]; [reflexivity|]; simpl; now rewrite IH.
Qed.

(** What [parse] makes of the named results of a header. *)
Lemma parse_of_results header r rest t' pvs :
  Grammar.header_parser (expandtabs header) = Some (r, rest) ->
  PP.tokdict r = header_dict t' pvs ->
  parse header
  = match PP.skip_white rest with
    | [] =>
        match parse_parms
                (map (fun nv => ([fst nv; s2u "="], [snd nv])) pvs) [] [] with
        | Ok l => Ok (lower t', l)
        | Raise e => Raise e
        end
    | _ :: _ => Raise SyntaxError
    end.
Proof.
  intros H Hd; unfold parse, PP.parse_string; rewrite H.
  destruct (PP.skip_white rest); [|reflexivity].
  destruct (header_dict_get t' pvs r Hd) as (-> & -> & ->).
  rewrite combine_map_pairs; cbn [concat]; now rewrite app_nil_r.
Qed.

Lemma expandtabs_notab_app a :
  char_in a 9 = false ->
  forall col s, exists col',
    expandtabs_from col (a ++ s) = a ++ expandtabs_from col' s.
Proof.
  unfold char_in; induction a as [|c a IH]; intros H col s; [now exists col|].
  cbn [existsb] in H; apply orb_false_iff in H as [Hc Ha].
  cbn [app expandtabs_from]; rewrite N.eqb_sym, Hc.
  destruct ((c =? 10) || (c =? 13)).
  - destruct (IH Ha 0%nat s) as (col' & ->); now exists col'.
  - destruct (IH Ha (S col) s) as (col' & ->); now exists col'.
Qed.

Lemma expandtabs_white_nonempty w :
  allwhite w -> w <> [] ->
  forall col, exists w' col',
    allwhite w' /\ w' <> [] /\
    forall s, expandtabs_from col (w ++ s) = w' ++ expandtabs_from col' s.
Proof.
  destruct w as [|c w]; [congruence|]; intros H _ col.
  unfold allwhite in H; cbn [forallb] in H; apply andb_true_iff in H as [Hc Hw].
  cbn [app expandtabs_from]; destruct (c =? 9) eqn:E9.
  - destruct (expandtabs_white_app w Hw (col + (8 - col mod 8))%nat)
      as (w' & col' & Hw' & E).
    exists (repeat 32 (8 - col mod 8) ++ w'), col'; repeat split.
    + apply allwhite_app; [apply allwhite_repeat|exact Hw'].
    + pose proof (Nat.mod_upper_bound col 8 ltac:(lia)) as B.
      destruct (8 - col mod 8)%nat eqn:K; [lia|discriminate].
    + intros s; now rewrite E, app_assoc.
  - destruct ((c =? 10) || (c =? 13)).
    + destruct (expandtabs_white_app w Hw 0%nat) as (w' & col' & Hw' & E).
      exists (c :: w'), col'; repeat split; [|discriminate|].
      * unfold allwhite in *; cbn [forallb]; now rewrite Hc, Hw'.
      * intros s; now rewrite E.
    + destruct (expandtabs_white_app w Hw (S col)) as (w' & col' & Hw' & E).
      exists (c :: w'), col'; repeat split; [|discriminate|].
      * unfold allwhite in *; cbn [forallb]; now rewrite Hc, Hw'.
      * intros s; now rewrite E.
Qed.

Lemma expandtabs_allwhite w col : allwhite w -> allwhite (expandtabs_from col w).
Proof.
  intros H; destruct (expandtabs_white_app w H col) as (w' & col' & Hw' & E).
  specialize (E []); rewrite app_nil_r in E; rewrite E; cbn [expandtabs_from].
  now rewrite app_nil_r.
Qed.

(** Tab expansion leaves tokens without tab as they are and turns the
    whitespace between them into whitespace. *)
Lemma expandtabs_spaced toks :
  Forall (fun tk => char_in tk 9 = false) toks ->
  forall gap, (forall j, allwhite (gap j)) ->
  forall i col tail, exists gap' col',
    (forall j, allwhite (gap' j))
    /\ expandtabs_from col (spaced gap i toks tail)
       = spaced gap' i toks (expandtabs_from col' tail).
Proof.
  induction 1 as [|tk toks Htk _ IH]; intros gap Hg i col tail.
  - exists gap, col; split; [exact Hg|reflexivity].
  - cbn [spaced].
    destruct (expandtabs_white_app (gap i) (Hg i) col) as (w' & col1 & Hw' & E1).
    destruct (expandtabs_notab_app tk Htk col1
                (spaced gap (S i) toks tail)) as (col2 & E2).
    destruct (IH gap Hg (S i) col2 tail) as (gap'' & col' & Hg'' & E3).
    exists (fun j => if (j =? i)%nat then w' else gap'' j), col'; split.
    + intros j; destruct (j =? i)%nat; [exact Hw'|apply Hg''].
    + rewrite E1, E2, E3, Nat.eqb_refl; do 2 f_equal.
      apply spaced_ext; intros j Hj.
      destruct (Nat.eqb_spec j i); [lia|reflexivity].
Qed.

Lemma is_name_notab n : is_name n -> char_in n 9 = false.
Proof.
  intros (b & c & Hb & Hc & Hn).
  assert (T : forall s, forallb (char_in token_chars) s = true ->
                        char_in s 9 = false).
  { intros s F; unfold char_in.
    destruct (existsb (N.eqb 9) s) eqn:E; [|reflexivity].
    apply existsb_exists in E as (x & Hin & Hx); apply N.eqb_eq in Hx; subst x.
    rewrite forallb_forall in F; specialize (F 9 Hin); discriminate. }
  assert (Hc9 : (9 =? c) = false).
  { destruct (N.eqb_spec 9 c) as [<-|]; [discriminate|reflexivity]. }
  specialize (T b Hb); unfold char_in in *.
  destruct Hn as [-> | ->]; rewrite existsb_app, T; cbn [existsb];
    now rewrite Hc9.
Qed.

Lemma header_tokens_notab t ps tl :
  char_in t 9 = false ->
  Forall (fun nV => is_name (fst nV) /\ value_text (snd nV)) ps ->
  Forall (fun tk => char_in tk 9 = false) tl ->
  Forall (fun tk => char_in tk 9 = false) (t :: parm_tokens ps ++ tl).
Proof.
  intros Ht Hps Htl; constructor; [exact Ht|].
  induction Hps as [|[n V] ps [Hn [HV _]] _ IH]; [exact Htl|].
  cbn [parm_tokens flat_map app fst snd].
  repeat constructor; [now apply is_name_notab|exact HV|exact IH].
Qed.

Lemma values_read ps :
  Forall (fun nV => is_name (fst nV) /\ value_text (snd nV)) ps ->
  exists vs,
    Forall2 (fun nV v => is_name (fst nV)
                         /\ Grammar.value (snd nV) = Some (PP.tok v, [])) ps vs.
Proof.
  induction 1 as [|nV ps [Hn [_ [v Hv]]] _ [vs IH]]; [exists []; constructor|].
  exists (v :: vs); constructor; [now split|exact IH].
Qed.

Lemma loop_element_white X :
  allwhite X ->
  PP.And (PP.Literal true (s2u ";")) Grammar.disposition_parm X = None.
Proof.
  intros H; unfold PP.And, PP.Literal; cbn [PP.preParse].
  now rewrite (skip_white_allwhite X H).
Qed.

Lemma disp_ext_parm_white X : allwhite X -> Grammar.disp_ext_parm X = None.
Proof.
  intros H; rewrite (proj1 (proj2 disp_ext_parm_stable) X).
  now rewrite (skip_white_allwhite X H).
Qed.

(** The result of [parse] on a header whose tokens are a type and
    parameters, with any whitespace before every token, and a text on
    which the repetition stops after them. *)
Lemma parse_spaced t t' ps vs tl gap tail :
  char_in t 9 = false ->
  Grammar.disposition_type t = Some (PP.tok t', []) ->
  Forall (fun nV => is_name (fst nV) /\ value_text (snd nV)) ps ->
  Forall2 (fun nV v => is_name (fst nV)
                       /\ Grammar.value (snd nV) = Some (PP.tok v, [])) ps vs ->
  Forall (fun tk => char_in tk 9 = false) tl ->
  (forall j, allwhite (gap j)) ->
  exists gap' col',
    (forall j, allwhite (gap' j)) /\
    forall X,
      X = spaced gap' (1 + length (parm_tokens ps)) tl
            (expandtabs_from col' tail) ->
      sep_start X ->
      PP.And (PP.Literal true (s2u ";")) Grammar.disposition_parm X = None ->
      parse (spaced gap 0 (t :: parm_tokens ps ++ tl) tail)
      = match PP.skip_white (after_semicolon X) with
        | [] =>
            match parse_parms
                    (map (fun nv => ([fst nv; s2u "="], [snd nv]))
                       (combine (map fst ps) vs)) [] [] with
            | Ok l => Ok (lower t', l)
            | Raise e => Raise e
            end
        | _ :: _ => Raise SyntaxError
        end.
Proof.
  intros Ht HT Hps Hvs Htl Hg.
  destruct (expandtabs_spaced _ (header_tokens_notab t ps tl Ht Hps Htl) gap Hg
              0%nat 0%nat tail) as (gap' & col' & Hg' & E).
  exists gap', col'; split; [exact Hg'|]; intros X HX Hsep Hstop.
  change (t :: parm_tokens ps ++ tl) with ((t :: parm_tokens ps) ++ tl) in E.
  rewrite (spaced_app gap') in E; cbn [length] in E.
  change (0 + S (length (parm_tokens ps)))%nat
    with (1 + length (parm_tokens ps))%nat in E.
  rewrite <- HX in E.
  destruct (header_parser_spaced t t' ps vs gap' X HT Hvs Hg' Hsep Hstop)
    as (r & rest & Hh & Hd & Hrest).
  change (t :: parm_tokens ps ++ tl) with ((t :: parm_tokens ps) ++ tl).
  unfold expandtabs in *.
  rewrite (parse_of_results _ r rest t' _ (eq_trans (f_equal _ E) Hh) Hd), Hrest.
  reflexivity.
Qed.

Lemma sep_start_nonempty_white w s : allwhite w -> w <> [] -> sep_start (w ++ s).
Proof.
  destruct w as [|c w]; [congruence|]; intros H _; cbn [app sep_start].
  unfold allwhite in H; cbn [forallb] in H.
  apply andb_true_iff in H as [H _]; unfold is_sep; now rewrite H.
Qed.

Lemma expandtabs_nonwhite_cons b rest col :
  PP.is_white b = false ->
  exists col', expandtabs_from col (b :: rest) = b :: expandtabs_from col' rest.
Proof.
  intros Hb; cbn [expandtabs_from].
  unfold PP.is_white in Hb; rewrite !orb_false_iff in Hb.
  destruct Hb as [[[_ H10] H9] H13]; rewrite H9, H10, H13; cbn [orb].
  now exists (S col).
Qed.

(** A literal of one character fails on whitespace followed by another
    character. *)
Lemma Literal1_fails ws x w b R :
  allwhite w -> PP.is_white b = false -> b <> x ->
  (ws = true \/ w = []) ->
  PP.Literal ws [x] (w ++ b :: R) = None.
Proof.
  intros Hw Hb Hx Hws; unfold PP.Literal.
  replace (PP.preParse ws (w ++ b :: R)) with (b :: R).
  - cbn [startswith]; apply N.eqb_neq in Hx; now rewrite Hx.
  - destruct Hws as [-> | ->]; [|destruct ws; cbn [PP.preParse app];
                                  [now rewrite skip_white_nonwhite|reflexivity]].
    cbn [PP.preParse]; now rewrite (skip_white_app w _ Hw), skip_white_nonwhite.
Qed.

Lemma after_semicolon_fails w b R :
  allwhite w -> PP.is_white b = false -> b <> 59 ->
  PP.skip_white (after_semicolon (w ++ b :: R)) = b :: R.
Proof.
  intros Hw Hb Hx; unfold after_semicolon.
  change (s2u ";") with [59].
  rewrite (Literal1_fails true 59 w b R Hw Hb Hx (or_introl eq_refl)).
  now rewrite (skip_white_app w _ Hw), skip_white_nonwhite.
Qed.

(** Whitespace inside a parameter name, or between the name and its star,
    makes the parameter fail. *)
Lemma disp_ext_parm_split a g w b R :
  is_name a -> allwhite g -> allwhite w -> w <> [] ->
  PP.is_white b = false -> b <> 61 ->
  Grammar.disp_ext_parm (g ++ a ++ w ++ b :: R) = None.
Proof.
  intros (b0 & c & Hb0 & Hc & Ha) Hg Hw Hne Hb H61.
  rewrite (skips_white _ g _ (proj1 (proj2 disp_ext_parm_stable)) Hg).
  assert (Hsep : sep_start (w ++ b :: R)) by now apply sep_start_nonempty_white.
  assert (Leq : PP.Literal true (s2u "=") (w ++ b :: R) = None)
    by (apply (Literal1_fails true 61); auto).
  assert (Lstar : PP.Literal false (s2u "*") (w ++ b :: R) = None).
  { destruct w as [|x w]; [congruence|].
    unfold allwhite in Hw; cbn [forallb] in Hw.
    apply andb_true_iff in Hw as [Hx _].
    change (s2u "*") with [42].
    unfold PP.Literal; cbn [PP.preParse app startswith].
    destruct (N.eqb_spec x 42) as [->|]; [discriminate|reflexivity]. }
  unfold Grammar.disp_ext_parm, PP.MatchFirst, PP.And, PP.set_results_name,
    PP.Combine.
  change (s2u "*") with [42] in *.
  destruct Ha as [-> | ->].
  - rewrite <- app_assoc; cbn [app].
    rewrite (base_head_not_white b0 c _ Hb0 Hc).
    rewrite (unencoded_token_base true b0 c _ Hb0 Hc (star_then_sep _ Hsep)).
    rewrite (unencoded_token_base false b0 c _ Hb0 Hc (star_then_sep _ Hsep)).
    now rewrite Leq, Lstar.
  - rewrite <- app_assoc; cbn [app].
    rewrite (base_head_not_white b0 c _ Hb0 Hc).
    rewrite (unencoded_token_base true b0 c _ Hb0 Hc (star_then_star _ Hsep)).
    rewrite (unencoded_token_base false b0 c _ Hb0 Hc (star_then_star _ Hsep)).
    replace (PP.Literal true (s2u "=") (42 :: w ++ b :: R)) with
      (@None (PP.ParseResults * pystr)) by reflexivity.
    rewrite (Literal1_cons false 42 (w ++ b :: R) eq_refl).
    cbn [PP.toklist PP.tokdict PP.add PP.tok app concat].
    now rewrite Leq.
Qed.

Lemma is_name_head a R :
  is_name a -> PP.skip_white (a ++ R) = a ++ R /\ a ++ R <> [].
Proof.
  intros (b0 & c & Hb0 & Hc & Ha).
  destruct Ha as [-> | ->]; rewrite <- app_assoc; cbn [app];
    (split; [now apply base_head_not_white|now destruct b0]).
Qed.

(** Whitespace before, between and after the tokens of a header does not
    change what [parse] returns. *)
Lemma whitespace_between_tokens t ps final gap tail :
  type_text t ->
  Forall (fun nV => is_name (fst nV) /\ value_text (snd nV)) ps ->
  (forall j, allwhite (gap j)) -> allwhite tail ->
  parse (spaced gap 0 (header_tokens t ps final) tail)
  = parse (concat (header_tokens t ps final)).
Proof.
  intros [Ht9 [t' HT]] Hps Hg Htail.
  destruct (values_read ps Hps) as [vs Hvs].
  assert (G : forall gap tail,
             (forall j, allwhite (gap j)) -> allwhite tail ->
             parse (spaced gap 0 (header_tokens t ps final) tail)
             = match parse_parms
                       (map (fun nv => ([fst nv; s2u "="], [snd nv]))
                          (combine (map fst ps) vs)) [] [] with
               | Ok l => Ok (lower t', l)
               | Raise e => Raise e
               end).
  { clear gap tail Hg Htail; intros gap tail Hg Htail.
    unfold header_tokens.
    assert (Htl : Forall (fun tk => char_in tk 9 = false)
                    (if final then [s2u ";"] else []))
      by (destruct final; repeat constructor).
    destruct (parse_spaced t t' ps vs _ gap tail Ht9 HT Hps Hvs Htl Hg)
      as (gap' & col' & Hg' & P).
    pose proof (expandtabs_allwhite tail col' Htail) as HT'.
    destruct final.
    - rewrite (P _ eq_refl); cbn [spaced].
      + unfold after_semicolon.
        change (s2u ";" ++ ?x) with (59 :: x).
        rewrite (Literal1_white _ 59 _ (Hg' _) eq_refl).
        now rewrite (skip_white_allwhite _ HT').
      + apply sep_start_white; [apply Hg'|reflexivity].
      + change (s2u ";" ++ ?x) with (59 :: x).
        unfold PP.And.
        rewrite (Literal1_white _ 59 _ (Hg' _) eq_refl).
        unfold Grammar.disposition_parm.
        now rewrite (disp_ext_parm_white _ HT').
    - rewrite (P _ eq_refl); cbn [spaced].
      + assert (L : PP.Literal true (s2u ";") (expandtabs_from col' tail) = None)
          by (unfold PP.Literal; cbn [PP.preParse];
              now rewrite (skip_white_allwhite _ HT')).
        unfold after_semicolon; rewrite L.
        now rewrite (skip_white_allwhite _ HT').
      + now apply allwhite_sep_start.
      + now apply loop_element_white. }
  rewrite (G gap tail Hg Htail).
  rewrite <- (spaced_nil 0 (header_tokens t ps final)).
  now rewrite (G (fun _ => []) [] (fun _ => eq_refl) eq_refl).
Qed.

(** Whitespace followed by another character than the semicolon, after
    the type or after the value of a parameter, is an error: a type or a
    token value cannot be split. *)
Lemma whitespace_splits_value t ps gap w b rest :
  type_text t ->
  Forall (fun nV => is_name (fst nV) /\ value_text (snd nV)) ps ->
  (forall j, allwhite (gap j)) ->
  allwhite w -> w <> [] -> PP.is_white b = false -> b <> 59 ->
  parse (spaced gap 0 (header_tokens t ps false) (w ++ b :: rest))
  = Raise SyntaxError.
Proof.
  intros [Ht9 [t' HT]] Hps Hg Hw Hne Hb H59.
  destruct (values_read ps Hps) as [vs Hvs].
  unfold header_tokens.
  destruct (parse_spaced t t' ps vs [] gap (w ++ b :: rest) Ht9 HT Hps Hvs
              (Forall_nil _) Hg) as (gap' & col' & Hg' & P).
  destruct (expandtabs_white_nonempty w Hw Hne col')
    as (w' & col1 & Hw' & Hne' & E).
  destruct (expandtabs_nonwhite_cons b rest col1 Hb) as (col2 & E2).
  rewrite (P _ eq_refl); cbn [spaced]; rewrite E, E2.
  - now rewrite (after_semicolon_fails w' b _ Hw' Hb H59).
  - now apply sep_start_nonempty_white.
  - unfold PP.And; change (s2u ";") with [59].
    now rewrite (Literal1_fails true 59 w' b _ Hw' Hb H59 (or_introl eq_refl)).
Qed.

(** Whitespace inside a parameter name, or between the name and its
    star, is an error. *)
Lemma whitespace_splits_name t ps gap a w b rest :
  type_text t ->
  Forall (fun nV => is_name (fst nV) /\ value_text (snd nV)) ps ->
  (forall j, allwhite (gap j)) -> is_name a ->
  allwhite w -> w <> [] -> PP.is_white b = false -> b <> 61 ->
  parse (spaced gap 0 (header_tokens t ps false ++ [s2u ";"; a])
           (w ++ b :: rest))
  = Raise SyntaxError.
Proof.
  intros [Ht9 [t' HT]] Hps Hg Ha Hw Hne Hb H61.
  destruct (values_read ps Hps) as [vs Hvs].
  unfold header_tokens; rewrite app_nil_r.
  change ((t :: parm_tokens ps) ++ [s2u ";"; a])
    with (t :: parm_tokens ps ++ [s2u ";"; a]).
  assert (Htl : Forall (fun tk => char_in tk 9 = false) [s2u ";"; a])
    by (repeat constructor; now apply is_name_notab).
  destruct (parse_spaced t t' ps vs _ gap (w ++ b :: rest) Ht9 HT Hps Hvs
              Htl Hg) as (gap' & col' & Hg' & P).
  destruct (expandtabs_white_nonempty w Hw Hne col')
    as (w' & col1 & Hw' & Hne' & E).
  destruct (expandtabs_nonwhite_cons b rest col1 Hb) as (col2 & E2).
  rewrite (P _ eq_refl); cbn [spaced]; rewrite E, E2;
    change (s2u ";" ++ ?x) with (59 :: x).
  - unfold after_semicolon.
    rewrite (Literal1_white _ 59 _ (Hg' _) eq_refl).
    rewrite (skip_white_app _ _ (Hg' _)).
    destruct (is_name_head a (w' ++ b :: expandtabs_from col2 rest) Ha)
      as [-> Hn].
    now destruct (a ++ w' ++ b :: expandtabs_from col2 rest).
  - apply sep_start_white; [apply Hg'|reflexivity].
  - unfold PP.And.
    rewrite (Literal1_white _ 59 _ (Hg' _) eq_refl).
    unfold Grammar.disposition_parm.
    now rewrite (disp_ext_parm_split a _ w' b _ Ha (Hg' _) Hw' Hne' Hb H61).
Qed.

(** C5 (amended): the grammar skips whitespace (space, tab, carriage
    return, line feed) before every token.  Whitespace before a header
    without tab and whitespace after any header do not change what [parse]
    returns.  For a header made of a disposition type, parameters with a
    name, the equals sign and a value, and a final semicolon or none,
    whitespace before, between and after these tokens, around the semicolon
    and the equals sign included, does not change what [parse] returns.
    Whitespace that splits a token is an error: after the type or after a
    value, whitespace followed by another character than the semicolon; in
    a parameter name, or between the name and its star, whitespace followed
    by another character than the equals sign. *)
Theorem C5_whitespace_is_skipped :
  (forall w header,
      allwhite w -> char_in header 9 = false ->
      parse (w ++ header) = parse header)
  /\ (forall w header, allwhite w -> parse (header ++ w) = parse header)
  /\ (forall t ps final gap tail,
         type_text t ->
         Forall (fun nV => is_name (fst nV) /\ value_text (snd nV)) ps ->
         (forall j, allwhite (gap j)) -> allwhite tail ->
         parse (spaced gap 0 (header_tokens t ps final) tail)
         = parse (concat (header_tokens t ps final)))
  /\ (forall t ps gap w b rest,
         type_text t ->
         Forall (fun nV => is_name (fst nV) /\ value_text (snd nV)) ps ->
         (forall j, allwhite (gap j)) ->
         allwhite w -> w <> [] -> PP.is_white b = false -> b <> 59 ->
         parse (spaced gap 0 (header_tokens t ps false) (w ++ b :: rest))
         = Raise SyntaxError)
  /\ (forall t ps gap a w b rest,
         type_text t ->
         Forall (fun nV => is_name (fst nV) /\ value_text (snd nV)) ps ->
         (forall j, allwhite (gap j)) -> is_name a ->
         allwhite w -> w <> [] -> PP.is_white b = false -> b <> 61 ->
         parse (spaced gap 0 (header_tokens t ps false ++ [s2u ";"; a])
                  (w ++ b :: rest))
         = Raise SyntaxError)
  /\ parse (s2u "  attachment ; filename = x ;  ")
     = Ok (s2u "attachment", [mkCD (s2u "filename") (s2u "x")])
  /\ parse (s2u "att achment") = Raise SyntaxError
  /\ parse (s2u "attachment; file name=x") = Raise SyntaxError
  /\ parse (s2u "attachment; filename *=UTF-8''x") = Raise SyntaxError.
Proof.
  split; [exact parse_leading_whitespace|].
  split; [exact parse_trailing_whitespace|].
  split; [exact whitespace_between_tokens|].
  split; [exact whitespace_splits_value|].
  split; [exact whitespace_splits_name|].
  vm_compute; repeat split; reflexivity.
Qed.

Lemma C5_whitespace_is_skipped_witness :
  parse ([32; 9; 13; 10] ++ s2u "attachment; filename=x")
  = parse (s2u "attachment; filename=x")
  /\ parse (s2u "attachment; filename=x" ++ [32; 9; 13; 10])
     = parse (s2u "attachment; filename=x")
  /\ parse (spaced (fun j => repeat 32 j ++ [9; 13; 10]) 0
              (header_tokens (s2u "Attachment")
                 [(s2u "filename", q "a b"); (s2u "x*", s2u "UTF-8''y")] true)
              [10; 32])
     = parse (s2u "Attachment;filename=" ++ q "a b" ++ s2u ";x*=UTF-8''y;")
  /\ parse (spaced (fun _ => [32]) 0
              (header_tokens (s2u "att") [] false) (s2u " achment"))
     = Raise SyntaxError
  /\ parse (spaced (fun _ => [32]) 0
              (header_tokens (s2u "inline") [(s2u "filename", s2u "a")] false)
              (s2u " b; x=y"))
     = Raise SyntaxError
  /\ parse (spaced (fun _ => [32]) 0
              (header_tokens (s2u "attachment") [] false
               ++ [s2u ";"; s2u "filename"])
              (s2u " *=UTF-8''x"))
     = Raise SyntaxError.
Proof.
  destruct C5_whitespace_is_skipped as (H1 & H2 & H3 & H4 & H5 & _).
  assert (Ty : forall t, In t [s2u "Attachment"; s2u "att"; s2u "inline";
                               s2u "attachment"] -> type_text t).
  { intros t [<-|[<-|[<-|[<-|[]]]]]; (split; [reflexivity|]);
      eexists; vm_compute; reflexivity. }
  assert (Nf : is_name (s2u "filename"))
    by (exists (s2u "filenam"), 101; repeat split; now left).
  assert (Gap : forall j, allwhite (repeat 32 j ++ [9; 13; 10]))
    by (intros j; apply allwhite_app; [apply allwhite_repeat|reflexivity]).
  split; [apply H1; reflexivity|].
  split; [apply H2; reflexivity|].
  split; [|split; [|split]].
  - apply (H3 (s2u "Attachment")
             [(s2u "filename", q "a b"); (s2u "x*", s2u "UTF-8''y")] true);
      [apply Ty; simpl; tauto| |exact Gap|reflexivity].
    repeat constructor; try exact Nf; cbn [fst snd].
    + exists (s2u "a b"); vm_compute; reflexivity.
    + exists [], 120; repeat split; now right.
    + exists (s2u "UTF-8''y"); vm_compute; reflexivity.
  - apply (H4 (s2u "att") [] (fun _ => [32]) [32] 97 (s2u "chment"));
      [apply Ty; simpl; tauto|constructor|reflexivity|reflexivity
      |discriminate|reflexivity|discriminate].
  - apply (H4 (s2u "inline") [(s2u "filename", s2u "a")] (fun _ => [32]) [32] 98
             (s2u "; x=y"));
      [apply Ty; simpl; tauto| |reflexivity|reflexivity
      |discriminate|reflexivity|discriminate].
    repeat constructor; [exact Nf|].
    exists (s2u "a"); vm_compute; reflexivity.
  - apply (H5 (s2u "attachment") [] (fun _ => [32]) (s2u "filename") [32] 42
             (s2u "=UTF-8''x"));
      [apply Ty; simpl; tauto|constructor|reflexivity|exact Nf|reflexivity
      |discriminate|reflexivity|discriminate].
Defined.
